(** * The helper utilities of the dashboard ([src/utils/helpers.js])

    A shallow embedding of the string, collection, time and rate-limiting
    helpers, and the properties their specification states about them.

    JavaScript strings are sequences of UTF-16 code units; a code unit is a
    natural number here.  Records are finite maps from property names to
    primitive values, arrays and records live in a store and are passed by
    reference. *)

From Stdlib Require Import ZArith NArith List Bool Lia Permutation String Ascii.
From Stdlib Require DecimalString.
From stdpp Require Import base option list gmap sorting.

Local Open Scope N_scope.

(** ** Strings *)

Abbreviation jsstring := (list N).

(** A string literal of the source, code unit by code unit. *)
Fixpoint lit (s : string) : jsstring :=
  match s with
  | EmptyString => []
  | String a r => N_of_ascii a :: lit r
  end.

Module Char.

Definition hyphen : N := 45.
Definition underscore : N := 95.

Definition is_digit (c : N) : bool := (48 <=? c) && (c <=? 57).
Definition is_upper (c : N) : bool := (65 <=? c) && (c <=? 90).
Definition is_lower (c : N) : bool := (97 <=? c) && (c <=? 122).

(** [\w] of a regular expression without the [u] and [i] flags. *)
Definition is_word (c : N) : bool :=
  is_upper c || is_lower c || is_digit c || (c =? underscore).

(** [\s]: the WhiteSpace and LineTerminator code points of ECMA-262, which
    are also what [String.prototype.trim] strips. *)
Definition is_space (c : N) : bool :=
  ((9 <=? c) && (c <=? 13)) || (c =? 32) || (c =? 160) || (c =? 0x1680)
  || ((0x2000 <=? c) && (c <=? 0x200A)) || (c =? 0x2028) || (c =? 0x2029)
  || (c =? 0x202F) || (c =? 0x205F) || (c =? 0x3000) || (c =? 0xFEFF).

Definition is_hyphen (c : N) : bool := c =? hyphen.

End Char.

(** The longest suffix that does not start with a [p] character. *)
Fixpoint drop_while (p : N -> bool) (s : jsstring) : jsstring :=
  match s with
  | [] => []
  | c :: r => if p c then drop_while p r else s
  end.

(** The longest prefix that does not end with a [p] character. *)
Fixpoint drop_while_end (p : N -> bool) (s : jsstring) : jsstring :=
  match s with
  | [] => []
  | c :: r =>
      match drop_while_end p r with
      | [] => if p c then [] else [c]
      | r' => c :: r'
      end
  end.

(** [String.prototype.trim] *)
Definition trim (s : jsstring) : jsstring :=
  drop_while_end Char.is_space (drop_while Char.is_space s).

(** [str.substring(0, end)] for an integer [end]: negative ends count as 0,
    ends past the string as its length. *)
Definition substring0 (s : jsstring) (e : Z) : jsstring :=
  take (Z.to_nat e) s.

(** [String.prototype.includes]: [t] occurs in [s] at some position. *)
Fixpoint starts_with (t s : jsstring) : bool :=
  match t, s with
  | [], _ => true
  | _ :: _, [] => false
  | a :: t', b :: s' => (a =? b) && starts_with t' s'
  end.

Fixpoint includes (s t : jsstring) : bool :=
  starts_with t s ||
  match s with
  | [] => false
  | _ :: s' => includes s' t
  end.

(** *** slugify *)

(** [.replace(/[^\w\s-]/g, '')] *)
Definition remove_special (s : jsstring) : jsstring :=
  List.filter (fun c => Char.is_word c || Char.is_space c || Char.is_hyphen c) s.

Definition is_separator (c : N) : bool :=
  Char.is_space c || (c =? Char.underscore) || Char.is_hyphen c.

(** [.replace(/[\s_-]+/g, '-')]: the scan emits one hyphen when it enters a
    run of separators and nothing for the rest of the run. *)
Fixpoint hyphenate_from (in_run : bool) (s : jsstring) : jsstring :=
  match s with
  | [] => []
  | c :: r =>
      if is_separator c
      then (if in_run then hyphenate_from true r
            else Char.hyphen :: hyphenate_from true r)
      else c :: hyphenate_from false r
  end.

Definition hyphenate (s : jsstring) : jsstring := hyphenate_from false s.

(** [.replace(/^-+|-+$/g, '')] *)
Definition strip_hyphens (s : jsstring) : jsstring :=
  drop_while_end Char.is_hyphen (drop_while Char.is_hyphen s).

Section Slugify.

(** [String.prototype.toLowerCase] follows the Unicode case mappings of
    the engine; the helpers only rely on what the section assumes of it. *)
Variable toLowerCase : jsstring -> jsstring.

Definition slugify (str : jsstring) : jsstring :=
  strip_hyphens (hyphenate (remove_special (trim (toLowerCase str)))).

End Slugify.

(** The restriction of [toLowerCase] to ASCII text. *)
Definition ascii_toLowerCase (s : jsstring) : jsstring :=
  map (fun c => if Char.is_upper c then c + 32 else c) s.

(** *** truncate *)

Definition default_suffix : jsstring := lit "...".

(** [!str] on a string: only the empty string is falsy. *)
Definition str_falsy (s : jsstring) : bool :=
  match s with [] => true | _ => false end.

Definition truncate (str : jsstring) (length : Z) (suffix : jsstring) : jsstring :=
  if str_falsy str || (Z.of_nat (List.length str) <=? length)%Z then str
  else substring0 str (length - Z.of_nat (List.length suffix)) ++ suffix.

(** *** The shape of a slug *)

Definition slug_char (c : N) : bool :=
  Char.is_lower c || Char.is_digit c || Char.is_hyphen c.

Fixpoint single_hyphens (s : jsstring) : bool :=
  match s with
  | c1 :: r =>
      match r with
      | c2 :: _ => negb (Char.is_hyphen c1 && Char.is_hyphen c2)
      | [] => true
      end && single_hyphens r
  | [] => true
  end.

(** Lower-case letters, digits and single hyphens, with no hyphen at either
    end: what [slugify] produces. *)
Record slug_shape (s : jsstring) : Prop := SlugShape {
  shape_chars : Forall (fun c => slug_char c = true) s;
  shape_single : single_hyphens s = true;
  shape_head : head s <> Some Char.hyphen;
  shape_last : last s <> Some Char.hyphen
}.

Ltac char_unfold :=
  unfold slug_char, is_separator, Char.is_word, Char.is_space, Char.is_hyphen,
    Char.is_digit, Char.is_upper, Char.is_lower, Char.hyphen, Char.underscore in *.

Ltac bool_to_prop :=
  repeat progress
    (rewrite ?negb_true_iff, ?negb_false_iff, ?andb_true_iff, ?orb_true_iff,
       ?andb_false_iff, ?orb_false_iff, ?N.eqb_eq, ?N.eqb_neq, ?N.leb_le,
       ?N.leb_gt in *).

Ltac char_solve := char_unfold; bool_to_prop; lia.


(** ** Values, records and the store *)

Local Open Scope Z_scope.

(** A number is [NaN], an infinity or a finite number; the finite numbers of
    the records and timestamps handled here are integers. *)
Inductive number :=
| NaN
| Infinity (negative : bool)
| Finite (z : Z).

(** What a plain record inherits from [Object.prototype]: the function
    [Object] as its [constructor], ten methods, and [Object.prototype]
    itself behind the accessor [__proto__]. *)
Inductive builtin :=
| Object_constructor
| Object_defineGetter
| Object_defineSetter
| Object_hasOwnProperty
| Object_lookupGetter
| Object_lookupSetter
| Object_isPrototypeOf
| Object_propertyIsEnumerable
| Object_toString
| Object_valueOf
| Object_prototype
| Object_toLocaleString.

(** The fields of a record hold primitive values; reading a name the record
    inherits yields a built-in object. *)
Inductive value :=
| VUndefined
| VNull
| VBool (b : bool)
| VNum (n : number)
| VStr (s : jsstring)
| VBuiltin (b : builtin).

(** ToBoolean *)
Definition truthy (v : value) : bool :=
  match v with
  | VUndefined | VNull => false
  | VBool b => b
  | VNum NaN => false
  | VNum (Infinity _) => true
  | VNum (Finite z) => negb (z =? 0)
  | VStr s => negb (str_falsy s)
  | VBuiltin _ => true
  end.

(** The decimal digits of an integer, as a template literal prints an
    integer below 1e21. *)
Definition decimal (z : Z) : jsstring :=
  lit (DecimalString.NilZero.string_of_int (Z.to_int z)).

(** [Number.prototype.toString] is the engine's: it prints the shortest
    digits that read back as the number, in exponent form from 1e21 on.
    The helpers rely on nothing about it. *)
Class Engine := { Number_toString : number -> jsstring }.

(** [Number.prototype.toString] where it prints an integer digit by digit:
    on the integers below 2^53 in absolute value, which are the numbers of
    the examples. *)
Definition integer_toString (n : number) : jsstring :=
  match n with
  | NaN => lit "NaN"
  | Infinity false => lit "Infinity"
  | Infinity true => lit "-Infinity"
  | Finite z => decimal z
  end.

Definition integers : Engine := {| Number_toString := integer_toString |}.

(** The name under which a record inherits a built-in object. *)
Definition builtin_key (b : builtin) : jsstring :=
  match b with
  | Object_constructor => lit "constructor"
  | Object_defineGetter => lit "__defineGetter__"
  | Object_defineSetter => lit "__defineSetter__"
  | Object_hasOwnProperty => lit "hasOwnProperty"
  | Object_lookupGetter => lit "__lookupGetter__"
  | Object_lookupSetter => lit "__lookupSetter__"
  | Object_isPrototypeOf => lit "isPrototypeOf"
  | Object_propertyIsEnumerable => lit "propertyIsEnumerable"
  | Object_toString => lit "toString"
  | Object_valueOf => lit "valueOf"
  | Object_prototype => lit "__proto__"
  | Object_toLocaleString => lit "toLocaleString"
  end.

Definition builtins : list builtin :=
  [ Object_constructor; Object_defineGetter; Object_defineSetter;
    Object_hasOwnProperty; Object_lookupGetter; Object_lookupSetter;
    Object_isPrototypeOf; Object_propertyIsEnumerable; Object_toString;
    Object_valueOf; Object_prototype; Object_toLocaleString ].

(** The property of [Object.prototype] with the given name. *)
Definition inherited (key : jsstring) : option builtin :=
  List.find (fun b => bool_decide (builtin_key b = key)) builtins.

(** What [toString()] answers on a built-in object: the source text of a
    native function as V8 prints it, and "[object Object]" for
    [Object.prototype]. *)
Definition builtin_text (b : builtin) : jsstring :=
  match b with
  | Object_prototype => lit "[object Object]"
  | Object_constructor => lit "function Object() { [native code] }"
  | _ => lit "function " ++ builtin_key b ++ lit "() { [native code] }"
  end.

(** The [length] of a built-in object: the number of parameters of a
    function; [Object.prototype] has none. *)
Definition builtin_length (b : builtin) : option Z :=
  match b with
  | Object_prototype => None
  | Object_defineGetter | Object_defineSetter => Some 2
  | Object_toString | Object_valueOf | Object_toLocaleString => Some 0
  | _ => Some 1
  end.

(** The method call [value.toString()]; [None] is the TypeError thrown when
    [value] is [undefined] or [null]. *)
Definition toString {engine : Engine} (v : value) : option jsstring :=
  match v with
  | VUndefined | VNull => None
  | VBool true => Some (lit "true")
  | VBool false => Some (lit "false")
  | VNum n => Some (Number_toString n)
  | VStr s => Some s
  | VBuiltin b => Some (builtin_text b)
  end.

(** Records and arrays are reached through references.  An array holds
    references to records; a reference the store does not know stands for a
    record without properties of its own.  A record is a plain object: its
    prototype is [Object.prototype]. *)
Definition loc := positive.

Record store := Store {
  objects : gmap loc (gmap jsstring value);
  arrays : gmap loc (list loc)
}.

(** [item[key]]: the property of the record itself, else the one it
    inherits from [Object.prototype], else [undefined]. *)
Definition get_field (st : store) (item : loc) (key : jsstring) : value :=
  match (objects st !!! item) !! key with
  | Some v => v
  | None =>
      match inherited key with
      | Some b => VBuiltin b
      | None => VUndefined
      end
  end.

(** A new array, at a reference no array of the store has. *)
Definition alloc_array (st : store) (elems : list loc) : store * loc :=
  let r := fresh (dom (arrays st)) in
  (Store (objects st) (<[r := elems]> (arrays st)), r).

(** ** Collections *)

(** [Array.prototype.some] and [Array.prototype.filter] with a callback that
    may throw: the first exception ends the traversal. *)
Fixpoint array_some {A} (f : A -> option bool) (l : list A) : option bool :=
  match l with
  | [] => Some false
  | x :: r =>
      match f x with
      | Some true => Some true
      | Some false => array_some f r
      | None => None
      end
  end.

Fixpoint array_filter {A} (f : A -> option bool) (l : list A) : option (list A) :=
  match l with
  | [] => Some []
  | x :: r =>
      match f x with
      | Some b =>
          match array_filter f r with
          | Some r' => Some (if b then x :: r' else r')
          | None => None
          end
      | None => None
      end
  end.

Section FilterBySearch.

Context {engine : Engine}.
Variable toLowerCase : jsstring -> jsstring.

(** The callback of [keys.some]: [value && value.toString().toLowerCase().includes(term)],
    read as a boolean. *)
Definition key_matches (st : store) (term : jsstring) (item : loc) (key : jsstring)
  : option bool :=
  let value := get_field st item key in
  if truthy value then
    match toString value with
    | Some s => Some (includes (toLowerCase s) term)
    | None => None
    end
  else Some false.

Definition filterBySearch (st : store) (array : loc) (searchTerm : jsstring)
    (keys : list jsstring) : option (store * loc) :=
  if str_falsy searchTerm then Some (st, array)
  else
    let term := toLowerCase searchTerm in
    match arrays st !! array with
    | Some items =>
        match array_filter (fun item => array_some (key_matches st term item) keys) items with
        | Some kept => Some (alloc_array st kept)
        | None => None
        end
    | None => None
    end.

End FilterBySearch.

(** *** Array.prototype.sort

    ECMA-262 leaves the algorithm to the engine: the result is fixed (sorted
    and stable) for a consistent comparator, and implementation-defined
    otherwise.  The model is V8's: the leading run is detected, reversed when
    strictly descending, and the remaining elements are placed by binary
    insertion.  (V8 sorts an array of fewer than 64 elements exactly so and
    merges runs built this way in longer ones.) *)

Section ArraySort.

Context {A : Type}.
Variable comparefn : A -> A -> Z.

(** How far the run that ends in [prev] extends into [l]. *)
Fixpoint run_length (descending : bool) (prev : A) (l : list A) : nat :=
  match l with
  | [] => O
  | x :: r =>
      let order := comparefn x prev in
      if (if descending then order <? 0 else 0 <=? order)
      then S (run_length descending x r)
      else O
  end.

(** The leading run, made ascending, and the elements after it. *)
Definition count_and_make_run (l : list A) : list A * list A :=
  match l with
  | a :: b :: r =>
      let descending := comparefn b a <? 0 in
      let n := (2 + run_length descending b r)%nat in
      ((if descending then rev (take n l) else take n l), drop n l)
  | _ => (l, [])
  end.

(** The insertion point of [pivot] in [sorted], searched between [left] and
    [right]; every step halves the interval, so [steps] at least
    [right - left] is enough. *)
Fixpoint binary_search (steps : nat) (pivot : A) (sorted : list A)
    (left right : nat) : nat :=
  match steps with
  | O => left
  | S steps' =>
      if (left <? right)%nat then
        let mid := (left + (right - left) / 2)%nat in
        match sorted !! mid with
        | Some e =>
            if comparefn pivot e <? 0
            then binary_search steps' pivot sorted left mid
            else binary_search steps' pivot sorted (mid + 1)%nat right
        | None => left
        end
      else left
  end.

Definition insert_pivot (sorted : list A) (pivot : A) : list A :=
  let at_index := binary_search (length sorted) pivot sorted 0 (length sorted) in
  take at_index sorted ++ pivot :: drop at_index sorted.

Definition binary_insertion_sort (run rest : list A) : list A :=
  fold_left insert_pivot rest run.

Definition array_sort (l : list A) : list A :=
  let (run, rest) := count_and_make_run l in
  binary_insertion_sort run rest.

End ArraySort.

Definition asc : jsstring := lit "asc".

Section SortByKey.

(** The relational comparison [x < y] of the engine (ECMA-262 IsLessThan);
    [x > y] is [y < x]. *)
Variable IsLessThan : value -> value -> bool.

(** The comparator handed to [sort]. *)
Definition compare_by_key (st : store) (key order : jsstring) (a b : loc) : Z :=
  let valueA := get_field st a key in
  let valueB := get_field st b key in
  if IsLessThan valueA valueB then (if bool_decide (order = asc) then -1 else 1)
  else if IsLessThan valueB valueA then (if bool_decide (order = asc) then 1 else -1)
  else 0.

(** [[...array].sort(...)]: the copy is a new array, sorted in place and
    returned. *)
Definition sortByKey (st : store) (array : loc) (key order : jsstring)
  : option (store * loc) :=
  match arrays st !! array with
  | Some items =>
      let (st1, copy) := alloc_array st items in
      let sorted := array_sort (compare_by_key st1 key order) items in
      Some (Store (objects st1) (<[copy := sorted]> (arrays st1)), copy)
  | None => None
  end.

End SortByKey.

(** [<] on numbers: NaN is unordered, the infinities bound the rest. *)
Definition number_lt (x y : number) : bool :=
  match x, y with
  | NaN, _ | _, NaN => false
  | Infinity a, Infinity b => a && negb b
  | Infinity a, Finite _ => a
  | Finite _, Infinity b => negb b
  | Finite a, Finite b => a <? b
  end.

(** ToPrimitive: a built-in object turns into the string its [toString]
    answers, its [valueOf] answering the object itself. *)
Definition ToPrimitive (v : value) : value :=
  match v with
  | VBuiltin b => VStr (builtin_text b)
  | _ => v
  end.

(** ToNumber, given the engine's reading of a string as a number. *)
Definition ToNumber (StringToNumber : jsstring -> number) (v : value) : number :=
  match v with
  | VUndefined => NaN
  | VNull => Finite 0
  | VBool b => Finite (if b then 1 else 0)
  | VNum n => n
  | VStr s => StringToNumber s
  | VBuiltin b => StringToNumber (builtin_text b)
  end.

(** Code-unit order of two strings. *)
Fixpoint string_lt (s t : jsstring) : bool :=
  match s, t with
  | _, [] => false
  | [], _ :: _ => true
  | a :: s', b :: t' => (a <? b)%N || ((a =? b)%N && string_lt s' t')
  end.

(** IsLessThan: two strings by code units, anything else as numbers. *)
Definition js_lt (StringToNumber : jsstring -> number) (x y : value) : bool :=
  match ToPrimitive x, ToPrimitive y with
  | VStr s, VStr t => string_lt s t
  | px, py => number_lt (ToNumber StringToNumber px) (ToNumber StringToNumber py)
  end.

(** ** timeAgo *)

Definition intervals : list (jsstring * Z) :=
  [ (lit "year", 31536000); (lit "month", 2592000); (lit "week", 604800);
    (lit "day", 86400); (lit "hour", 3600); (lit "minute", 60) ].

(** [`${interval} ${unit}${interval > 1 ? 's' : ''} ago`] *)
Definition ago (interval : Z) (unit : jsstring) : jsstring :=
  decimal interval ++ lit " " ++ unit
    ++ (if 1 <? interval then lit "s" else []) ++ lit " ago".

(** The loop over [Object.entries(intervals)].  [seconds] is [None] when it
    is NaN, and then no comparison [interval >= 1] holds. *)
Fixpoint first_interval (seconds : option Z) (units : list (jsstring * Z)) : jsstring :=
  match units with
  | [] => lit "Just now"
  | (unit, secondsInUnit) :: rest =>
      match seconds with
      | Some s =>
          let interval := s / secondsInUnit in
          if 1 <=? interval then ago interval unit
          else first_interval seconds rest
      | None => first_interval seconds rest
      end
  end.

(** [date] is the time value of [new Date(dateString)] in milliseconds,
    [None] for an invalid date, whose time value is NaN; [now] is the time
    value of [new Date()]. *)
Definition timeAgo (now : Z) (date : option Z) : jsstring :=
  let seconds := match date with
                 | Some d => Some ((now - d) / 1000)
                 | None => None
                 end in
  first_interval seconds intervals.

(** ** isNotEmpty *)

(** [str && str.trim().length > 0]: a falsy [str] is the result itself;
    [None] is the TypeError of calling [trim] on a value that has none. *)
Definition isNotEmpty (str : value) : option value :=
  if truthy str then
    match str with
    | VStr s => Some (VBool (0 <? length (trim s))%nat)
    | _ => None
    end
  else Some str.

Definition is_boolean (v : value) : bool :=
  match v with VBool _ => true | _ => false end.

(** ** debounce

    The timers of the event loop: [setTimeout] queues a callback with the
    time it is due, [clearTimeout] removes it, and the loop runs the
    callbacks that are due, earliest first.  Every timer of this world is
    the [later] closure of one debounced function; it carries the arguments
    of the call that created it. *)

Record timer := Timer {
  timer_id : nat;
  due : Z;
  later_args : list value
}.

Record world := World {
  clock : Z;
  next_id : nat;
  pending : list timer;
  timeout : option nat;            (* the [timeout] variable of the closure *)
  calls : list (Z * list value)    (* when [func] ran, and with what *)
}.

Definition initial (t : Z) : world := World t 0 [] None [].

Definition clearTimeout (id : option nat) (w : world) : world :=
  match id with
  | Some i =>
      World (clock w) (next_id w)
        (List.filter (fun t => negb (timer_id t =? i)%nat) (pending w))
        (timeout w) (calls w)
  | None => w
  end.

(** The longest delay a timer keeps, in milliseconds. *)
Definition TIMEOUT_MAX : Z := 2 ^ 31 - 1.

(** The delay [setTimeout] gives a timer: the one it is handed when that is
    from 1 to [TIMEOUT_MAX], and 1 otherwise (so Node.js; a browser turns
    a delay past [TIMEOUT_MAX] into a short one as well). *)
Definition timer_delay (delay : Z) : Z :=
  if (1 <=? delay) && (delay <=? TIMEOUT_MAX) then delay else 1.

Definition setTimeout (delay : Z) (args : list value) (w : world) : nat * world :=
  let id := next_id w in
  (id, World (clock w) (S id)
         (pending w ++ [Timer id (clock w + timer_delay delay) args])
         (timeout w) (calls w)).

Definition set_timeout_var (id : nat) (w : world) : world :=
  World (clock w) (next_id w) (pending w) (Some id) (calls w).

(** [executedFunction(...args)]: [clearTimeout(timeout); timeout = setTimeout(later, wait)]. *)
Definition executedFunction (wait : Z) (args : list value) (w : world) : world :=
  let w1 := clearTimeout (timeout w) w in
  let (id, w2) := setTimeout wait args w1 in
  set_timeout_var id w2.

(** [debounce(func, wait)] is [executedFunction], closed over a [timeout]
    variable of its own that starts undefined. *)
Definition debounce (wait : Z) : list value -> world -> world :=
  executedFunction wait.

(** [later]: [clearTimeout(timeout); func(...args)]. *)
Definition later (args : list value) (w : world) : world :=
  let w1 := clearTimeout (timeout w) w in
  World (clock w1) (next_id w1) (pending w1) (timeout w1)
    (calls w1 ++ [(clock w1, args)]).

(** The first of the timers with the earliest due time. *)
Fixpoint earliest (ts : list timer) : option timer :=
  match ts with
  | [] => None
  | t :: r =>
      match earliest r with
      | Some t' => if due t' <? due t then Some t' else Some t
      | None => Some t
      end
  end.

(** The event loop up to time [target]: a due timer leaves the queue and
    its callback runs at its due time.  Each round takes one timer out and
    [later] adds none, so [length (pending w)] rounds are enough. *)
Fixpoint run_timers (rounds : nat) (target : Z) (w : world) : world :=
  match rounds with
  | O => w
  | S rounds' =>
      match earliest (pending w) with
      | Some t =>
          if due t <=? target then
            let w1 := World (Z.max (clock w) (due t)) (next_id w)
                        (List.filter (fun t' => negb (timer_id t' =? timer_id t)%nat) (pending w))
                        (timeout w) (calls w) in
            run_timers rounds' target (later (later_args t) w1)
          else w
      | None => w
      end
  end.

Definition advance (target : Z) (w : world) : world :=
  let w1 := run_timers (length (pending w)) target w in
  World (Z.max (clock w1) target) (next_id w1) (pending w1) (timeout w1) (calls w1).

(** The debounced function called at the given times, in order. *)
Fixpoint call_all (wait : Z) (invocations : list (Z * list value)) (w : world) : world :=
  match invocations with
  | [] => w
  | (t, args) :: rest => call_all wait rest (debounce wait args (advance t w))
  end.

(** Consecutive calls, in time order, less than [wait] apart. *)
Fixpoint within_wait (wait : Z) (t : Z) (later_calls : list (Z * list value)) : Prop :=
  match later_calls with
  | [] => True
  | (t', _) :: rest => t <= t' < t + wait /\ within_wait wait t' rest
  end.

(** ** Notions the properties are stated with *)

(** [t] occurs in [s]. *)
Definition substring_of (t s : jsstring) : Prop :=
  exists pre post, s = pre ++ t ++ post.

Section Retaining.

Context {engine : Engine}.
Variable toLowerCase : jsstring -> jsstring.

(** The string form of the field, in lower case, contains the term in lower
    case. *)
Definition field_contains (st : store) (term : jsstring) (item : loc)
    (key : jsstring) : Prop :=
  exists str, toString (get_field st item key) = Some str
              /\ substring_of (toLowerCase term) (toLowerCase str).

(** What the callback of [filter] answers for [item], as a boolean. *)
Definition keeps (st : store) (term : jsstring) (keys : list jsstring)
    (item : loc) : bool :=
  existsb (fun key => match key_matches toLowerCase st term item key with
                      | Some b => b
                      | None => false
                      end) keys.

(** Retaining by the string form alone, whatever the truth value of the
    field. *)
Definition retains_by_string_form (st : store) (term : jsstring)
    (keys : list jsstring) (items kept : list loc) : Prop :=
  forall item,
    In item kept <->
    In item items /\ exists key, In key keys /\ field_contains st term item key.

End Retaining.

(** The values that are present and falsy. *)
Definition falsy_values : list value :=
  [VNum (Finite 0); VStr []; VBool false; VNum NaN].

(** [a] stands before [b] in [l]. *)
Definition before {A} (a b : A) (l : list A) : Prop :=
  exists i j, (i < j)%nat /\ l !! i = Some a /\ l !! j = Some b.

(** *** A store to run the helpers on

    Two component records, as the dashboard lists them, one of them with a
    usage count of 0. *)
Definition name_key : jsstring := lit "name".
Definition author_key : jsstring := lit "author".
Definition count_key : jsstring := lit "count".

Definition banner_item : loc := 1%positive.
Definition zero_item : loc := 2%positive.
Definition components_array : loc := 3%positive.

Definition dashboard_store : store :=
  Store
    (<[banner_item := <[name_key := VStr (lit "Hero Banner")]>
                       (<[author_key := VStr (lit "Milos")]>
                        (<[count_key := VNum (Finite 12)]> ∅))]>
     (<[zero_item := <[name_key := VStr (lit "Card")]>
                      (<[count_key := VNum (Finite 0)]> ∅)]> ∅))
    (<[components_array := [banner_item; zero_item]]> ∅).

(** *** Consistent comparators

    A comparator is consistent on a set of elements when it orders them in
    totally ordered classes (ECMA-262, 23.1.3.30): the sign of
    [comparefn a b] is opposite to that of [comparefn b a], and "not after"
    is transitive. *)
Record consistent_on {A} (comparefn : A -> A -> Z) (S : A -> Prop) : Prop := Consistent {
  consistent_sign :
    forall a b, S a -> S b -> (comparefn a b < 0 <-> 0 < comparefn b a);
  consistent_trans :
    forall a b c, S a -> S b -> S c ->
      comparefn a b <= 0 -> comparefn b c <= 0 -> comparefn a c <= 0
}.

(** The values [V] are pairwise comparable: [<] is a strict weak order on
    them, as it is on numbers other than NaN and on strings. *)
Record comparable_values (lt : value -> value -> bool) (V : value -> Prop) : Prop := Comparable {
  lt_irreflexive : forall a, V a -> lt a a = false;
  lt_transitive :
    forall a b c, V a -> V b -> V c -> lt a b = true -> lt b c = true -> lt a c = true;
  lt_between :
    forall a b c, V a -> V b -> V c -> lt a c = true -> lt a b = true \/ lt b c = true
}.

(** [x] is neither before nor after [a]. *)
Definition same_rank {A} (comparefn : A -> A -> Z) (a x : A) : bool :=
  comparefn a x =? 0.

Definition not_after {A} (comparefn : A -> A -> Z) (a b : A) : Prop :=
  comparefn a b <= 0.

Definition strictly_after {A} (comparefn : A -> A -> Z) (a b : A) : Prop :=
  comparefn b a < 0.

(** Items whose values at [key] are equal (neither is less than the other)
    stand in [sorted] in the order they have in [items]. *)
Definition keeps_equal_in_order (IsLessThan : value -> value -> bool) (st : store)
    (key : jsstring) (items sorted : list loc) : Prop :=
  forall a b,
    IsLessThan (get_field st a key) (get_field st b key) = false ->
    IsLessThan (get_field st b key) (get_field st a key) = false ->
    before a b items -> before a b sorted.

(** The values the items of an array have at [key]. *)
Definition key_values (st : store) (key : jsstring) (items : list loc) (v : value) : Prop :=
  exists item, In item items /\ get_field st item key = v.

(** Where no string is compared with a number, the engine's StringToNumber
    is never consulted; this stands for it there. *)
Definition unused_StringToNumber (s : jsstring) : number := NaN.

(** Records numbered from 1 that hold the given usage counts, a record
    without a count where the list says [None], and after them one array of
    all of them. *)
Definition counted (count : option Z) : gmap jsstring value :=
  match count with
  | Some z => <[count_key := VNum (Finite z)]> ∅
  | None => ∅
  end.

Fixpoint counted_records (next : loc) (counts : list (option Z))
  : gmap loc (gmap jsstring value) :=
  match counts with
  | [] => ∅
  | c :: rest => <[next := counted c]> (counted_records (Pos.succ next) rest)
  end.

Fixpoint numbered (next : loc) (n : nat) : list loc :=
  match n with
  | O => []
  | S n' => next :: numbered (Pos.succ next) n'
  end.

Definition counted_store (counts : list (option Z)) : store :=
  Store (counted_records 1%positive counts)
        (<[Pos.of_succ_nat (length counts) := numbered 1%positive (length counts)]> ∅).

Definition counted_array (counts : list (option Z)) : loc :=
  Pos.of_succ_nat (length counts).

(** *** The debounced function between two calls

    After a call at [t] with [args], exactly one timer is pending: the one
    of that call, due after the delay [setTimeout] gives it; [func] has not
    run. *)
Definition armed (wait t : Z) (args : list value) (w : world) : Prop :=
  exists id,
    w = World t (S id) [Timer id (t + timer_delay wait) args] (Some id) [].

(** The last of the calls [(t0, args0) :: later_calls]. *)
Definition final_call (t0 : Z) (args0 : list value) (later_calls : list (Z * list value))
  : Z * list value :=
  List.last later_calls (t0, args0).

(** ** More of the helpers

    [capitalize], [isValidEmail] and [throttle], and what the views make of
    the helpers. *)

(** *** capitalize *)

Section Capitalize.

(** [String.prototype.toUpperCase], of the engine. *)
Variable toUpperCase : jsstring -> jsstring.

(** [if (!str) return ''; return str.charAt(0).toUpperCase() + str.slice(1)];
    [None] is the TypeError of [charAt] on a truthy value that is no
    string. *)
Definition capitalize (str : value) : option jsstring :=
  if truthy str then
    match str with
    | VStr s => Some (toUpperCase (take 1 s) ++ drop 1 s)
    | _ => None
    end
  else Some [].

End Capitalize.

(** The restriction of [toUpperCase] to ASCII text. *)
Definition ascii_toUpperCase (s : jsstring) : jsstring :=
  map (fun c => if Char.is_lower c then (c - 32)%N else c) s.

(** *** Regular expressions

    What [RegExp.prototype.test] decides for a pattern anchored by [^] and
    [$]: whether the whole string is in the language of the pattern.  The
    test goes through the string once, taking the derivative of the pattern
    by each code unit. *)
Inductive regex :=
| Never
| Empty
| Class (p : N -> bool)
| Seq (r1 r2 : regex)
| Alt (r1 r2 : regex)
| Star (r : regex).

(** [r+] *)
Definition Plus (r : regex) : regex := Seq r (Star r).

(** One given code unit. *)
Definition Lit (c : N) : regex := Class (N.eqb c).

Fixpoint nullable (r : regex) : bool :=
  match r with
  | Never => false
  | Empty => true
  | Class _ => false
  | Seq r1 r2 => nullable r1 && nullable r2
  | Alt r1 r2 => nullable r1 || nullable r2
  | Star _ => true
  end.

Fixpoint derive (c : N) (r : regex) : regex :=
  match r with
  | Never => Never
  | Empty => Never
  | Class p => if p c then Empty else Never
  | Seq r1 r2 =>
      if nullable r1 then Alt (Seq (derive c r1) r2) (derive c r2)
      else Seq (derive c r1) r2
  | Alt r1 r2 => Alt (derive c r1) (derive c r2)
  | Star r1 => Seq (derive c r1) (Star r1)
  end.

Fixpoint regex_test (r : regex) (s : jsstring) : bool :=
  match s with
  | [] => nullable r
  | c :: s' => regex_test (derive c r) s'
  end.

(** The language of a pattern. *)
Inductive in_language : regex -> jsstring -> Prop :=
| in_Empty : in_language Empty []
| in_Class p c : p c = true -> in_language (Class p) [c]
| in_Seq r1 r2 s1 s2 :
    in_language r1 s1 -> in_language r2 s2 -> in_language (Seq r1 r2) (s1 ++ s2)
| in_Alt_l r1 r2 s : in_language r1 s -> in_language (Alt r1 r2) s
| in_Alt_r r1 r2 s : in_language r2 s -> in_language (Alt r1 r2) s
| in_Star_nil r : in_language (Star r) []
| in_Star_more r s1 s2 :
    in_language r s1 -> in_language (Star r) s2 -> in_language (Star r) (s1 ++ s2).

(** *** isValidEmail *)

Definition at_sign : N := 64%N.
Definition dot : N := 46%N.

(** [[^\s@]] *)
Definition address_char (c : N) : bool :=
  negb (Char.is_space c || (c =? at_sign)%N).

(** [/^[^\s@]+@[^\s@]+\.[^\s@]+$/] *)
Definition emailRegex : regex :=
  Seq (Plus (Class address_char))
    (Seq (Lit at_sign)
       (Seq (Plus (Class address_char))
          (Seq (Lit dot) (Plus (Class address_char))))).

Definition isValidEmail (email : jsstring) : bool :=
  regex_test emailRegex email.

(** Letters and digits of ASCII. *)
Definition is_alnum (c : N) : bool :=
  Char.is_upper c || Char.is_lower c || Char.is_digit c.

(** *** throttle

    The state of one throttled function: its [inThrottle] variable
    (undefined at first, which counts as false), the due times of the timers
    that will reset it, and the runs of [func]. *)
Record throttle_world := ThrottleWorld {
  th_clock : Z;
  th_pending : list Z;
  inThrottle : bool;
  th_calls : list (Z * list value)
}.

Definition th_initial (t : Z) : throttle_world := ThrottleWorld t [] false [].

(** The function [throttle(func, limit)] returns:
    [if (!inThrottle) { func(...args); inThrottle = true;
                        setTimeout(() => inThrottle = false, limit) }]. *)
Definition throttle (limit : Z) (args : list value) (w : throttle_world)
  : throttle_world :=
  if inThrottle w then w
  else ThrottleWorld (th_clock w)
         (th_pending w ++ [th_clock w + timer_delay limit])
         true
         (th_calls w ++ [(th_clock w, args)]).

(** The event loop up to what happens at [target]: every timer that is due
    leaves the queue and runs its callback, [inThrottle = false].  A timer
    due before [target] has run by then; of a timer due at [target] itself
    the code does not say whether the loop takes it first, [timers_first]
    does. *)
Definition th_advance (timers_first : bool) (target : Z) (w : throttle_world)
  : throttle_world :=
  let is_due d := (d <? target) || (timers_first && (d =? target)) in
  ThrottleWorld (Z.max (th_clock w) target)
    (List.filter (fun d => negb (is_due d)) (th_pending w))
    (inThrottle w && negb (existsb is_due (th_pending w)))
    (th_calls w).

(** The throttled function called at the given times, in order;
    [timers_first i] is the choice of the event loop at call [i]. *)
Fixpoint th_call_all (limit : Z) (timers_first : nat -> bool)
    (invocations : list (Z * list value)) (w : throttle_world) : throttle_world :=
  match invocations with
  | [] => w
  | (t, args) :: rest =>
      th_call_all limit (fun i => timers_first (S i)) rest
        (throttle limit args (th_advance (timers_first O) t w))
  end.

(** Calls in time order, none before [t]. *)
Fixpoint in_time_order (t : Z) (invocations : list (Z * list value)) : Prop :=
  match invocations with
  | [] => True
  | (t', _) :: rest => t <= t' /\ in_time_order t' rest
  end.

(** The calls that open a cooldown window: a call runs unless it falls
    before the end of the window the last run opened. *)
Fixpoint leading_calls (limit : Z) (cooldown_until : option Z)
    (invocations : list (Z * list value)) : list (Z * list value) :=
  match invocations with
  | [] => []
  | (t, args) :: rest =>
      if match cooldown_until with Some u => t <? u | None => false end
      then leading_calls limit cooldown_until rest
      else (t, args) :: leading_calls limit (Some (t + limit)) rest
  end.

(** The same with a call at the very end of a window: it runs if the event
    loop takes the timer first. *)
Fixpoint leading_calls_with (limit : Z) (timers_first : nat -> bool)
    (cooldown_until : option Z) (invocations : list (Z * list value))
  : list (Z * list value) :=
  match invocations with
  | [] => []
  | (t, args) :: rest =>
      if match cooldown_until with
         | Some u => (t <? u) || (negb (timers_first O) && (t =? u))
         | None => false
         end
      then leading_calls_with limit (fun i => timers_first (S i)) cooldown_until rest
      else (t, args)
             :: leading_calls_with limit (fun i => timers_first (S i))
                  (Some (t + limit)) rest
  end.

(** No call is made at the very time a cooldown window ends, that is
    [limit] after a call that ran. *)
Definition clear_of_cooldowns (limit : Z) (invocations : list (Z * list value)) : Prop :=
  Forall (fun run => Forall (fun call => call.1 <> run.1 + limit) invocations)
    (leading_calls limit None invocations).

(** What [leading_calls] assumes of the state of the throttled function:
    between two calls it is idle, or in the cooldown whose timer is
    pending. *)
Definition cooling (cooldown_until : option Z) (w : throttle_world) : Prop :=
  match cooldown_until with
  | None => inThrottle w = false /\ th_pending w = []
  | Some u => inThrottle w = true /\ th_pending w = [u]
  end.

(** *** debounce, for any spacing of the calls

    The runs of [func] up to [horizon] when the debounced function is called
    at [t] with [args] and then as [later_calls] say: a call runs [wait]
    after it was made, unless the next call comes before that. *)
Fixpoint trailing_calls (wait : Z) (t : Z) (args : list value)
    (later_calls : list (Z * list value)) (horizon : Z) : list (Z * list value) :=
  match later_calls with
  | [] => if t + wait <=? horizon then [(t + wait, args)] else []
  | (t', args') :: rest =>
      (if t + wait <=? t' then [(t + wait, args)] else [])
      ++ trailing_calls wait t' args' rest horizon
  end.

(** After a call at [t] with [args]: its timer is the only one pending, and
    [func] has run as [log] says. *)
Definition armed_after (wait t : Z) (args : list value) (log : list (Z * list value))
    (w : world) : Prop :=
  exists id,
    w = World t (S id) [Timer id (t + timer_delay wait) args] (Some id) log.

(** Calls more than [gap] apart. *)
Fixpoint apart (gap : Z) (t : Z) (later_calls : list (Z * list value)) : Prop :=
  match later_calls with
  | [] => True
  | (t', _) :: rest => t + gap < t' /\ apart gap t' rest
  end.

(** [call_all] runs the timers that are due before it makes a call.  For a
    call made at the very time the timer of the call before it is due, the
    code does not say which of the two the event loop takes first; [untied]
    leaves such calls out: no call comes exactly [gap] after the call
    before it. *)
Fixpoint untied (gap : Z) (t : Z) (later_calls : list (Z * list value)) : Prop :=
  match later_calls with
  | [] => True
  | (t', _) :: rest => t' <> t + gap /\ untied gap t' rest
  end.

(** ** What the views make of the helpers *)

(** [x === y]: primitives by value, built-in objects by identity. *)
Definition number_equal (x y : number) : bool :=
  match x, y with
  | Finite a, Finite b => a =? b
  | Infinity a, Infinity b => eqb a b
  | _, _ => false
  end.

Definition strict_equals (x y : value) : bool :=
  match x, y with
  | VUndefined, VUndefined => true
  | VNull, VNull => true
  | VBool a, VBool b => eqb a b
  | VNum a, VNum b => number_equal a b
  | VStr s, VStr t => bool_decide (s = t)
  | VBuiltin a, VBuiltin b => bool_decide (builtin_key a = builtin_key b)
  | _, _ => false
  end.

(** *** The list of components ([views/Components.vue]) *)

Definition description_key : jsstring := lit "description".
Definition type_key : jsstring := lit "type".
Definition status_key : jsstring := lit "status".

(** The reactive data the list is computed from. *)
Record components_view := ComponentsView {
  components : loc;
  searchQuery : jsstring;
  filterType : jsstring;
  filterStatus : jsstring
}.

(** [result.filter(c => c[key] === wanted)] *)
Definition filter_by_field (st : store) (result : loc) (key wanted : jsstring)
  : option (store * loc) :=
  match arrays st !! result with
  | Some items =>
      match array_filter
              (fun c => Some (strict_equals (get_field st c key) (VStr wanted))) items with
      | Some kept => Some (alloc_array st kept)
      | None => None
      end
  | None => None
  end.

Section FilteredComponents.

Context {engine : Engine}.
Variable toLowerCase : jsstring -> jsstring.

(** The computed property [filteredComponents]: a copy of the components,
    narrowed by each filter that is set. *)
Definition filteredComponents (st : store) (view : components_view)
  : option (store * loc) :=
  match arrays st !! components view with
  | Some items =>
      let (st1, result) := alloc_array st items in
      match (if str_falsy (searchQuery view) then Some (st1, result)
             else filterBySearch toLowerCase st1 result (searchQuery view)
                    [name_key; description_key; author_key]) with
      | Some (st2, result2) =>
          match (if str_falsy (filterType view) then Some (st2, result2)
                 else filter_by_field st2 result2 type_key (filterType view)) with
          | Some (st3, result3) =>
              if str_falsy (filterStatus view) then Some (st3, result3)
              else filter_by_field st3 result3 status_key (filterStatus view)
          | None => None
          end
      | None => None
      end
  | None => None
  end.

(** Whether a component passes every filter that is set. *)
Definition shown (st : store) (view : components_view) (c : loc) : bool :=
  (str_falsy (searchQuery view)
   || keeps toLowerCase st (toLowerCase (searchQuery view))
        [name_key; description_key; author_key] c)
  && (str_falsy (filterType view)
      || strict_equals (get_field st c type_key) (VStr (filterType view)))
  && (str_falsy (filterStatus view)
      || strict_equals (get_field st c status_key) (VStr (filterStatus view))).

End FilteredComponents.

(** The second store has the records of the first and its arrays, unchanged,
    and maybe more arrays. *)
Definition extends (st st' : store) : Prop :=
  objects st' = objects st
  /\ forall other, is_Some (arrays st !! other) -> arrays st' !! other = arrays st !! other.

(** *** The form ([components/aem/AemForm.vue]) *)

(** The configuration of one field, as far as validation reads it.  A
    custom [validate] function is taken as a function from the value to
    what it answers. *)
Record field := Field {
  field_name : jsstring;
  field_label : jsstring;
  field_required : bool;
  field_default : value;
  field_validation : option jsstring;
  field_minLength : option Z;
  field_maxLength : option Z;
  field_validate : option (value -> value)
}.

Record form := Form {
  formData : gmap jsstring value;
  errors : gmap jsstring value
}.

(** [formData[name]] *)
Definition form_value (data : gmap jsstring value) (name : jsstring) : value :=
  default VUndefined (data !! name).

(** [value.length]: the length of a string, the number of parameters of a
    function, and undefined on the other values. *)
Definition value_length (v : value) : option Z :=
  match v with
  | VStr s => Some (Z.of_nat (length s))
  | VBuiltin b => builtin_length b
  | _ => None
  end.

Section Validation.

Context {engine : Engine}.

(** [value?.toString()] *)
Definition optional_toString (v : value) : value :=
  match toString v with
  | Some s => VStr s
  | None => VUndefined
  end.

(** ToString, as [RegExp.prototype.test] applies it to its argument. *)
Definition ToString (v : value) : jsstring :=
  match v with
  | VUndefined => lit "undefined"
  | VNull => lit "null"
  | VBool true => lit "true"
  | VBool false => lit "false"
  | VNum n => Number_toString n
  | VStr s => s
  | VBuiltin b => builtin_text b
  end.

Definition required_message (label : jsstring) : jsstring :=
  label ++ lit " is required".

Definition email_message : jsstring := lit "Please enter a valid email address".

Definition min_message (label : jsstring) (n : Z) : jsstring :=
  label ++ lit " must be at least " ++ decimal n ++ lit " characters".

Definition max_message (label : jsstring) (n : Z) : jsstring :=
  label ++ lit " must be no more than " ++ decimal n ++ lit " characters".

(** [bound && value && value.length < bound] and its mirror: a bound that
    is missing or 0 is falsy, and no comparison with an undefined length
    holds. *)
Definition shorter_than (bound : option Z) (v : value) : bool :=
  match bound, value_length v with
  | Some n, Some len => negb (n =? 0) && truthy v && (len <? n)
  | _, _ => false
  end.

Definition longer_than (bound : option Z) (v : value) : bool :=
  match bound, value_length v with
  | Some n, Some len => negb (n =? 0) && truthy v && (n <? len)
  | _, _ => false
  end.

(** The rules of [validateField] after the first one. *)
Definition later_rules (f : field) (v : value) : value :=
  if bool_decide (field_validation f = Some (lit "email"))
     && truthy v && negb (isValidEmail (ToString v))
  then VStr email_message
  else if shorter_than (field_minLength f) v
  then VStr (min_message (field_label f)
               (match field_minLength f with Some n => n | None => 0 end))
  else if longer_than (field_maxLength f) v
  then VStr (max_message (field_label f)
               (match field_maxLength f with Some n => n | None => 0 end))
  else match field_validate f with
       | Some validate =>
           let answer := validate v in
           if truthy answer then answer else VStr []
       | None => VStr []
       end.

(** The [error] that [validateField] computes; [None] if [isNotEmpty]
    threw. *)
Definition field_error (f : field) (v : value) : option value :=
  if field_required f then
    match isNotEmpty (optional_toString v) with
    | Some filled =>
        if negb (truthy filled) then Some (VStr (required_message (field_label f)))
        else Some (later_rules f v)
    | None => None
    end
  else Some (later_rules f v).

(** [validateField(field)]: the error goes into [errors], the answer is
    [!error]. *)
Definition validateField (fm : form) (f : field) : option (form * bool) :=
  match field_error f (form_value (formData fm) (field_name f)) with
  | Some error =>
      Some (Form (formData fm) (<[field_name f := error]> (errors fm)),
            negb (truthy error))
  | None => None
  end.

(** [validateAll()]: every field is validated, also after one has failed. *)
Fixpoint validateAll_from (fields : list field) (fm : form) (isValid : bool)
  : option (form * bool) :=
  match fields with
  | [] => Some (fm, isValid)
  | f :: rest =>
      match validateField fm f with
      | Some (fm', ok) => validateAll_from rest fm' (if ok then isValid else false)
      | None => None
      end
  end.

Definition validateAll (fields : list field) (fm : form) : option (form * bool) :=
  validateAll_from fields fm true.

(** Whether [validateField] answers true for the field. *)
Definition field_passes (data : gmap jsstring value) (f : field) : bool :=
  match field_error f (form_value data (field_name f)) with
  | Some error => negb (truthy error)
  | None => false
  end.

End Validation.

(** [value !== undefined && value !== '' && value !== null] *)
Definition has_value (v : value) : bool :=
  negb (strict_equals v VUndefined) && negb (strict_equals v (VStr []))
  && negb (strict_equals v VNull).

(** The computed property [isValid], which enables the submit button. *)
Definition isValid (fields : list field) (fm : form) : bool :=
  if existsb truthy (map snd (map_to_list (errors fm))) then false
  else forallb (fun f => has_value (form_value (formData fm) (field_name f)))
         (List.filter field_required fields).



(** Nothing to show for a value: it is missing, or a string of
    whitespace. *)
Definition blank (v : value) : Prop :=
  v = VUndefined \/ v = VNull
  \/ exists s, v = VStr s /\ Forall (fun c => Char.is_space c = true) s.

(** *** The form of the pages view

    Its title and slug fields, and the step of [handleFormSubmit] that
    fills in a missing slug:
    [if (!formData.slug) formData.slug = slugify(formData.title)]. *)
Definition title_key : jsstring := lit "title".
Definition slug_key : jsstring := lit "slug".

Definition title_field : field :=
  Field title_key (lit "Page Title") true VUndefined None (Some 3) None None.

Definition slug_field : field :=
  Field slug_key (lit "URL Slug") true VUndefined None None None None.

Section FillSlug.

Variable toLowerCase : jsstring -> jsstring.

(** [None] is the TypeError of [slugify] on a title that is no string. *)
Definition fill_slug (data : gmap jsstring value) : option (gmap jsstring value) :=
  if truthy (form_value data slug_key) then Some data
  else
    match form_value data title_key with
    | VStr title => Some (<[slug_key := VStr (slugify toLowerCase title)]> data)
    | _ => None
    end.

End FillSlug.

(** A contact field, checked as an e-mail address when something is typed. *)
Definition contact_field : field :=
  Field (lit "contact") (lit "Contact") false VUndefined (Some (lit "email")) None None None.
Lemma single_hyphens_cons a b r :
  single_hyphens (a :: b :: r)
  = negb (Char.is_hyphen a && Char.is_hyphen b) && single_hyphens (b :: r).
Proof. reflexivity. Qed.

Section DropWhile.

Variable p : N -> bool.

Lemma drop_while_Forall (P : N -> Prop) s :
  Forall P s -> Forall P (drop_while p s).
Proof.
  induction 1 as [|c r Hc Hr IH]; simpl; [constructor|].
  destruct (p c); [exact IH | constructor; assumption].
Qed.

Lemma drop_while_head s c :
  head (drop_while p s) = Some c -> p c = false.
Proof.
  induction s as [|a r IH]; simpl; [discriminate|].
  destruct (p a) eqn:Ha; [exact IH|].
  simpl. intros [= <-]. exact Ha.
Qed.

Lemma drop_while_id s :
  (forall c, head s = Some c -> p c = false) -> drop_while p s = s.
Proof.
  destruct s as [|a r]; simpl; [reflexivity|].
  intros H. rewrite (H a eq_refl). reflexivity.
Qed.

Lemma drop_while_single s :
  single_hyphens s = true -> single_hyphens (drop_while p s) = true.
Proof.
  induction s as [|a r IH]; [reflexivity|].
  intros H. cbn [drop_while]. destruct (p a); [|exact H].
  apply IH. simpl in H. apply andb_true_iff in H. tauto.
Qed.

Lemma drop_while_end_Forall (P : N -> Prop) s :
  Forall P s -> Forall P (drop_while_end p s).
Proof.
  induction 1 as [|c r Hc Hr IH]; simpl; [constructor|].
  destruct (drop_while_end p r) as [|b r'].
  - destruct (p c); repeat constructor; assumption.
  - constructor; assumption.
Qed.

Lemma drop_while_end_last s c :
  last (drop_while_end p s) = Some c -> p c = false.
Proof.
  induction s as [|a r IH]; simpl; [discriminate|].
  destruct (drop_while_end p r) as [|b r'].
  - destruct (p a) eqn:Ha; simpl; [discriminate|].
    intros [= <-]. exact Ha.
  - exact IH.
Qed.

Lemma drop_while_end_id s :
  (forall c, last s = Some c -> p c = false) -> drop_while_end p s = s.
Proof.
  induction s as [|a r IH]; simpl; [reflexivity|].
  intros H. destruct r as [|b r'].
  - simpl. rewrite (H a eq_refl). reflexivity.
  - rewrite IH by exact H. reflexivity.
Qed.

Lemma drop_while_end_head s c :
  head (drop_while_end p s) = Some c -> head s = Some c.
Proof.
  destruct s as [|a r]; simpl; [discriminate|].
  destruct (drop_while_end p r); [destruct (p a)|]; simpl; congruence.
Qed.

Lemma drop_while_end_single s :
  single_hyphens s = true -> single_hyphens (drop_while_end p s) = true.
Proof.
  induction s as [|a r IH]; [reflexivity|].
  intros H. cbn [single_hyphens] in H. apply andb_true_iff in H.
  destruct H as [Ha Hr]. specialize (IH Hr).
  cbn [drop_while_end].
  destruct (drop_while_end p r) as [|b r'] eqn:E.
  - destruct (p a); reflexivity.
  - rewrite single_hyphens_cons, IH, andb_true_r.
    assert (Hb : head r = Some b)
      by (apply drop_while_end_head; rewrite E; reflexivity).
    destruct r as [|b0 r0]; [discriminate|].
    simpl in Hb. injection Hb as ->. exact Ha.
Qed.

End DropWhile.

Lemma hyphenate_from_chars b s :
  Forall (fun c => (Char.is_word c || Char.is_space c || Char.is_hyphen c = true)
                   /\ Char.is_upper c = false) s ->
  Forall (fun c => slug_char c = true) (hyphenate_from b s).
Proof.
  intros H. revert b. induction H as [|c r [Hk Hu] Hr IH]; intros b; simpl.
  - constructor.
  - destruct (is_separator c) eqn:Hs.
    + destruct b; [apply IH|]. constructor; [reflexivity | apply IH].
    + constructor; [|apply IH]. clear -Hk Hu Hs. char_solve.
Qed.

Lemma hyphenate_from_single b s :
  single_hyphens (hyphenate_from b s) = true /\
  (b = true -> head (hyphenate_from b s) <> Some Char.hyphen).
Proof.
  revert b. induction s as [|c r IH]; intros b; simpl.
  - split; [reflexivity | discriminate].
  - destruct (is_separator c) eqn:Hs.
    + destruct b.
      * apply IH.
      * destruct (IH true) as [H1 H2]. split; [|discriminate].
        cbn [single_hyphens]. rewrite H1, andb_true_r.
        destruct (hyphenate_from true r) as [|d r'] eqn:E; [reflexivity|].
        specialize (H2 eq_refl). simpl in H2.
        assert (d <> Char.hyphen) by congruence.
        clear -H. char_solve.
    + destruct (IH false) as [H1 _]. split.
      * cbn [single_hyphens]. rewrite H1, andb_true_r.
        assert (Char.is_hyphen c = false) by (clear -Hs; char_solve).
        rewrite H. destruct (hyphenate_from false r); reflexivity.
      * intros _. simpl. intros [= ->]. clear -Hs. char_solve.
Qed.

Lemma hyphenate_from_id b s :
  Forall (fun c => slug_char c = true) s ->
  single_hyphens s = true ->
  (b = true -> head s <> Some Char.hyphen) ->
  hyphenate_from b s = s.
Proof.
  intros H. revert b. induction H as [|c r Hc Hr IH]; intros b Hs Hb.
  - reflexivity.
  - cbn [single_hyphens] in Hs. apply andb_true_iff in Hs.
    destruct Hs as [Hcr Hs]. simpl.
    destruct (is_separator c) eqn:Hsep.
    + assert (c = Char.hyphen) as -> by (clear -Hc Hsep; char_solve).
      destruct b; [exfalso; apply Hb; reflexivity|].
      f_equal. apply IH; [exact Hs|]. intros _.
      destruct r as [|d r']; [discriminate|].
      simpl. intros [= ->]. discriminate Hcr.
    + f_equal. apply IH; [exact Hs | discriminate].
Qed.

Lemma remove_special_id s :
  Forall (fun c => slug_char c = true) s -> remove_special s = s.
Proof.
  induction 1 as [|c r Hc Hr IH]; [reflexivity|].
  unfold remove_special in *. simpl. rewrite IH.
  replace (Char.is_word c || Char.is_space c || Char.is_hyphen c) with true;
    [reflexivity|]. symmetry. clear -Hc. char_solve.
Qed.

Lemma trim_Forall (P : N -> Prop) s : Forall P s -> Forall P (trim s).
Proof.
  intros H. unfold trim.
  apply drop_while_end_Forall, drop_while_Forall, H.
Qed.

Lemma slug_shape_first s c :
  slug_shape s -> head s = Some c -> Char.is_space c = false /\ Char.is_hyphen c = false.
Proof.
  intros [Hc _ Hh _] E. destruct s as [|a r]; [discriminate|].
  simpl in *. injection E as ->. inversion_clear Hc as [|? ? Ha _].
  assert (c <> Char.hyphen) by congruence.
  clear -Ha H. char_solve.
Qed.

Lemma slug_shape_final s c :
  slug_shape s -> last s = Some c -> Char.is_space c = false /\ Char.is_hyphen c = false.
Proof.
  intros [Hc _ _ Hl] E.
  assert (Ha : slug_char c = true).
  { rewrite Forall_forall in Hc. apply Hc, last_Some_elem_of, E. }
  assert (c <> Char.hyphen) by congruence.
  clear -Ha H. char_solve.
Qed.

Section SlugifyShape.

Variable toLowerCase : jsstring -> jsstring.

(** Lower-casing leaves no ASCII capital behind. *)
Hypothesis toLowerCase_no_upper :
  forall s c, In c (toLowerCase s) -> Char.is_upper c = false.

(** Text made of ASCII lower-case letters, digits and hyphens is already
    in lower case. *)
Hypothesis toLowerCase_lower :
  forall s, Forall (fun c => slug_char c = true) s -> toLowerCase s = s.

Lemma slugify_shape str : slug_shape (slugify toLowerCase str).
Proof.
  unfold slugify, strip_hyphens, hyphenate.
  set (kept := remove_special (trim (toLowerCase str))).
  assert (Hk : Forall (fun c =>
            (Char.is_word c || Char.is_space c || Char.is_hyphen c = true)
            /\ Char.is_upper c = false) kept).
  { apply List.Forall_forall. intros c Hc. unfold kept, remove_special in Hc.
    apply filter_In in Hc. destruct Hc as [Hc Hw]. split; [exact Hw|].
    apply (toLowerCase_no_upper str).
    assert (F : Forall (fun c => In c (toLowerCase str)) (trim (toLowerCase str)))
      by (apply trim_Forall, List.Forall_forall; auto).
    rewrite List.Forall_forall in F. apply F, Hc. }
  destruct (hyphenate_from_single false kept) as [Hs _].
  split.
  - apply drop_while_end_Forall, drop_while_Forall, hyphenate_from_chars, Hk.
  - apply drop_while_end_single, drop_while_single, Hs.
  - intros E. apply drop_while_end_head, drop_while_head in E. discriminate E.
  - intros E. apply drop_while_end_last in E. discriminate E.
Qed.

Lemma slugify_fixes_slugs s : slug_shape s -> slugify toLowerCase s = s.
Proof.
  intros Hs. unfold slugify.
  rewrite toLowerCase_lower by apply Hs.
  assert (trim s = s) as ->.
  { unfold trim. rewrite drop_while_id.
    - apply drop_while_end_id. intros c E. apply (slug_shape_final s c Hs E).
    - intros c E. apply (slug_shape_first s c Hs E). }
  rewrite remove_special_id by apply Hs.
  unfold hyphenate. rewrite hyphenate_from_id;
    [| apply Hs | apply Hs | discriminate].
  unfold strip_hyphens. rewrite drop_while_id.
  - apply drop_while_end_id. intros c E. apply (slug_shape_final s c Hs E).
  - intros c E. apply (slug_shape_first s c Hs E).
Qed.

(** C2: [slugify] is idempotent: for every string [s],
    [slugify(slugify(s))] is [slugify(s)].  The engine's [toLowerCase]
    enters through the two facts assumed of it above. *)
Theorem slugify_idempotent s :
  slugify toLowerCase (slugify toLowerCase s) = slugify toLowerCase s.
Proof. apply slugify_fixes_slugs, slugify_shape. Qed.

End SlugifyShape.

Lemma ascii_toLowerCase_no_upper s c :
  In c (ascii_toLowerCase s) -> Char.is_upper c = false.
Proof.
  unfold ascii_toLowerCase. rewrite in_map_iff. intros (d & <- & _).
  destruct (Char.is_upper d) eqn:E; [|exact E]. clear -E. char_solve.
Qed.

Lemma ascii_toLowerCase_lower s :
  Forall (fun c => slug_char c = true) s -> ascii_toLowerCase s = s.
Proof.
  induction 1 as [|c r Hc Hr IH]; [reflexivity|].
  unfold ascii_toLowerCase in *. simpl. rewrite IH.
  replace (Char.is_upper c) with false; [reflexivity|].
  symmetry. clear -Hc. char_solve.
Qed.

Lemma slugify_idempotent_witness :
  slugify ascii_toLowerCase
    (slugify ascii_toLowerCase (lit "  Hello, World_Foo--Bar!  "))
  = lit "hello-world-foo-bar".
Proof.
  rewrite (slugify_idempotent ascii_toLowerCase
             ascii_toLowerCase_no_upper ascii_toLowerCase_lower).
  reflexivity.
Defined.

(** *** truncate *)

Lemma truncate_length str n suffix :
  (Z.of_nat (length suffix) <= n)%Z ->
  (Z.of_nat (length (truncate str n suffix)) <= n)%Z.
Proof.
  intros Hn. unfold truncate, substring0.
  destruct (str_falsy str) eqn:Hf; simpl.
  - destruct str; [simpl; lia | discriminate].
  - destruct (Z.leb_spec (Z.of_nat (length str)) n) as [Hle|Hgt]; [exact Hle|].
    rewrite length_app, length_take. lia.
Qed.

(** C5: for every string [s] and every length [n] that is at least the
    length of the default suffix, [truncate(s, n)] has at most [n]
    characters. *)
Theorem truncate_at_most_length s n :
  (Z.of_nat (length default_suffix) <= n)%Z ->
  (Z.of_nat (length (truncate s n default_suffix)) <= n)%Z.
Proof. apply truncate_length. Qed.

Lemma truncate_at_most_length_witness :
  (Z.of_nat (length (truncate (lit "abcdefgh") 5 default_suffix)) <= 5)%Z
  /\ truncate (lit "abcdefgh") 5 default_suffix = lit "ab...".
Proof.
  split; [apply truncate_at_most_length; vm_compute; discriminate | reflexivity].
Defined.

(** *** isNotEmpty *)

Lemma isNotEmpty_string s :
  exists r, isNotEmpty (VStr s) = Some r /\
    (truthy r = true <-> s <> [] /\ (0 < length (trim s))%nat).
Proof.
  destruct s as [|c s'].
  - exists (VStr []). split; [reflexivity|]. simpl. split; [discriminate|].
    intros [H _]. contradiction.
  - eexists. split; [reflexivity|]. simpl.
    rewrite Nat.ltb_lt. split; [intros H; split; [discriminate | exact H] | tauto].
Qed.

(** C7, at the empty string: [isNotEmpty("")] is the empty string itself,
    which is not a boolean. *)
Theorem isNotEmpty_empty_string :
  isNotEmpty (VStr []) = Some (VStr []) /\ is_boolean (VStr []) = false.
Proof. split; reflexivity. Qed.

(** *** timeAgo *)

Lemma first_interval_skip s pre units :
  (forall u secs, In (u, secs) pre -> s / secs < 1) ->
  first_interval (Some s) (pre ++ units) = first_interval (Some s) units.
Proof.
  induction pre as [|[u secs] pre IH]; intros H; [reflexivity|].
  simpl. destruct (Z.leb_spec 1 (s / secs)) as [Hge|_].
  - specialize (H u secs (or_introl eq_refl)). lia.
  - apply IH. intros u' secs' Hin. apply (H u' secs'). right. exact Hin.
Qed.

Lemma first_interval_none units : first_interval None units = lit "Just now".
Proof. induction units as [|[u secs] r IH]; [reflexivity | exact IH]. Qed.

Lemma intervals_under_a_minute s u secs :
  s < 60 -> In (u, secs) intervals -> s / secs < 1.
Proof.
  intros Hs Hin. unfold intervals in Hin. simpl in Hin.
  assert (60 <= secs) by (intuition (try congruence); match goal with
    | E : (_, _) = (_, _) |- _ => injection E as _ <-; lia end).
  apply Z.div_lt_upper_bound; lia.
Qed.

(** C6: [timeAgo] turns the elapsed whole seconds into the coarsest unit of
    the list year = 31536000 s, month = 2592000 s, week = 604800 s,
    day = 86400 s, hour = 3600 s, minute = 60 s whose quotient is at least 1
    and answers "<n> <unit>(s) ago" for it; when no unit has such a
    quotient, as for an elapsed time that is zero or negative and for a date
    that is not valid, it answers "Just now"; 3661 seconds ago is
    "1 hour ago". *)
Theorem timeAgo_coarsest_unit now d :
  let seconds := (now - d) / 1000 in
  let units :=
    [ (lit "year", 31536000); (lit "month", 2592000); (lit "week", 604800);
      (lit "day", 86400); (lit "hour", 3600); (lit "minute", 60) ] in
  (forall pre unit secs post,
      units = pre ++ (unit, secs) :: post ->
      (forall u s, In (u, s) pre -> seconds / s < 1) ->
      1 <= seconds / secs ->
      timeAgo now (Some d)
      = decimal (seconds / secs) ++ lit " " ++ unit
          ++ (if 1 <? seconds / secs then lit "s" else []) ++ lit " ago")
  /\ ((forall u s, In (u, s) units -> seconds / s < 1) ->
      timeAgo now (Some d) = lit "Just now")
  /\ (seconds <= 0 -> timeAgo now (Some d) = lit "Just now")
  /\ (seconds = 3661 -> timeAgo now (Some d) = lit "1 hour ago")
  /\ timeAgo now None = lit "Just now".
Proof.
  intros seconds units. unfold timeAgo. fold seconds.
  change intervals with units.
  assert (Hnone : (forall u s, In (u, s) units -> seconds / s < 1) ->
                  first_interval (Some seconds) units = lit "Just now").
  { intros H. rewrite <- (app_nil_r units).
    rewrite first_interval_skip by exact H. reflexivity. }
  split; [|split; [exact Hnone | split; [|split]]].
  - intros pre unit secs post E Hpre Hq. rewrite E.
    rewrite first_interval_skip by exact Hpre. simpl.
    destruct (Z.leb_spec 1 (seconds / secs)); [reflexivity | lia].
  - intros Hneg. apply Hnone. intros u s. apply intervals_under_a_minute. lia.
  - intros ->. reflexivity.
  - apply first_interval_none.
Qed.

Lemma timeAgo_coarsest_unit_witness :
  timeAgo 1700003661000 (Some 1700000000000) = lit "1 hour ago"
  /\ timeAgo 1700000000000 (Some 1700000005000) = lit "Just now"
  /\ timeAgo 1700000000000 (Some (1700000000000 - 3 * 86400 * 1000)) = lit "3 days ago"
  /\ timeAgo 1700000000000 (Some (1700000000000 - 120 * 1000)) = lit "2 minutes ago".
Proof.
  split; [|split; [|split]].
  - destruct (timeAgo_coarsest_unit 1700003661000 1700000000000)
      as (_ & _ & _ & H & _).
    apply H. reflexivity.
  - destruct (timeAgo_coarsest_unit 1700000000000 1700000005000)
      as (_ & _ & H & _).
    apply H. vm_compute. discriminate.
  - destruct (timeAgo_coarsest_unit 1700000000000 (1700000000000 - 3 * 86400 * 1000))
      as [H _].
    apply (H [(lit "year", 31536000); (lit "month", 2592000); (lit "week", 604800)]
             (lit "day") 86400 [(lit "hour", 3600); (lit "minute", 60)]).
    + reflexivity.
    + intros u s Hin. simpl in Hin.
      destruct Hin as [E|[E|[E|[]]]]; injection E as _ <-; reflexivity.
    + vm_compute. discriminate.
  - destruct (timeAgo_coarsest_unit 1700000000000 (1700000000000 - 120 * 1000))
      as [H _].
    apply (H [(lit "year", 31536000); (lit "month", 2592000); (lit "week", 604800);
              (lit "day", 86400); (lit "hour", 3600)]
             (lit "minute") 60 []).
    + reflexivity.
    + intros u s Hin. simpl in Hin.
      destruct Hin as [E|[E|[E|[E|[E|[]]]]]]; injection E as _ <-; reflexivity.
    + vm_compute. discriminate.
Defined.

(** *** The store *)

Lemma alloc_array_fresh st elems : arrays st !! (alloc_array st elems).2 = None.
Proof. simpl. apply not_elem_of_dom, is_fresh. Qed.

Lemma alloc_array_lookup st elems :
  arrays (alloc_array st elems).1 !! (alloc_array st elems).2 = Some elems.
Proof. simpl. apply lookup_insert_eq. Qed.

Lemma alloc_array_other st elems r :
  is_Some (arrays st !! r) ->
  arrays (alloc_array st elems).1 !! r = arrays st !! r.
Proof.
  intros [xs Hr]. simpl. apply lookup_insert_ne. intros E.
  pose proof (alloc_array_fresh st elems) as F. simpl in F.
  rewrite E in F. congruence.
Qed.

Lemma alloc_array_objects st elems : objects (alloc_array st elems).1 = objects st.
Proof. reflexivity. Qed.

(** *** includes *)

Lemma starts_with_spec t s : starts_with t s = true <-> exists post, s = t ++ post.
Proof.
  revert s. induction t as [|a t IH]; intros s; simpl.
  - split; [intros _; exists s; reflexivity | reflexivity].
  - destruct s as [|b s]; simpl.
    + split; [discriminate | intros [post E]; discriminate E].
    + rewrite andb_true_iff, N.eqb_eq, IH. split.
      * intros [-> [post ->]]. exists post. reflexivity.
      * intros [post E]. injection E as -> ->. split; [reflexivity | eauto].
Qed.

Lemma includes_spec s t : includes s t = true <-> substring_of t s.
Proof.
  unfold substring_of. induction s as [|c s IH].
  - simpl. rewrite orb_false_r, starts_with_spec. split.
    + intros [post E]. exists [], post. exact E.
    + intros (pre & post & E). destruct pre; [|discriminate E].
      exists post. exact E.
  - cbn [includes]. rewrite orb_true_iff, starts_with_spec, IH. split.
    + intros [[post E]|(pre & post & E)].
      * exists [], post. exact E.
      * exists (c :: pre), post. simpl. rewrite E. reflexivity.
    + intros (pre & post & E). destruct pre as [|c' pre]; simpl in E.
      * left. exists post. exact E.
      * right. injection E as -> ->. exists pre, post. reflexivity.
Qed.

(** *** filterBySearch *)

Lemma array_some_total {A} (f : A -> option bool) (g : A -> bool) l :
  (forall x, f x = Some (g x)) -> array_some f l = Some (existsb g l).
Proof.
  intros H. induction l as [|x r IH]; [reflexivity|].
  simpl. rewrite H. destruct (g x); [reflexivity | exact IH].
Qed.

Lemma array_filter_total {A} (f : A -> option bool) (g : A -> bool) l :
  (forall x, f x = Some (g x)) -> array_filter f l = Some (List.filter g l).
Proof.
  intros H. induction l as [|x r IH]; [reflexivity|].
  simpl. rewrite H, IH. reflexivity.
Qed.

Lemma filter_sublist {A} (g : A -> bool) l : sublist (List.filter g l) l.
Proof.
  induction l as [|x r IH]; simpl; [constructor|].
  destruct (g x); [apply sublist_skip | apply sublist_cons]; exact IH.
Qed.

Section FilterBySearchProofs.

Context {engine : Engine}.
Variable toLowerCase : jsstring -> jsstring.

(** The guard [value &&] never lets [toString] throw: the callback always
    yields a boolean. *)
Lemma key_matches_total st term item key :
  exists b, key_matches toLowerCase st term item key = Some b /\
    (b = true <->
     truthy (get_field st item key) = true /\
     exists str, toString (get_field st item key) = Some str
                 /\ substring_of term (toLowerCase str)).
Proof.
  unfold key_matches. destruct (truthy (get_field st item key)) eqn:T.
  - destruct (toString (get_field st item key)) as [str|] eqn:S.
    + eexists. split; [reflexivity|]. rewrite includes_spec. split.
      * intros H. split; [reflexivity | eauto].
      * intros [_ (str' & [= <-] & H)]. exact H.
    + destruct (get_field st item key) as [| |[]|n|s|b]; discriminate.
  - exists false. split; [reflexivity|].
    split; [discriminate | intros [H _]; discriminate H].
Qed.

Lemma keeps_spec st term keys item :
  keeps toLowerCase st term keys item = true <->
  exists key, In key keys /\ truthy (get_field st item key) = true
              /\ exists str, toString (get_field st item key) = Some str
                             /\ substring_of term (toLowerCase str).
Proof.
  unfold keeps. rewrite existsb_exists. split.
  - intros (key & Hin & Hb). exists key. split; [exact Hin|].
    destruct (key_matches_total st term item key) as (b & -> & Hspec) in Hb.
    apply Hspec, Hb.
  - intros (key & Hin & Hm). exists key. split; [exact Hin|].
    destruct (key_matches_total st term item key) as (b & -> & Hspec).
    apply Hspec, Hm.
Qed.

Lemma filterBySearch_result st array items term keys :
  term <> [] -> arrays st !! array = Some items ->
  filterBySearch toLowerCase st array term keys
  = Some (alloc_array st (List.filter (keeps toLowerCase st (toLowerCase term) keys) items)).
Proof.
  intros Ht Ha. unfold filterBySearch.
  destruct term as [|c term]; [contradiction|]. cbn [str_falsy].
  rewrite Ha.
  rewrite (array_filter_total _ (keeps toLowerCase st (toLowerCase (c :: term)) keys)).
  - reflexivity.
  - intros item. unfold keeps. apply array_some_total. intros key.
    destruct (key_matches_total st (toLowerCase (c :: term)) item key) as (b & -> & _).
    reflexivity.
Qed.

(** C3, amended: for a non-empty term, [filterBySearch] returns a new array
    holding, in their order, exactly the items for which some key in [keys]
    has a truthy field value whose string form, in lower case, contains the
    term in lower case. *)
Theorem filterBySearch_retains st array items term keys :
  term <> [] -> arrays st !! array = Some items ->
  exists st' r keep,
    filterBySearch toLowerCase st array term keys = Some (st', r)
    /\ arrays st !! r = None
    /\ arrays st' !! r = Some (List.filter keep items)
    /\ forall item,
         keep item = true <->
         exists key, In key keys
                     /\ truthy (get_field st item key) = true
                     /\ field_contains toLowerCase st term item key.
Proof.
  intros Ht Ha.
  exists (alloc_array st (List.filter (keeps toLowerCase st (toLowerCase term) keys) items)).1,
         (alloc_array st (List.filter (keeps toLowerCase st (toLowerCase term) keys) items)).2,
         (keeps toLowerCase st (toLowerCase term) keys).
  split; [|split; [|split]].
  - rewrite (filterBySearch_result st array items term keys Ht Ha).
    reflexivity.
  - apply alloc_array_fresh.
  - apply alloc_array_lookup.
  - intros item. apply keeps_spec.
Qed.

(** Of the values that have a string form, the falsy ones are 0, the empty
    string, [false] and NaN. *)
Lemma truthy_not_falsy v str :
  toString v = Some str -> (truthy v = true <-> ~ In v falsy_values).
Proof.
  unfold falsy_values. intros Hs.
  destruct v as [| |[]|[|neg|z]|s|b]; try discriminate Hs; simpl.
  - split; [intros _ H; intuition discriminate | reflexivity].
  - split; [discriminate | intros H; exfalso; apply H; tauto].
  - split; [discriminate | intros H; exfalso; apply H; tauto].
  - split; [intros _ H; intuition discriminate | reflexivity].
  - rewrite negb_true_iff, Z.eqb_neq. split.
    + intros Hz H. destruct H as [E|[E|[E|[E|[]]]]]; try discriminate E.
      injection E as E. symmetry in E. contradiction.
    + intros H E. subst z. apply H. tauto.
  - destruct s as [|c s]; simpl.
    + split; [discriminate | intros H; exfalso; apply H; tauto].
    + split; [intros _ H; intuition discriminate | reflexivity].
  - split; [intros _ H; intuition discriminate | reflexivity].
Qed.

(** C9: a key whose field value is present but falsy (0, the empty string,
    [false], NaN) contributes no match, whatever its string form contains:
    the items retained are exactly those that have a key whose value is
    none of these and whose string form contains the term, also when
    another key of the item holds such a value; an item whose searched keys
    all hold such values, as a field 0 searched for "0" on that key alone,
    is not retained. *)
Theorem filterBySearch_falsy_field st array items term keys :
  term <> [] -> arrays st !! array = Some items ->
  exists st' r kept,
    filterBySearch toLowerCase st array term keys = Some (st', r)
    /\ arrays st' !! r = Some kept
    /\ (forall item,
          In item kept <->
          In item items
          /\ exists key, In key keys
                         /\ ~ In (get_field st item key) falsy_values
                         /\ field_contains toLowerCase st term item key)
    /\ (forall item,
          (forall key, In key keys -> In (get_field st item key) falsy_values) ->
          ~ In item kept).
Proof.
  intros Ht Ha.
  assert (Hkept : forall item,
            In item (List.filter (keeps toLowerCase st (toLowerCase term) keys) items) <->
            In item items
            /\ exists key, In key keys
                           /\ ~ In (get_field st item key) falsy_values
                           /\ field_contains toLowerCase st term item key).
  { intros item. rewrite filter_In, keeps_spec. unfold field_contains. split.
    - intros [Hin (key & Hk & Htrue & str & Hs & Hsub)]. split; [exact Hin|].
      exists key. split; [exact Hk|]. split; [|eauto].
      apply (truthy_not_falsy _ str Hs), Htrue.
    - intros [Hin (key & Hk & Hnot & str & Hs & Hsub)]. split; [exact Hin|].
      exists key. split; [exact Hk|]. split; [|eauto].
      apply (truthy_not_falsy _ str Hs), Hnot. }
  eexists _, _, _.
  split; [apply (filterBySearch_result st array items term keys Ht Ha)|].
  split; [apply alloc_array_lookup|]. split; [exact Hkept|].
  intros item Hfalsy Hin. apply Hkept in Hin.
  destruct Hin as [_ (key & Hk & Hnot & _)]. apply Hnot, Hfalsy, Hk.
Qed.

End FilterBySearchProofs.

Section FilterBySearchExamples.

#[local] Existing Instance integers.

Lemma filterBySearch_retains_witness :
  (exists st' r,
     filterBySearch ascii_toLowerCase dashboard_store components_array (lit "BAN")
       [name_key; author_key] = Some (st', r)
     /\ arrays st' !! r = Some [banner_item])
  /\ (exists st' r,
        filterBySearch ascii_toLowerCase dashboard_store components_array
          (lit "Function") [lit "constructor"] = Some (st', r)
        /\ arrays st' !! r = Some [banner_item; zero_item]).
Proof.
  split.
  - destruct (filterBySearch_retains ascii_toLowerCase dashboard_store components_array
                [banner_item; zero_item] (lit "BAN") [name_key; author_key])
      as (st' & r & keep & Hrun & _ & Hr & _); [discriminate | reflexivity |].
    exists st', r. split; [exact Hrun|].
    vm_compute in Hrun. injection Hrun as <- <-. reflexivity.
  - destruct (filterBySearch_retains ascii_toLowerCase dashboard_store components_array
                [banner_item; zero_item] (lit "Function") [lit "constructor"])
      as (st' & r & keep & Hrun & _ & Hr & _); [discriminate | reflexivity |].
    exists st', r. split; [exact Hrun|].
    vm_compute in Hrun. injection Hrun as <- <-. reflexivity.
Defined.

(** C3 as stated fails on a field that holds 0: its string form contains the
    term "0", and the item is not retained. *)
Lemma filterBySearch_drops_zero :
  exists st' r kept,
    filterBySearch ascii_toLowerCase dashboard_store components_array (lit "0")
      [count_key] = Some (st', r)
    /\ arrays st' !! r = Some kept
    /\ ~ retains_by_string_form ascii_toLowerCase dashboard_store (lit "0")
          [count_key] [banner_item; zero_item] kept.
Proof.
  eexists _, _, []. split; [vm_compute; reflexivity | split; [reflexivity|]].
  intros H. apply (H zero_item). split.
  - right. left. reflexivity.
  - exists count_key. split; [left; reflexivity|].
    exists (lit "0"). split; [reflexivity|]. exists [], []. reflexivity.
Qed.

Lemma filterBySearch_falsy_field_witness :
  exists st' r,
    filterBySearch ascii_toLowerCase dashboard_store components_array (lit "0")
      [name_key; count_key] = Some (st', r)
    /\ arrays st' !! r = Some [].
Proof.
  destruct (filterBySearch_falsy_field ascii_toLowerCase dashboard_store
              components_array [banner_item; zero_item] (lit "0") [name_key; count_key])
    as (st' & r & kept & Hrun & Hr & Hkept & _); [discriminate | reflexivity |].
  exists st', r. split; [exact Hrun|]. rewrite Hr. f_equal.
  destruct kept as [|item kept]; [reflexivity | exfalso].
  destruct (proj1 (Hkept item) (or_introl eq_refl))
    as [Hin (key & Hk & Hnot & str & Hs & Hsub)].
  apply includes_spec in Hsub.
  destruct Hin as [<-|[<-|[]]]; destruct Hk as [<-|[<-|[]]];
    vm_compute in Hs; injection Hs as <-;
    solve [discriminate Hsub | apply Hnot; vm_compute; tauto].
Defined.

End FilterBySearchExamples.

(** *** Array.prototype.sort rearranges *)

Section ArraySortPermutation.

Context {A : Type}.
Variable comparefn : A -> A -> Z.

Lemma insert_pivot_Permutation sorted pivot :
  Permutation (insert_pivot comparefn sorted pivot) (pivot :: sorted).
Proof.
  unfold insert_pivot.
  set (i := binary_search comparefn _ _ _ _ _).
  rewrite <- (take_drop i sorted) at 3.
  symmetry. apply Permutation_middle.
Qed.

Lemma binary_insertion_sort_Permutation rest run :
  Permutation (binary_insertion_sort comparefn run rest) (run ++ rest).
Proof.
  unfold binary_insertion_sort. revert run.
  induction rest as [|x rest IH]; intros run; simpl.
  - rewrite app_nil_r. reflexivity.
  - rewrite IH, insert_pivot_Permutation. apply Permutation_middle.
Qed.

Lemma count_and_make_run_Permutation l :
  Permutation ((count_and_make_run comparefn l).1 ++ (count_and_make_run comparefn l).2) l.
Proof.
  unfold count_and_make_run.
  destruct l as [|a [|b r]]; try (simpl; rewrite ?app_nil_r; reflexivity).
  cbv zeta. destruct (comparefn b a <? 0); cbn [fst snd].
  - rewrite <- Permutation_rev, take_drop. reflexivity.
  - rewrite take_drop. reflexivity.
Qed.

Lemma array_sort_Permutation l : Permutation (array_sort comparefn l) l.
Proof.
  unfold array_sort.
  pose proof (count_and_make_run_Permutation l) as H.
  destruct (count_and_make_run comparefn l) as [run rest]. simpl in H.
  rewrite binary_insertion_sort_Permutation. exact H.
Qed.

End ArraySortPermutation.

Section SortByKeyFrame.

Variable IsLessThan : value -> value -> bool.

Lemma sortByKey_result st array items key order :
  arrays st !! array = Some items ->
  sortByKey IsLessThan st array key order
  = Some (Store (objects st)
            (<[(alloc_array st items).2 :=
                 array_sort (compare_by_key IsLessThan st key order) items]>
               (arrays (alloc_array st items).1)),
          (alloc_array st items).2).
Proof. intros Ha. unfold sortByKey. rewrite Ha. reflexivity. Qed.

(** C10: the array [sortByKey] returns is a permutation of its input: the
    same items with the same multiplicities, and no record is changed. *)
Theorem sortByKey_permutation st array items key order :
  arrays st !! array = Some items ->
  exists st' r sorted,
    sortByKey IsLessThan st array key order = Some (st', r)
    /\ arrays st' !! r = Some sorted
    /\ Permutation items sorted
    /\ objects st' = objects st.
Proof.
  intros Ha. eexists _, _, _.
  split; [apply (sortByKey_result st array items key order Ha)|].
  split; [apply lookup_insert_eq|].
  split; [symmetry; apply array_sort_Permutation | reflexivity].
Qed.

(** C8: [sortByKey] returns a new array and leaves its input as it was: the
    input array, like every array there was before the call, holds the same
    items in the same order afterwards. *)
Theorem sortByKey_leaves_input st array items key order :
  arrays st !! array = Some items ->
  exists st' r,
    sortByKey IsLessThan st array key order = Some (st', r)
    /\ arrays st !! r = None
    /\ r <> array
    /\ arrays st' !! array = Some items
    /\ forall other, is_Some (arrays st !! other) ->
         arrays st' !! other = arrays st !! other.
Proof.
  intros Ha. eexists _, _.
  split; [apply (sortByKey_result st array items key order Ha)|].
  pose proof (alloc_array_fresh st items) as Hfresh.
  assert (Hother : forall other, is_Some (arrays st !! other) ->
            (<[(alloc_array st items).2 :=
                 array_sort (compare_by_key IsLessThan st key order) items]>
               (arrays (alloc_array st items).1)) !! other = arrays st !! other).
  { intros other [xs Ho].
    assert ((alloc_array st items).2 <> other) by congruence.
    rewrite lookup_insert_ne by assumption.
    apply alloc_array_other. eauto. }
  split; [exact Hfresh|]. split; [congruence|]. split.
  - cbn [arrays]. rewrite Hother by eauto. exact Ha.
  - intros other Ho. cbn [arrays]. apply Hother, Ho.
Qed.

End SortByKeyFrame.

Lemma sortByKey_permutation_witness :
  exists st' r sorted,
    sortByKey (js_lt unused_StringToNumber)
      (counted_store [Some 3; Some 1; Some 2])
      (counted_array [Some 3; Some 1; Some 2]) count_key asc = Some (st', r)
    /\ arrays st' !! r = Some sorted
    /\ Permutation [1; 2; 3]%positive sorted
    /\ sorted = [2; 3; 1]%positive.
Proof.
  destruct (sortByKey_permutation (js_lt unused_StringToNumber)
              (counted_store [Some 3; Some 1; Some 2])
              (counted_array [Some 3; Some 1; Some 2])
              [1; 2; 3]%positive count_key asc eq_refl)
    as (st' & r & sorted & Hrun & Hr & Hperm & _).
  exists st', r, sorted. split; [exact Hrun|]. split; [exact Hr|].
  split; [exact Hperm|].
  vm_compute in Hrun. injection Hrun as <- <-.
  vm_compute in Hr. injection Hr as <-. reflexivity.
Defined.

Lemma sortByKey_leaves_input_witness :
  exists st' r,
    sortByKey (js_lt unused_StringToNumber)
      (counted_store [Some 3; Some 1; Some 2])
      (counted_array [Some 3; Some 1; Some 2]) count_key asc = Some (st', r)
    /\ r <> counted_array [Some 3; Some 1; Some 2]
    /\ arrays st' !! counted_array [Some 3; Some 1; Some 2] = Some [1; 2; 3]%positive.
Proof.
  destruct (sortByKey_leaves_input (js_lt unused_StringToNumber)
              (counted_store [Some 3; Some 1; Some 2])
              (counted_array [Some 3; Some 1; Some 2])
              [1; 2; 3]%positive count_key asc eq_refl)
    as (st' & r & Hrun & _ & Hne & Hin & _).
  exists st', r. split; [exact Hrun|]. split; [exact Hne | exact Hin].
Defined.

(** *** Sorting with a consistent comparator *)

Lemma StronglySorted_lookup_lt {A} (R : A -> A -> Prop) l i j a b :
  StronglySorted R l -> (i < j)%nat -> l !! i = Some a -> l !! j = Some b -> R a b.
Proof.
  intros Hs. revert i j. induction Hs as [|x l Hs IH Hx]; intros i j Hij Hi Hj.
  - discriminate Hi.
  - destruct j as [|j]; [lia|]. simpl in Hj. destruct i as [|i].
    + injection Hi as ->. rewrite Forall_lookup in Hx. apply (Hx j b Hj).
    + simpl in Hi. apply (IH i j); [lia | assumption | assumption].
Qed.

Lemma half_lt n : (0 < n)%nat -> (n / 2 < n)%nat.
Proof. intros H. apply Nat.div_lt; lia. Qed.

Section ConsistentSort.

Context {A : Type}.
Variable comparefn : A -> A -> Z.
Variable S : A -> Prop.
Hypothesis consistent : consistent_on comparefn S.

Lemma not_before_not_after a b :
  S a -> S b -> 0 <= comparefn a b -> not_after comparefn b a.
Proof.
  intros Ha Hb H. unfold not_after.
  pose proof (consistent_sign _ _ consistent a b Ha Hb). lia.
Qed.

Lemma before_not_after a b :
  S a -> S b -> comparefn a b < 0 -> not_after comparefn a b.
Proof. unfold not_after. lia. Qed.

Lemma before_then_not_after a b c :
  S a -> S b -> S c ->
  comparefn a b < 0 -> not_after comparefn b c -> comparefn a c < 0.
Proof.
  unfold not_after. intros Ha Hb Hc Hab Hbc.
  pose proof (consistent_trans _ _ consistent a b c Ha Hb Hc).
  pose proof (consistent_trans _ _ consistent b c a Hb Hc Ha).
  pose proof (consistent_sign _ _ consistent a c Ha Hc).
  pose proof (consistent_sign _ _ consistent a b Ha Hb).
  lia.
Qed.

Lemma not_after_then_not_before p m e :
  S p -> S m -> S e ->
  0 <= comparefn p m -> not_after comparefn e m -> 0 <= comparefn p e.
Proof.
  unfold not_after. intros Hp Hm He Hpm Hem.
  pose proof (consistent_trans _ _ consistent e m p He Hm Hp).
  pose proof (consistent_sign _ _ consistent p m Hp Hm).
  pose proof (consistent_sign _ _ consistent p e Hp He).
  lia.
Qed.

Lemma same_rank_not_before a x e :
  S a -> S x -> S e ->
  comparefn a x = 0 -> comparefn a e = 0 -> comparefn x e < 0 -> False.
Proof.
  intros Ha Hx He Hax Hae Hxe.
  pose proof (consistent_sign _ _ consistent a x Ha Hx).
  pose proof (consistent_sign _ _ consistent x a Hx Ha).
  pose proof (consistent_sign _ _ consistent a e Ha He).
  pose proof (consistent_sign _ _ consistent e a He Ha).
  pose proof (consistent_sign _ _ consistent x e Hx He).
  pose proof (consistent_trans _ _ consistent e a x He Ha Hx).
  lia.
Qed.

Lemma same_rank_refl a : S a -> same_rank comparefn a a = true.
Proof.
  intros Ha. unfold same_rank. apply Z.eqb_eq.
  pose proof (consistent_sign _ _ consistent a a Ha Ha). lia.
Qed.

(** The search ends at the place of the pivot: what stands before is not
    after the pivot, what stands from there on is after it. *)
Lemma binary_search_spec pivot sorted :
  S pivot -> Forall S sorted -> StronglySorted (not_after comparefn) sorted ->
  forall steps left right,
    (right - left <= steps)%nat -> (left <= right <= length sorted)%nat ->
    (forall i e, (i < left)%nat -> sorted !! i = Some e -> 0 <= comparefn pivot e) ->
    (forall i e, (right <= i)%nat -> sorted !! i = Some e -> comparefn pivot e < 0) ->
    let r := binary_search comparefn steps pivot sorted left right in
    (r <= length sorted)%nat
    /\ (forall i e, (i < r)%nat -> sorted !! i = Some e -> 0 <= comparefn pivot e)
    /\ (forall i e, (r <= i)%nat -> sorted !! i = Some e -> comparefn pivot e < 0).
Proof.
  intros Hp HS Hsorted. rewrite Forall_lookup in HS.
  induction steps as [|steps IH]; intros left right Hfuel Hb Hlow Hhigh;
    cbn [binary_search]; cbv zeta.
  - assert (left = right) as -> by lia. split; [lia | split; assumption].
  - destruct (Nat.ltb_spec left right) as [Hlt|Hge].
    2:{ assert (left = right) as -> by lia. split; [lia | split; assumption]. }
    pose proof (half_lt (right - left) ltac:(lia)) as Hhalf.
    set (mid := (left + (right - left) / 2)%nat) in *.
    destruct (sorted !! mid) as [m|] eqn:Hm.
    2:{ apply lookup_ge_None in Hm. lia. }
    pose proof (HS mid m Hm) as HSm.
    destruct (Z.ltb_spec (comparefn pivot m) 0) as [Hpm|Hpm].
    + apply IH; [lia | lia | exact Hlow |].
      intros i e Hi He. destruct (decide (i = mid)) as [->|Hne].
      * rewrite Hm in He. injection He as <-. exact Hpm.
      * apply (before_then_not_after pivot m e); eauto.
        apply (StronglySorted_lookup_lt _ sorted mid i); [assumption | lia | assumption | assumption].
    + apply IH; [lia | lia | | exact Hhigh].
      intros i e Hi He. destruct (decide (i = mid)) as [->|Hne].
      * rewrite Hm in He. injection He as <-. exact Hpm.
      * apply (not_after_then_not_before pivot m e); eauto.
        apply (StronglySorted_lookup_lt _ sorted i mid); [assumption | lia | assumption | assumption].
Qed.

Lemma insert_pivot_place sorted pivot :
  S pivot -> Forall S sorted -> StronglySorted (not_after comparefn) sorted ->
  exists r,
    insert_pivot comparefn sorted pivot = take r sorted ++ pivot :: drop r sorted
    /\ Forall (fun e => not_after comparefn e pivot) (take r sorted)
    /\ Forall (fun e => comparefn pivot e < 0) (drop r sorted).
Proof.
  intros Hp HS Hsorted.
  destruct (binary_search_spec pivot sorted Hp HS Hsorted (length sorted) 0 (length sorted))
    as (Hr & Hlow & Hhigh); [lia | lia | intros; lia | |].
  { intros i e Hi He. apply lookup_lt_Some in He. lia. }
  exists (binary_search comparefn (length sorted) pivot sorted 0 (length sorted)).
  split; [reflexivity|]. rewrite Forall_lookup in HS. split.
  - apply Forall_lookup. intros i e He.
    destruct (decide (i < binary_search comparefn (length sorted) pivot sorted 0 (length sorted))%nat)
      as [Hi|Hi].
    + rewrite lookup_take_lt in He by exact Hi.
      apply not_before_not_after; eauto.
    + rewrite lookup_take_ge in He by lia. discriminate He.
  - apply Forall_lookup. intros i e He. rewrite lookup_drop in He.
    apply (Hhigh _ e) in He; [exact He | lia].
Qed.

Lemma insert_pivot_sorted sorted pivot :
  S pivot -> Forall S sorted -> StronglySorted (not_after comparefn) sorted ->
  StronglySorted (not_after comparefn) (insert_pivot comparefn sorted pivot).
Proof.
  intros Hp HS Hsorted.
  destruct (insert_pivot_place sorted pivot Hp HS Hsorted) as (r & -> & Hlow & Hhigh).
  rewrite <- (take_drop r sorted) in Hsorted.
  apply StronglySorted_app in Hsorted. destruct Hsorted as (Hcross & Htake & Hdrop).
  rewrite Forall_forall in Hlow, Hhigh.
  apply StronglySorted_app. split; [|split; [exact Htake|]].
  - intros x1 x2 H1 H2. apply elem_of_cons in H2. destruct H2 as [->|H2].
    + apply Hlow, H1.
    + apply Hcross; assumption.
  - constructor; [exact Hdrop|]. apply Forall_forall. intros e He.
    unfold not_after. specialize (Hhigh e He). lia.
Qed.

Lemma filter_nil_if {B} (f : B -> bool) l :
  Forall (fun x => f x = false) l -> List.filter f l = [].
Proof.
  induction 1 as [|x l Hx Hl IH]; [reflexivity|]. simpl. rewrite Hx. exact IH.
Qed.

(** The pivot goes after the elements of its rank. *)
Lemma insert_pivot_filter sorted pivot a :
  S a -> S pivot -> Forall S sorted -> StronglySorted (not_after comparefn) sorted ->
  List.filter (same_rank comparefn a) (insert_pivot comparefn sorted pivot)
  = List.filter (same_rank comparefn a) (sorted ++ [pivot]).
Proof.
  intros Ha Hp HS Hsorted.
  destruct (insert_pivot_place sorted pivot Hp HS Hsorted) as (r & -> & Hlow & Hhigh).
  rewrite <- (take_drop r sorted) at 3.
  rewrite !List.filter_app. cbn [List.filter].
  destruct (same_rank comparefn a pivot) eqn:Hrank.
  - assert (Hnone : List.filter (same_rank comparefn a) (drop r sorted) = []).
    { apply filter_nil_if. rewrite Forall_forall in Hhigh. apply Forall_forall.
      intros e He. destruct (same_rank comparefn a e) eqn:Hre; [|reflexivity].
      exfalso. unfold same_rank in *. apply Z.eqb_eq in Hrank, Hre.
      apply (same_rank_not_before a pivot e); auto.
      rewrite Forall_forall in HS. apply HS.
      apply (proj1 (elem_of_subseteq _ _) (subseteq_drop r sorted)), He. }
    rewrite Hnone, app_nil_r. reflexivity.
  - rewrite app_nil_r. reflexivity.
Qed.

Lemma binary_insertion_sort_stable rest a :
  S a -> Forall S rest ->
  forall run, Forall S run -> StronglySorted (not_after comparefn) run ->
  List.filter (same_rank comparefn a) (binary_insertion_sort comparefn run rest)
  = List.filter (same_rank comparefn a) (run ++ rest).
Proof.
  intros Ha Hrest. unfold binary_insertion_sort.
  induction Hrest as [|x rest Hx Hrest IH]; intros run Hrun Hsorted; simpl.
  - rewrite app_nil_r. reflexivity.
  - rewrite IH.
    + rewrite !List.filter_app, insert_pivot_filter by assumption.
      rewrite List.filter_app, <- List.app_assoc.
      change (x :: rest) with ([x] ++ rest). rewrite List.filter_app. reflexivity.
    + rewrite (insert_pivot_Permutation comparefn run x). constructor; assumption.
    + apply insert_pivot_sorted; assumption.
Qed.

End ConsistentSort.

(** *** Relative order *)

Lemma before_split {A} (a b : A) l :
  before a b l <-> exists l1 l2 l3, l = l1 ++ a :: l2 ++ b :: l3.
Proof.
  split.
  - intros (i & j & Hij & Hi & Hj).
    exists (take i l), (take (j - S i) (drop (S i) l)),
           (drop (S (j - S i)) (drop (S i) l)).
    assert (Hj' : drop (S i) l !! (j - S i)%nat = Some b).
    { rewrite lookup_drop. replace (S i + (j - S i))%nat with j by lia.
      exact Hj. }
    rewrite (take_drop_middle _ _ _ Hj'). symmetry. apply take_drop_middle, Hi.
  - intros (l1 & l2 & l3 & ->).
    exists (length l1), (length l1 + S (length l2))%nat.
    split; [lia|]. split.
    + apply list_lookup_middle. reflexivity.
    + rewrite lookup_app_r by lia.
      replace (length l1 + S (length l2) - length l1)%nat
        with (S (length l2)) by lia.
      simpl. apply list_lookup_middle. reflexivity.
Qed.

Lemma before_filter {A} (f : A -> bool) a b l :
  f a = true -> f b = true -> before a b l -> before a b (List.filter f l).
Proof.
  intros Ha Hb. rewrite !before_split. intros (l1 & l2 & l3 & ->).
  exists (List.filter f l1), (List.filter f l2), (List.filter f l3).
  rewrite List.filter_app. cbn [List.filter]. rewrite Ha.
  rewrite List.filter_app. cbn [List.filter]. rewrite Hb. reflexivity.
Qed.

Lemma before_sublist {A} (a b : A) l k :
  sublist l k -> before a b l -> before a b k.
Proof.
  intros Hsub. rewrite !before_split. intros (l1 & l2 & l3 & ->).
  apply sublist_app_l in Hsub. destruct Hsub as (k1 & k2 & -> & _ & Hsub).
  apply sublist_cons_l in Hsub. destruct Hsub as (k3 & k4 & -> & Hsub).
  apply sublist_app_l in Hsub. destruct Hsub as (k5 & k6 & -> & _ & Hsub).
  apply sublist_cons_l in Hsub. destruct Hsub as (k7 & k8 & -> & _).
  exists (k1 ++ k3), (k5 ++ k7), k8.
  rewrite <- !List.app_assoc. simpl. rewrite <- ?List.app_assoc. reflexivity.
Qed.

Lemma before_In {A} (a b : A) l : before a b l -> In a l /\ In b l.
Proof.
  intros (i & j & _ & Hi & Hj).
  split; apply list_elem_of_In, list_elem_of_lookup; eauto.
Qed.

(** *** The leading run *)

Section ConsistentRun.

Context {A : Type}.
Variable comparefn : A -> A -> Z.
Variable S : A -> Prop.
Hypothesis consistent : consistent_on comparefn S.

Lemma run_length_ascending r :
  Forall S r -> forall prev, S prev ->
  StronglySorted (not_after comparefn)
    (prev :: take (run_length comparefn false prev r) r).
Proof.
  induction 1 as [|x r Hx Hr IH]; intros prev Hp; cbn [run_length]; cbv zeta.
  - repeat constructor.
  - destruct (Z.leb_spec 0 (comparefn x prev)) as [Hge|Hlt].
    2:{ repeat constructor. }
    cbn [take]. specialize (IH x Hx).
    assert (Hpx : not_after comparefn prev x)
      by (apply (not_before_not_after comparefn S consistent); assumption).
    constructor; [exact IH|]. constructor; [exact Hpx|].
    apply StronglySorted_inv in IH. destruct IH as [_ Hall].
    pose proof (Forall_take S (run_length comparefn false x r) r Hr) as HSt.
    rewrite Forall_forall in Hall, HSt. apply Forall_forall. intros e He.
    apply (consistent_trans _ _ consistent prev x e); auto.
    apply Hall, He.
Qed.

Lemma run_length_descending r :
  Forall S r -> forall prev, S prev ->
  StronglySorted (strictly_after comparefn)
    (prev :: take (run_length comparefn true prev r) r).
Proof.
  induction 1 as [|x r Hx Hr IH]; intros prev Hp; cbn [run_length]; cbv zeta.
  - repeat constructor.
  - destruct (Z.ltb_spec (comparefn x prev) 0) as [Hlt|Hge].
    2:{ repeat constructor. }
    cbn [take]. specialize (IH x Hx).
    constructor; [exact IH|]. constructor; [exact Hlt|].
    apply StronglySorted_inv in IH. destruct IH as [_ Hall].
    pose proof (Forall_take S (run_length comparefn true x r) r Hr) as HSt.
    rewrite Forall_forall in Hall, HSt. apply Forall_forall. intros e He.
    unfold strictly_after in *.
    apply (before_then_not_after comparefn S consistent e x prev); auto.
    unfold not_after. lia.
Qed.

Lemma descending_rev_sorted c :
  StronglySorted (strictly_after comparefn) c ->
  StronglySorted (not_after comparefn) (rev c).
Proof.
  induction 1 as [|x c Hc IH Hx]; simpl; [constructor|].
  apply StronglySorted_app. split; [|split; [exact IH | repeat constructor]].
  intros x1 x2 H1 H2. apply list_elem_of_singleton in H2. subst x2.
  apply list_elem_of_In, in_rev, list_elem_of_In in H1.
  rewrite Forall_forall in Hx. specialize (Hx x1 H1).
  unfold strictly_after, not_after in *. lia.
Qed.

(** A strictly descending run has at most one element of each rank. *)
Lemma descending_filter_short c a :
  S a -> Forall S c -> StronglySorted (strictly_after comparefn) c ->
  (length (List.filter (same_rank comparefn a) c) <= 1)%nat.
Proof.
  intros Ha HS Hc. induction Hc as [|x c Hc IH Hx]; simpl; [lia|].
  apply Forall_cons in HS. destruct HS as [HSx HSc]. specialize (IH HSc).
  destruct (same_rank comparefn a x) eqn:Hrank; [|exact IH].
  rewrite filter_nil_if; [simpl; lia|].
  rewrite Forall_forall in Hx, HSc. apply Forall_forall. intros e He.
  destruct (same_rank comparefn a e) eqn:Hre; [|reflexivity].
  exfalso. unfold same_rank in *. apply Z.eqb_eq in Hrank, Hre.
  apply (same_rank_not_before comparefn S consistent a e x); auto.
  apply Hx, He.
Qed.

Lemma descending_filter_rev c a :
  S a -> Forall S c -> StronglySorted (strictly_after comparefn) c ->
  List.filter (same_rank comparefn a) (rev c) = List.filter (same_rank comparefn a) c.
Proof.
  intros Ha HS Hc. rewrite List.filter_rev.
  pose proof (descending_filter_short c a Ha HS Hc) as Hlen.
  destruct (List.filter (same_rank comparefn a) c) as [|x [|y t]];
    [reflexivity | reflexivity | simpl in Hlen; lia].
Qed.

Lemma count_and_make_run_cons a b r :
  count_and_make_run comparefn (a :: b :: r)
  = let descending := comparefn b a <? 0 in
    let n := run_length comparefn descending a (b :: r) in
    ((if descending then rev (a :: take n (b :: r)) else a :: take n (b :: r)),
     drop n (b :: r)).
Proof.
  unfold count_and_make_run. cbv zeta. cbn [run_length]. cbv zeta.
  destruct (Z.ltb_spec (comparefn b a) 0) as [Hlt|Hge].
  - reflexivity.
  - destruct (Z.leb_spec 0 (comparefn b a)); [reflexivity | lia].
Qed.

Lemma count_and_make_run_stable l :
  Forall S l ->
  Forall S (count_and_make_run comparefn l).1
  /\ Forall S (count_and_make_run comparefn l).2
  /\ StronglySorted (not_after comparefn) (count_and_make_run comparefn l).1
  /\ forall a, S a ->
       List.filter (same_rank comparefn a)
         ((count_and_make_run comparefn l).1 ++ (count_and_make_run comparefn l).2)
       = List.filter (same_rank comparefn a) l.
Proof.
  intros HS. destruct l as [|a [|b r]].
  - simpl. repeat split; try constructor. 
  - simpl. repeat split; try assumption; repeat constructor.
  - rewrite count_and_make_run_cons. cbv zeta.
    apply Forall_cons in HS. destruct HS as [Ha Hr].
    set (n := run_length comparefn _ a (b :: r)).
    assert (Htake : Forall S (a :: take n (b :: r)))
      by (constructor; [exact Ha | apply Forall_take, Hr]).
    assert (Hdrop : Forall S (drop n (b :: r))) by apply Forall_drop, Hr.
    destruct (comparefn b a <? 0) eqn:Hd; cbn [fst snd].
    + pose proof (run_length_descending (b :: r) Hr a Ha) as Hrun. fold n in Hrun.
      split; [apply List.Forall_rev, Htake|]. split; [exact Hdrop|].
      split; [apply descending_rev_sorted, Hrun|].
      intros x Hx. rewrite List.filter_app, descending_filter_rev by assumption.
      rewrite <- List.filter_app. simpl. rewrite take_drop. reflexivity.
    + pose proof (run_length_ascending (b :: r) Hr a Ha) as Hrun. fold n in Hrun.
      split; [exact Htake|]. split; [exact Hdrop|]. split; [exact Hrun|].
      intros x Hx. simpl. rewrite take_drop. reflexivity.
Qed.

(** With a consistent comparator the elements of one rank keep their
    order. *)
Lemma array_sort_stable l a :
  Forall S l -> S a ->
  List.filter (same_rank comparefn a) (array_sort comparefn l)
  = List.filter (same_rank comparefn a) l.
Proof.
  intros HS Ha. unfold array_sort.
  destruct (count_and_make_run_stable l HS) as (Hrun & Hrest & Hsorted & Hfilter).
  destruct (count_and_make_run comparefn l) as [run rest]. simpl in *.
  rewrite (binary_insertion_sort_stable comparefn S consistent rest a Ha Hrest run Hrun Hsorted).
  apply Hfilter, Ha.
Qed.

Lemma array_sort_keeps_order l a b :
  Forall S l -> comparefn a b = 0 ->
  before a b l -> before a b (array_sort comparefn l).
Proof.
  intros HS Hab Hbefore.
  destruct (before_In a b l Hbefore) as [Hina Hinb].
  rewrite List.Forall_forall in HS.
  assert (Ha : S a) by auto.
  apply (before_sublist a b (List.filter (same_rank comparefn a) (array_sort comparefn l)));
    [apply filter_sublist|].
  rewrite array_sort_stable by (try apply List.Forall_forall; assumption).
  apply before_filter; [| | exact Hbefore].
  - apply (same_rank_refl comparefn S consistent a Ha).
  - unfold same_rank. apply Z.eqb_eq, Hab.
Qed.

End ConsistentRun.

(** *** sortByKey is stable on comparable values *)

Lemma string_lt_irrefl s : string_lt s s = false.
Proof.
  induction s as [|c s IH]; [reflexivity|].
  simpl. rewrite N.ltb_irrefl, N.eqb_refl, IH. reflexivity.
Qed.

Lemma string_lt_trans s : forall t u,
  string_lt s t = true -> string_lt t u = true -> string_lt s u = true.
Proof.
  induction s as [|a s IH]; intros [|b t] [|c u]; simpl; try discriminate; auto.
  rewrite !orb_true_iff, !andb_true_iff, !N.ltb_lt, !N.eqb_eq.
  intros [Hab|[Hab Hst]] [Hbc|[Hbc Htu]].
  - left. lia.
  - left. lia.
  - left. lia.
  - right. split; [lia | apply (IH t u); assumption].
Qed.

Lemma string_lt_total s : forall t,
  string_lt s t = true \/ s = t \/ string_lt t s = true.
Proof.
  induction s as [|a s IH]; intros [|b t]; simpl; auto.
  rewrite !orb_true_iff, !andb_true_iff, !N.ltb_lt, !N.eqb_eq.
  destruct (N.lt_total a b) as [Hlt|[->|Hgt]]; [auto | | auto].
  destruct (IH t) as [H|[->|H]]; auto.
Qed.

(** Strings are pairwise comparable. *)
Lemma strings_comparable StringToNumber (V : value -> Prop) :
  (forall v, V v -> exists s, v = VStr s) ->
  comparable_values (js_lt StringToNumber) V.
Proof.
  intros HV. split.
  - intros a Ha. destruct (HV a Ha) as [s ->]. apply string_lt_irrefl.
  - intros a b c Ha Hb Hc.
    destruct (HV a Ha) as [s ->], (HV b Hb) as [t ->], (HV c Hc) as [u ->].
    apply string_lt_trans.
  - intros a b c Ha Hb Hc.
    destruct (HV a Ha) as [s ->], (HV b Hb) as [t ->], (HV c Hc) as [u ->].
    simpl. intros Hsu. destruct (string_lt_total s t) as [H|[->|H]]; auto.
    right. apply (string_lt_trans t s u); assumption.
Qed.

(** Numbers other than NaN are pairwise comparable. *)
Lemma numbers_comparable StringToNumber (V : value -> Prop) :
  (forall v, V v -> exists n, v = VNum n /\ n <> NaN) ->
  comparable_values (js_lt StringToNumber) V.
Proof.
  intros HV. split.
  - intros a Ha. destruct (HV a Ha) as (x & -> & Hx).
    destruct x as [|[]|x]; simpl; try reflexivity; try contradiction.
    apply Z.ltb_irrefl.
  - intros a b c Ha Hb Hc.
    destruct (HV a Ha) as (x & -> & Hx), (HV b Hb) as (y & -> & Hy),
             (HV c Hc) as (z & -> & Hz).
    destruct x as [|[]|x], y as [|[]|y], z as [|[]|z]; cbn;
      rewrite ?Z.ltb_lt; try contradiction; try discriminate; auto; lia.
  - intros a b c Ha Hb Hc.
    destruct (HV a Ha) as (x & -> & Hx), (HV b Hb) as (y & -> & Hy),
             (HV c Hc) as (z & -> & Hz).
    destruct x as [|[]|x], y as [|[]|y], z as [|[]|z]; cbn;
      rewrite ?Z.ltb_lt; try contradiction; try discriminate; auto; lia.
Qed.

Section SortByKeyStable.

Variable IsLessThan : value -> value -> bool.

Lemma compare_by_key_zero st key order a b :
  IsLessThan (get_field st a key) (get_field st b key) = false ->
  IsLessThan (get_field st b key) (get_field st a key) = false ->
  compare_by_key IsLessThan st key order a b = 0.
Proof. intros Hab Hba. unfold compare_by_key. rewrite Hab, Hba. reflexivity. Qed.

Lemma compare_by_key_consistent st key order items :
  comparable_values IsLessThan (key_values st key items) ->
  consistent_on (compare_by_key IsLessThan st key order) (fun item => In item items).
Proof.
  intros [Hirr Htrans Hbetween].
  assert (HV : forall item, In item items -> key_values st key items (get_field st item key))
    by (intros item Hin; exists item; split; [exact Hin | reflexivity]).
  assert (Hasym : forall a b, In a items -> In b items ->
            IsLessThan (get_field st a key) (get_field st b key) = true ->
            IsLessThan (get_field st b key) (get_field st a key) = true -> False).
  { intros a b Ha Hb Hab Hba.
    pose proof (Htrans _ _ _ (HV a Ha) (HV b Hb) (HV a Ha) Hab Hba) as H.
    rewrite (Hirr _ (HV a Ha)) in H. discriminate H. }
  split.
  - intros a b Ha Hb. unfold compare_by_key.
    pose proof (Hasym a b Ha Hb) as Has.
    destruct (IsLessThan (get_field st a key) (get_field st b key)),
             (IsLessThan (get_field st b key) (get_field st a key)),
             (bool_decide (order = asc));
      try (exfalso; apply Has; reflexivity); lia.
  - intros a b c Ha Hb Hc. unfold compare_by_key.
    pose proof (Hasym a b Ha Hb) as Hab.
    pose proof (Hasym b c Hb Hc) as Hbc.
    pose proof (Hasym a c Ha Hc) as Hac.
    pose proof (Hbetween _ _ _ (HV a Ha) (HV b Hb) (HV c Hc)) as Hn1.
    pose proof (Hbetween _ _ _ (HV c Hc) (HV b Hb) (HV a Ha)) as Hn2.
    destruct (IsLessThan (get_field st a key) (get_field st b key)),
             (IsLessThan (get_field st b key) (get_field st a key)),
             (IsLessThan (get_field st b key) (get_field st c key)),
             (IsLessThan (get_field st c key) (get_field st b key)),
             (IsLessThan (get_field st a key) (get_field st c key)),
             (IsLessThan (get_field st c key) (get_field st a key)),
             (bool_decide (order = asc));
      try (exfalso; apply Hab; reflexivity);
      try (exfalso; apply Hbc; reflexivity);
      try (exfalso; apply Hac; reflexivity);
      try lia;
      try (destruct (Hn1 eq_refl); discriminate);
      try (destruct (Hn2 eq_refl); discriminate).
Qed.

(** C4, amended: when the values the items have at [key] are pairwise
    comparable ([<] is a strict weak order on them, as on numbers other
    than NaN or on strings), [sortByKey] is stable: two items whose values
    at [key] are equal stand in the output in the order they have in the
    input. *)
Theorem sortByKey_stable st array items key order :
  arrays st !! array = Some items ->
  comparable_values IsLessThan (key_values st key items) ->
  exists st' r sorted,
    sortByKey IsLessThan st array key order = Some (st', r)
    /\ arrays st' !! r = Some sorted
    /\ keeps_equal_in_order IsLessThan st key items sorted.
Proof.
  intros Ha Hcmp. eexists _, _, _.
  split; [apply (sortByKey_result IsLessThan st array items key order Ha)|].
  split; [apply lookup_insert_eq|].
  intros a b Hab Hba Hbefore.
  apply (array_sort_keeps_order _ (fun item => In item items)).
  - apply compare_by_key_consistent, Hcmp.
  - apply List.Forall_forall. auto.
  - apply compare_by_key_zero; assumption.
  - exact Hbefore.
Qed.

End SortByKeyStable.

Lemma sortByKey_stable_witness :
  exists st' r sorted,
    sortByKey (js_lt unused_StringToNumber)
      (counted_store [Some 2; Some 1; Some 2; Some 1])
      (counted_array [Some 2; Some 1; Some 2; Some 1]) count_key asc = Some (st', r)
    /\ arrays st' !! r = Some sorted
    /\ before 1%positive 3%positive sorted
    /\ before 2%positive 4%positive sorted.
Proof.
  destruct (sortByKey_stable (js_lt unused_StringToNumber)
              (counted_store [Some 2; Some 1; Some 2; Some 1])
              (counted_array [Some 2; Some 1; Some 2; Some 1])
              [1; 2; 3; 4]%positive count_key asc)
    as (st' & r & sorted & Hrun & Hr & Hstable).
  - reflexivity.
  - apply numbers_comparable. intros v (item & Hin & <-).
    simpl in Hin. destruct Hin as [<-|[<-|[<-|[<-|[]]]]]; vm_compute;
      (eexists; split; [reflexivity | discriminate]).
  - exists st', r, sorted. split; [exact Hrun|]. split; [exact Hr|]. split.
    + apply Hstable; [reflexivity | reflexivity |].
      exists 0%nat, 2%nat. split; [lia | split; reflexivity].
    + apply Hstable; [reflexivity | reflexivity |].
      exists 1%nat, 3%nat. split; [lia | split; reflexivity].
Defined.

(** C4 as stated fails when a record has no value at the key: [undefined]
    is neither less nor greater than 0, the record without a count stands
    before the one with count 0 in the input and after it in the output. *)
Lemma sortByKey_reorders_incomparable :
  exists st' r sorted,
    sortByKey (js_lt unused_StringToNumber)
      (counted_store [Some 1; Some 2; Some 3; None; Some 4; Some 0])
      (counted_array [Some 1; Some 2; Some 3; None; Some 4; Some 0]) count_key asc
    = Some (st', r)
    /\ arrays st' !! r = Some sorted
    /\ ~ keeps_equal_in_order (js_lt unused_StringToNumber)
          (counted_store [Some 1; Some 2; Some 3; None; Some 4; Some 0])
          count_key [1; 2; 3; 4; 5; 6]%positive sorted.
Proof.
  exists (Store (counted_records 1%positive [Some 1; Some 2; Some 3; None; Some 4; Some 0])
            (<[8%positive := [6; 1; 2; 3; 4; 5]%positive]>
               (<[8%positive := [1; 2; 3; 4; 5; 6]%positive]>
                  (<[7%positive := [1; 2; 3; 4; 5; 6]%positive]> ∅)))),
         8%positive, [6; 1; 2; 3; 4; 5]%positive.
  split; [vm_compute; reflexivity|]. split; [reflexivity|].
  intros Hclaim.
  destruct (Hclaim 4%positive 6%positive) as (i & j & Hij & Hi & Hj).
  - reflexivity.
  - reflexivity.
  - exists 3%nat, 5%nat. split; [lia | split; reflexivity].
  - destruct i as [|[|[|[|[|[|i]]]]]]; cbn in Hi; try discriminate Hi.
    destruct j as [|[|[|[|[|[|j]]]]]]; cbn in Hj; try discriminate Hj. lia.
Qed.
(** *** Timers *)

Lemma timer_delay_small delay :
  delay <= TIMEOUT_MAX -> timer_delay delay = Z.max 1 delay.
Proof.
  intros H. unfold timer_delay.
  destruct (Z.leb_spec 1 delay), (Z.leb_spec delay TIMEOUT_MAX); simpl; lia.
Qed.

Lemma timer_delay_kept delay :
  1 <= delay <= TIMEOUT_MAX -> timer_delay delay = delay.
Proof. intros H. rewrite timer_delay_small; lia. Qed.

Lemma timer_delay_positive delay : 1 <= timer_delay delay.
Proof.
  unfold timer_delay.
  destruct (Z.leb_spec 1 delay), (Z.leb_spec delay TIMEOUT_MAX); simpl; lia.
Qed.

(** *** debounce *)

Section Debounce.

Variable wait : Z.

Lemma first_call_arms start t args :
  start <= t ->
  armed wait t args (debounce wait args (advance t (initial start))).
Proof.
  intros Hs. exists 0%nat. unfold debounce, executedFunction, advance, initial. simpl.
  rewrite (Z.max_r start t) by lia. reflexivity.
Qed.

(** A call before the pending timer is due replaces it. *)
Lemma next_call_rearms t args t' args' w :
  armed wait t args w -> t <= t' < t + timer_delay wait ->
  armed wait t' args' (debounce wait args' (advance t' w)).
Proof.
  intros [id ->] Ht. exists (S id).
  unfold debounce, executedFunction, advance. simpl.
  destruct (Z.leb_spec (t + timer_delay wait) t') as [Hle|_]; [lia|]. simpl.
  rewrite Nat.eqb_refl. simpl.
  rewrite (Z.max_r t t') by lia. reflexivity.
Qed.

Lemma last_cons {B} (rest : list B) :
  forall c d, List.last (c :: rest) d = List.last rest c.
Proof.
  induction rest as [|c' rest IH]; intros c d; [reflexivity|].
  change (List.last (c :: c' :: rest) d) with (List.last (c' :: rest) d).
  rewrite (IH c' d), (IH c' c). reflexivity.
Qed.

Lemma final_call_cons t args c rest :
  final_call t args (c :: rest) = final_call c.1 c.2 rest.
Proof. unfold final_call. destruct c as [t' args']. apply last_cons. Qed.

Lemma call_all_armed later_calls :
  wait <= TIMEOUT_MAX ->
  forall t args w,
    armed wait t args w -> within_wait wait t later_calls ->
    armed wait (final_call t args later_calls).1 (final_call t args later_calls).2
      (call_all wait later_calls w).
Proof.
  intros Hwait.
  induction later_calls as [|[t' args'] rest IH]; intros t args w Hw Hwithin.
  - exact Hw.
  - destruct Hwithin as [Ht Hrest]. cbn [call_all].
    rewrite final_call_cons. cbn [fst snd].
    apply IH; [|exact Hrest]. apply (next_call_rearms t args); [assumption|].
    rewrite (timer_delay_small wait Hwait). lia.
Qed.

Lemma armed_waits t args w T :
  armed wait t args w -> t <= T < t + timer_delay wait ->
  calls (advance T w) = [] /\ length (pending (advance T w)) = 1%nat.
Proof.
  intros [id ->] HT. unfold advance. simpl.
  destruct (Z.leb_spec (t + timer_delay wait) T) as [Hle|_]; [lia|]. split; reflexivity.
Qed.

Lemma armed_fires t args w T :
  armed wait t args w -> t + timer_delay wait <= T ->
  calls (advance T w) = [(t + timer_delay wait, args)] /\ pending (advance T w) = [].
Proof.
  intros [id ->] HT. pose proof (timer_delay_positive wait) as Hpos.
  unfold advance. simpl.
  destruct (Z.leb_spec (t + timer_delay wait) T) as [_|Hgt]; [|lia]. simpl.
  rewrite Nat.eqb_refl. simpl.
  rewrite (Z.max_r t (t + timer_delay wait)) by lia. split; reflexivity.
Qed.

(** C1, amended: for a [wait] of at most 2^31 - 1 milliseconds, the longest
    delay a timer keeps, when the debounced function is called one or more
    times, each call less than [wait] after the one before it, and not
    again, [func] runs exactly once: not while [wait] has not yet passed
    since the last call, then once, with the arguments of the last call,
    and no timer is left to run it again.  (A [wait] below 1 counts as 1,
    as [setTimeout] takes it.) *)
Theorem debounce_runs_last_call_once start t0 args0 later_calls :
  wait <= TIMEOUT_MAX ->
  start <= t0 ->
  within_wait wait t0 later_calls ->
  let w := call_all wait ((t0, args0) :: later_calls) (initial start) in
  let last_time := (final_call t0 args0 later_calls).1 in
  let last_args := (final_call t0 args0 later_calls).2 in
  forall T,
    (last_time <= T < last_time + Z.max 1 wait -> calls (advance T w) = [])
    /\ (last_time + Z.max 1 wait <= T ->
        calls (advance T w) = [(last_time + Z.max 1 wait, last_args)]
        /\ pending (advance T w) = []).
Proof.
  intros Hwait Hs Hwithin w last_time last_args T.
  assert (Hw : armed wait last_time last_args w).
  { unfold w. cbn [call_all].
    apply call_all_armed; [exact Hwait | | exact Hwithin]. apply first_call_arms, Hs. }
  rewrite <- (timer_delay_small wait Hwait). split.
  - intros HT. apply (armed_waits last_time last_args w T Hw HT).
  - intros HT. apply (armed_fires last_time last_args w T Hw HT).
Qed.

End Debounce.

Lemma debounce_runs_last_call_once_witness :
  calls (advance 1000
           (call_all 300
              [(0, [VStr (lit "a")]); (50, [VStr (lit "ae")]); (100, [VStr (lit "aem")])]
              (initial 0)))
  = [(400, [VStr (lit "aem")])]
  /\ calls (advance 399
              (call_all 300
                 [(0, [VStr (lit "a")]); (50, [VStr (lit "ae")]); (100, [VStr (lit "aem")])]
                 (initial 0)))
     = [].
Proof.
  pose proof (debounce_runs_last_call_once 300 0 0 [VStr (lit "a")]
                [(50, [VStr (lit "ae")]); (100, [VStr (lit "aem")])]
                ltac:(vm_compute; discriminate) ltac:(lia) ltac:(simpl; lia)) as H.
  split.
  - apply (H 1000). simpl. lia.
  - apply (H 399). simpl. lia.
Defined.

(** C1 as stated fails for a [wait] that no timer keeps: [setTimeout] turns
    2^31 milliseconds into 1, so of three calls 50 ms apart, each less than
    [wait] after the one before it, every one runs [func], 1 ms after it
    was made. *)
Lemma debounce_runs_every_call :
  within_wait (2 ^ 31) 0 [(50, [VStr (lit "ae")]); (100, [VStr (lit "aem")])]
  /\ calls (advance 200
              (call_all (2 ^ 31)
                 [(0, [VStr (lit "a")]); (50, [VStr (lit "ae")]); (100, [VStr (lit "aem")])]
                 (initial 0)))
     = [(1, [VStr (lit "a")]); (51, [VStr (lit "ae")]); (101, [VStr (lit "aem")])].
Proof.
  split; [|reflexivity]. simpl. change (2 ^ 31) with 2147483648. lia.
Qed.

(** ** More about the string helpers *)

Lemma single_hyphens_no_double s :
  single_hyphens s = true -> ~ substring_of [Char.hyphen; Char.hyphen] s.
Proof.
  intros Hs (pre & post & ->). induction pre as [|c pre IH].
  - simpl in Hs. discriminate Hs.
  - apply IH. cbn [app single_hyphens] in Hs. apply andb_true_iff in Hs. apply Hs.
Qed.

(** X1: whatever [toLowerCase] leaves no ASCII capital behind, a slug holds
    only lower-case ASCII letters, digits and hyphens, no two hyphens in a
    row, and no hyphen at either end. *)
Theorem slugify_url_friendly (toLowerCase : jsstring -> jsstring) :
  (forall s c, In c (toLowerCase s) -> Char.is_upper c = false) ->
  forall s,
    Forall (fun c => Char.is_lower c || Char.is_digit c || (c =? Char.hyphen)%N = true)
      (slugify toLowerCase s)
    /\ ~ substring_of [Char.hyphen; Char.hyphen] (slugify toLowerCase s)
    /\ head (slugify toLowerCase s) <> Some Char.hyphen
    /\ last (slugify toLowerCase s) <> Some Char.hyphen.
Proof.
  intros Hlow s. destruct (slugify_shape toLowerCase Hlow s) as [Hc Hs Hh Hl].
  split; [exact Hc|]. split; [apply single_hyphens_no_double, Hs|]. split; assumption.
Qed.

Lemma slugify_url_friendly_witness :
  slugify ascii_toLowerCase (lit "__AEM: Teaser & Hero (v2)__") = lit "aem-teaser-hero-v2"
  /\ ~ substring_of [Char.hyphen; Char.hyphen]
         (slugify ascii_toLowerCase (lit "__AEM: Teaser & Hero (v2)__")).
Proof.
  split; [reflexivity|].
  apply (slugify_url_friendly ascii_toLowerCase ascii_toLowerCase_no_upper).
Defined.

Lemma drop_while_nil_iff p s : drop_while p s = [] <-> Forall (fun c => p c = true) s.
Proof.
  induction s as [|c s IH]; simpl.
  - split; [constructor | reflexivity].
  - destruct (p c) eqn:E.
    + rewrite IH. split; [intros H; constructor; assumption | intros H; inversion H; assumption].
    + split; [discriminate | intros H; inversion H; congruence].
Qed.

Lemma drop_while_end_nil_iff p s :
  drop_while_end p s = [] <-> Forall (fun c => p c = true) s.
Proof.
  induction s as [|c s IH]; simpl.
  - split; [constructor | reflexivity].
  - destruct (drop_while_end p s) as [|d r] eqn:E.
    + destruct (p c) eqn:Ec.
      * split; [intros _; constructor; [exact Ec | apply IH; reflexivity] | reflexivity].
      * split; [discriminate | intros H; inversion H; congruence].
    + split; [discriminate|]. intros H. inversion H as [|? ? _ Hs]. subst.
      apply IH in Hs. discriminate Hs.
Qed.

Lemma drop_while_Forall_iff p (Q : N -> Prop) s :
  (forall c, p c = true -> Q c) ->
  Forall Q (drop_while p s) <-> Forall Q s.
Proof.
  intros Hp. induction s as [|c s IH]; simpl; [tauto|].
  destruct (p c) eqn:E; [|tauto].
  rewrite IH. split; [intros H; constructor; auto | intros H; inversion H; assumption].
Qed.

Lemma drop_while_end_Forall_iff p (Q : N -> Prop) s :
  (forall c, p c = true -> Q c) ->
  Forall Q (drop_while_end p s) <-> Forall Q s.
Proof.
  intros Hp. induction s as [|c s IH]; simpl; [tauto|].
  destruct (drop_while_end p s) as [|d r] eqn:E.
  - destruct (p c) eqn:Ec.
    + split; [|intros _; constructor]. intros _. constructor; [auto | apply IH; constructor].
    + split; intros H; inversion H; subst; constructor; auto; try constructor.
      apply IH. constructor.
  - split; intros H; inversion H; subst; constructor; auto; apply IH; assumption.
Qed.

Lemma hyphenate_from_all_hyphens b s :
  Forall (fun c => Char.is_hyphen c = true) (hyphenate_from b s)
  <-> Forall (fun c => is_separator c = true) s.
Proof.
  revert b. induction s as [|c s IH]; intros b; simpl.
  - split; constructor.
  - destruct (is_separator c) eqn:E.
    + destruct b.
      * rewrite IH. split; [intros H; constructor; assumption | intros H; inversion H; assumption].
      * rewrite Forall_cons, IH, Forall_cons. split; [intros [_ H]; auto | intros [_ H]; auto].
    + rewrite !Forall_cons. split; [|intros [H _]; congruence].
      intros [H _]. exfalso. clear -H E. char_solve.
Qed.

Lemma remove_special_separators s :
  Forall (fun c => is_separator c = true) (remove_special s)
  <-> Forall (fun c => is_alnum c = false) s.
Proof.
  unfold remove_special. induction s as [|c s IH]; simpl.
  - split; constructor.
  - destruct (Char.is_word c || Char.is_space c || Char.is_hyphen c) eqn:E.
    + rewrite !Forall_cons, IH.
      assert (is_separator c = true <-> is_alnum c = false)
        by (clear -E; unfold is_alnum; char_solve).
      tauto.
    + rewrite Forall_cons, IH.
      assert (is_alnum c = false) by (clear -E; unfold is_alnum; char_solve).
      tauto.
Qed.

(** X2: [slugify] answers the empty string exactly when the lower-cased
    input holds no ASCII letter and no digit, as for a title in another
    script or one made of punctuation. *)
Theorem slugify_empty_iff (toLowerCase : jsstring -> jsstring) s :
  slugify toLowerCase s = []
  <-> Forall (fun c => is_alnum c = false) (toLowerCase s).
Proof.
  unfold slugify, strip_hyphens, hyphenate, trim.
  rewrite drop_while_end_nil_iff.
  rewrite (drop_while_Forall_iff Char.is_hyphen) by auto.
  rewrite hyphenate_from_all_hyphens, remove_special_separators.
  rewrite drop_while_end_Forall_iff, drop_while_Forall_iff; [reflexivity | |];
    intros c Hc; unfold is_alnum; clear -Hc; char_solve.
Qed.

(** *** truncate *)

(** X3: a string longer than [length] is cut to exactly [length] characters
    when the suffix fits: the first [length - suffix.length] characters of the
    string, then the suffix. *)
Theorem truncate_cuts_to_length str n suffix :
  (Z.of_nat (length suffix) <= n < Z.of_nat (length str))%Z ->
  Z.of_nat (length (truncate str n suffix)) = n
  /\ exists kept, truncate str n suffix = kept ++ suffix /\ kept `prefix_of` str.
Proof.
  intros Hn. unfold truncate, substring0.
  destruct str as [|c str']; [simpl in Hn; lia|]. cbn [str_falsy orb].
  destruct (Z.leb_spec (Z.of_nat (length (c :: str'))) n) as [Hle|Hgt]; [lia|].
  split.
  - rewrite length_app, length_take. lia.
  - eexists. split; [reflexivity|]. apply prefix_take.
Qed.

Lemma truncate_cuts_to_length_witness :
  truncate (lit "Hero Banner component") 11 default_suffix = lit "Hero Ban..."
  /\ Z.of_nat (length (truncate (lit "Hero Banner component") 11 default_suffix)) = 11%Z.
Proof.
  split; [reflexivity|].
  apply (truncate_cuts_to_length (lit "Hero Banner component") 11 default_suffix).
  vm_compute. split; [discriminate | reflexivity].
Defined.

Lemma truncate_below_suffix str n suffix :
  (n < Z.of_nat (length suffix))%Z -> (n < Z.of_nat (length str))%Z -> str <> [] ->
  truncate str n suffix = suffix.
Proof.
  intros Hn Hs Hne. unfold truncate, substring0.
  destruct str as [|c str']; [contradiction|]. cbn [str_falsy orb].
  destruct (Z.leb_spec (Z.of_nat (length (c :: str'))) n) as [Hle|Hgt]; [lia|].
  replace (Z.to_nat (n - Z.of_nat (length suffix))) with O by lia. reflexivity.
Qed.

(** X4: when [length] is below the length of the suffix, negative lengths
    included, a longer string is replaced by the bare suffix, which is
    longer than [length]. *)
Theorem truncate_short_length str n suffix :
  (n < Z.of_nat (length suffix))%Z -> (n < Z.of_nat (length str))%Z -> str <> [] ->
  truncate str n suffix = suffix
  /\ (n < Z.of_nat (length (truncate str n suffix)))%Z.
Proof.
  intros Hn Hs Hne. rewrite (truncate_below_suffix str n suffix Hn Hs Hne).
  split; [reflexivity | exact Hn].
Qed.

Lemma truncate_short_length_witness :
  truncate (lit "Hero Banner") 2 default_suffix = lit "..."
  /\ truncate (lit "Hero Banner") (-4) default_suffix = lit "...".
Proof.
  split.
  - apply (truncate_short_length (lit "Hero Banner") 2 default_suffix);
      [vm_compute; reflexivity | vm_compute; reflexivity | discriminate].
  - apply (truncate_short_length (lit "Hero Banner") (-4) default_suffix);
      [vm_compute; reflexivity | vm_compute; reflexivity | discriminate].
Defined.

(** X5: truncating twice is truncating once, for every string, length and
    suffix. *)
Theorem truncate_idempotent str n suffix :
  truncate (truncate str n suffix) n suffix = truncate str n suffix.
Proof.
  destruct str as [|c str']; [reflexivity|].
  destruct (Z.leb_spec (Z.of_nat (length (c :: str'))) n) as [Hle|Hgt].
  - unfold truncate at 2. cbn [str_falsy orb].
    destruct (Z.leb_spec (Z.of_nat (length (c :: str'))) n); [|lia].
    unfold truncate. cbn [str_falsy orb].
    destruct (Z.leb_spec (Z.of_nat (length (c :: str'))) n); [reflexivity | lia].
  - destruct (Z.le_gt_cases (Z.of_nat (length suffix)) n) as [Hfit|Hshort].
    + pose proof (truncate_length (c :: str') n suffix Hfit) as Hlen.
      unfold truncate at 1.
      destruct (Z.leb_spec (Z.of_nat (length (truncate (c :: str') n suffix))) n);
        [rewrite orb_true_r; reflexivity | lia].
    + rewrite (truncate_below_suffix (c :: str') n suffix) by (try discriminate; lia).
      destruct suffix as [|d suffix']; [reflexivity|].
      apply truncate_below_suffix; [lia | lia | discriminate].
Qed.

(** *** capitalize *)

(** X6: [capitalize] is idempotent on strings, whenever [toUpperCase] turns
    a single code unit into text whose first unit it leaves alone (as the
    ASCII letters, and also units such as U+00DF, whose capital is "SS"). *)
Theorem capitalize_idempotent (toUpperCase : jsstring -> jsstring) :
  (forall c, exists u us, toUpperCase [c] = u :: us /\ toUpperCase [u] = [u]) ->
  forall s r,
    capitalize toUpperCase (VStr s) = Some r ->
    capitalize toUpperCase (VStr r) = Some r.
Proof.
  intros Hup s r. unfold capitalize. destruct s as [|c rest]; simpl.
  - intros [= <-]. reflexivity.
  - destruct (Hup c) as (u & us & Hc & Hu). rewrite take_0, drop_0, Hc.
    intros [= <-]. simpl. rewrite take_0, drop_0, Hu. reflexivity.
Qed.

Lemma ascii_toUpperCase_unit c :
  exists u us, ascii_toUpperCase [c] = u :: us /\ ascii_toUpperCase [u] = [u].
Proof.
  unfold ascii_toUpperCase. simpl. eexists _, []. split; [reflexivity|].
  destruct (Char.is_lower c) eqn:E; [|rewrite E; reflexivity].
  replace (Char.is_lower (c - 32)) with false; [reflexivity|].
  symmetry. clear -E. char_solve.
Qed.

Lemma capitalize_idempotent_witness :
  capitalize ascii_toUpperCase (VStr (lit "hero banner")) = Some (lit "Hero banner")
  /\ capitalize ascii_toUpperCase (VStr (lit "Hero banner")) = Some (lit "Hero banner").
Proof.
  split; [reflexivity|].
  apply (capitalize_idempotent ascii_toUpperCase ascii_toUpperCase_unit (lit "hero banner")).
  reflexivity.
Defined.

(** *** Regular expressions: the test decides the language *)

Lemma nullable_spec r : nullable r = true <-> in_language r [].
Proof.
  split.
  - induction r as [| |p|r1 IH1 r2 IH2|r1 IH1 r2 IH2|r IH]; simpl; intros H;
      try discriminate.
    + constructor.
    + apply andb_true_iff in H. destruct H as [H1 H2].
      apply (in_Seq r1 r2 [] []); auto.
    + apply orb_true_iff in H. destruct H as [H|H];
        [apply in_Alt_l | apply in_Alt_r]; auto.
    + constructor.
  - intros H. remember [] as s eqn:E.
    induction H as [|p c Hc|r1 r2 s1 s2 H1 IH1 H2 IH2|r1 r2 s H IH|r1 r2 s H IH
                   |r|r s1 s2 H1 IH1 H2 IH2]; simpl; try reflexivity.
    + discriminate E.
    + apply app_eq_nil in E. destruct E as [-> ->].
      rewrite IH1, IH2 by reflexivity. reflexivity.
    + rewrite IH by assumption. reflexivity.
    + rewrite IH by assumption. apply orb_true_r.
Qed.

Lemma derive_sound c r : forall s, in_language (derive c r) s -> in_language r (c :: s).
Proof.
  induction r as [| |p|r1 IH1 r2 IH2|r1 IH1 r2 IH2|r IH]; simpl; intros s H.
  - inversion H.
  - inversion H.
  - destruct (p c) eqn:E; inversion H; subst. constructor. exact E.
  - destruct (nullable r1) eqn:E.
    + inversion H as [| | |? ? ? H'|? ? ? H'| |]; subst.
      * inversion H' as [| |? ? s1 s2 Ha Hb| | | |]; subst.
        apply (in_Seq r1 r2 (c :: s1) s2); auto.
      * apply (in_Seq r1 r2 [] (c :: s)); [apply nullable_spec, E | auto].
    + inversion H as [| |? ? s1 s2 Ha Hb| | | |]; subst.
      apply (in_Seq r1 r2 (c :: s1) s2); auto.
  - inversion H; subst; [apply in_Alt_l | apply in_Alt_r]; auto.
  - inversion H as [| |? ? s1 s2 Ha Hb| | | |]; subst.
    apply (in_Star_more r (c :: s1) s2); auto.
Qed.

Lemma derive_complete c r t :
  in_language r t -> forall s, t = c :: s -> in_language (derive c r) s.
Proof.
  induction 1 as [|p d Hd|r1 r2 s1 s2 H1 IH1 H2 IH2|r1 r2 t H IH|r1 r2 t H IH
                 |r|r s1 s2 H1 IH1 H2 IH2]; intros s E; simpl.
  - discriminate E.
  - injection E as -> <-. rewrite Hd. constructor.
  - destruct s1 as [|d s1'].
    + simpl in E. assert (Hn : nullable r1 = true) by (apply nullable_spec, H1).
      rewrite Hn. apply in_Alt_r. apply IH2, E.
    + simpl in E. injection E as -> <-.
      assert (Hs : in_language (Seq (derive c r1) r2) (s1' ++ s2))
        by (constructor; [apply IH1; reflexivity | exact H2]).
      destruct (nullable r1); [apply in_Alt_l|]; exact Hs.
  - apply in_Alt_l. apply IH, E.
  - apply in_Alt_r. apply IH, E.
  - discriminate E.
  - destruct s1 as [|d s1'].
    + simpl in E. apply IH2, E.
    + simpl in E. injection E as -> <-.
      constructor; [apply IH1; reflexivity | exact H2].
Qed.

Lemma regex_test_spec s : forall r, regex_test r s = true <-> in_language r s.
Proof.
  induction s as [|c s IH]; intros r; simpl.
  - apply nullable_spec.
  - rewrite IH. split; [apply derive_sound|].
    intros H. apply (derive_complete c r (c :: s) H). reflexivity.
Qed.

Lemma in_Star_Class p s :
  in_language (Star (Class p)) s <-> Forall (fun c => p c = true) s.
Proof.
  split.
  - intros H. remember (Star (Class p)) as r eqn:E.
    induction H as [| | | | |r'|r' s1 s2 H1 _ H2 IH2]; try discriminate E.
    + constructor.
    + injection E as ->. inversion H1; subst. constructor; auto.
  - induction 1 as [|c s Hc Hs IH]; [constructor|].
    apply (in_Star_more (Class p) [c] s); [constructor; exact Hc | exact IH].
Qed.

Lemma in_Plus_Class p s :
  in_language (Plus (Class p)) s <-> s <> [] /\ Forall (fun c => p c = true) s.
Proof.
  unfold Plus. split.
  - intros H. inversion H as [| |? ? s1 s2 H1 H2| | | |]; subst.
    inversion H1; subst. apply in_Star_Class in H2.
    split; [discriminate | constructor; assumption].
  - intros [Hne Hall]. destruct Hall as [|c s Hc Hs]; [contradiction|].
    apply (in_Seq _ _ [c] s); [constructor; exact Hc | apply in_Star_Class, Hs].
Qed.

Lemma in_Lit c s : in_language (Lit c) s <-> s = [c].
Proof.
  unfold Lit. split.
  - intros H. inversion H as [|? d Hd| | | | |]; subst.
    apply N.eqb_eq in Hd. subst. reflexivity.
  - intros ->. constructor. apply N.eqb_refl.
Qed.

(** *** isValidEmail *)

Lemma isValidEmail_parts email :
  isValidEmail email = true <->
  exists local domain ending,
    email = local ++ at_sign :: domain ++ dot :: ending
    /\ local <> [] /\ domain <> [] /\ ending <> []
    /\ Forall (fun c => address_char c = true) (local ++ domain ++ ending).
Proof.
  unfold isValidEmail, emailRegex. rewrite regex_test_spec. split.
  - intros H.
    inversion H as [| |? ? local s1 Hl H1| | | |]; subst.
    inversion H1 as [| |? ? a s2 Ha H2| | | |]; subst.
    inversion H2 as [| |? ? domain s3 Hd H3| | | |]; subst.
    inversion H3 as [| |? ? d ending Hdot He| | | |]; subst.
    apply in_Lit in Ha, Hdot. subst.
    apply in_Plus_Class in Hl, Hd, He.
    exists local, domain, ending. split; [reflexivity|].
    rewrite !Forall_app. tauto.
  - intros (local & domain & ending & -> & Hl & Hd & He & Hall).
    rewrite !Forall_app in Hall. destruct Hall as (Fl & Fd & Fe).
    apply in_Seq; [apply in_Plus_Class; tauto|].
    apply (in_Seq _ _ [at_sign]); [apply in_Lit; reflexivity|].
    apply in_Seq; [apply in_Plus_Class; tauto|].
    apply (in_Seq _ _ [dot]); [apply in_Lit; reflexivity|].
    apply in_Plus_Class; tauto.
Qed.

(** X7: [isValidEmail] accepts exactly the strings made of a local part, an
    at sign, a domain, a dot and an ending, where the three parts are not
    empty and hold neither whitespace nor an at sign (dots are allowed
    anywhere in them). *)
Theorem isValidEmail_shape email :
  isValidEmail email = true <->
  exists local domain ending,
    email = local ++ at_sign :: domain ++ dot :: ending
    /\ local <> [] /\ domain <> [] /\ ending <> []
    /\ Forall (fun c => address_char c = true) (local ++ domain ++ ending).
Proof. apply isValidEmail_parts. Qed.

Lemma address_chars_no_at s :
  Forall (fun c => address_char c = true) s -> count_occ N.eq_dec s at_sign = O.
Proof.
  induction 1 as [|c s Hc Hs IH]; [reflexivity|].
  simpl. destruct (N.eq_dec c at_sign) as [->|_]; [discriminate Hc | exact IH].
Qed.

(** X8: an address [isValidEmail] accepts has exactly one at sign, no
    whitespace, and at least five characters. *)
Theorem isValidEmail_one_at email :
  isValidEmail email = true ->
  count_occ N.eq_dec email at_sign = 1%nat
  /\ Forall (fun c => Char.is_space c = false) email
  /\ (5 <= length email)%nat.
Proof.
  intros H. apply isValidEmail_parts in H.
  destruct H as (local & domain & ending & -> & Hl & Hd & He & Hall).
  rewrite !Forall_app in Hall. destruct Hall as (Fl & Fd & Fe).
  assert (Hsp : forall s, Forall (fun c => address_char c = true) s ->
                          Forall (fun c => Char.is_space c = false) s).
  { intros s Hs. apply (Forall_impl _ _ _ Hs). intros c Hc. unfold address_char in Hc.
    apply negb_true_iff, orb_false_iff in Hc. apply Hc. }
  split; [|split].
  - rewrite count_occ_app. cbn [count_occ].
    destruct (N.eq_dec at_sign at_sign) as [_|Hne]; [|contradiction].
    rewrite count_occ_app. cbn [count_occ].
    destruct (N.eq_dec dot at_sign) as [Hbad|_]; [discriminate Hbad|].
    rewrite !address_chars_no_at by assumption. reflexivity.
  - rewrite Forall_app, Forall_cons, Forall_app, Forall_cons.
    repeat split; auto.
  - destruct local, domain, ending; try contradiction.
    rewrite !length_app. simpl. rewrite !length_app. simpl. lia.
Qed.

Lemma isValidEmail_one_at_witness :
  isValidEmail (lit "milos@example.co.rs") = true
  /\ count_occ N.eq_dec (lit "milos@example.co.rs") at_sign = 1%nat.
Proof.
  split; [reflexivity|].
  apply (isValidEmail_one_at (lit "milos@example.co.rs")). reflexivity.
Defined.

(** *** isNotEmpty on any value *)

Lemma blank_or_not (p : N -> bool) s :
  Forall (fun c => p c = true) s \/ Exists (fun c => p c = false) s.
Proof.
  induction s as [|c s [IH|IH]]; [left; constructor | |].
  - destruct (p c) eqn:E; [left; constructor; assumption | right; constructor; exact E].
  - right. apply Exists_cons_tl, IH.
Qed.

Lemma trim_nil_iff s : trim s = [] <-> Forall (fun c => Char.is_space c = true) s.
Proof.
  unfold trim. rewrite drop_while_end_nil_iff.
  apply drop_while_Forall_iff. auto.
Qed.

(** X9: [isNotEmpty] answers a truthy value exactly for a string that holds
    a character other than whitespace; it throws exactly for a truthy value
    that is not a string, and hands a falsy value back as it is. *)
Theorem isNotEmpty_truthy_iff v :
  (isNotEmpty v = None <-> truthy v = true /\ forall s, v <> VStr s)
  /\ forall r,
       isNotEmpty v = Some r ->
       (truthy r = true <->
        exists s, v = VStr s /\ Exists (fun c => Char.is_space c = false) s)
       /\ (truthy v = false -> r = v).
Proof.
  unfold isNotEmpty. destruct (truthy v) eqn:T.
  - destruct v as [| |b|n|s|b]; try discriminate T.
    + split; [split; [intros _; split; [reflexivity | discriminate] | reflexivity]|].
      intros r Hr. discriminate Hr.
    + split; [split; [intros _; split; [reflexivity | discriminate] | reflexivity]|].
      intros r Hr. discriminate Hr.
    + split.
      * split; [discriminate|]. intros [_ H]. exfalso. apply (H s). reflexivity.
      * intros r [= <-]. split; [|discriminate]. cbn [truthy]. rewrite Nat.ltb_lt. split.
        -- intros Hlen. exists s. split; [reflexivity|].
           destruct (blank_or_not Char.is_space s) as [Hb|Hn]; [|exact Hn].
           apply trim_nil_iff in Hb. rewrite Hb in Hlen. simpl in Hlen. lia.
        -- intros (s' & [= <-] & Hex).
           destruct (trim s) eqn:E; [|simpl; lia].
           apply trim_nil_iff in E. apply Exists_exists in Hex.
           destruct Hex as (c & Hin & Hc). rewrite Forall_forall in E.
           rewrite (E c Hin) in Hc. discriminate Hc.
    + split; [split; [intros _; split; [reflexivity | discriminate] | reflexivity]|].
      intros r Hr. discriminate Hr.
  - split.
    + split; [discriminate | intros [H _]; discriminate H].
    + intros r [= <-]. split; [|reflexivity]. rewrite T. split; [discriminate|].
      intros (s & -> & Hex). destruct s; [inversion Hex | discriminate T].
Qed.

(** *** timeAgo rounds down *)

Lemma quotient_at_least_one s k : 0 < k -> (1 <= s / k <-> k <= s).
Proof.
  intros Hk. split.
  - intros H. pose proof (Z.mul_div_le s k Hk). nia.
  - intros H. apply Z.div_le_lower_bound; lia.
Qed.

Lemma first_interval_pick s pre unit secs post :
  0 < secs ->
  (forall u k, In (u, k) pre -> s / k < 1) -> secs <= s ->
  first_interval (Some s) (pre ++ (unit, secs) :: post) = ago (s / secs) unit.
Proof.
  intros Hk Hpre Hs. rewrite first_interval_skip by exact Hpre. simpl.
  destruct (Z.leb_spec 1 (s / secs)) as [_|Hlt]; [reflexivity|].
  apply quotient_at_least_one in Hs; [lia | exact Hk].
Qed.

Lemma quotient_floor s k n :
  0 < k -> n = s / k -> n * k <= s < (n + 1) * k.
Proof.
  intros Hk ->. pose proof (Z.mul_div_le s k Hk).
  pose proof (Z.mul_succ_div_gt s k Hk). lia.
Qed.

(** X10: from a minute on, [timeAgo] rounds down: the [n] units it reports
    have fully passed and [n + 1] have not, and it never reports a count
    that the next coarser unit would cover: at most 59 minutes, 23 hours,
    6 days, 4 weeks, 12 months. *)
Theorem timeAgo_rounds_down now d :
  let seconds := (now - d) / 1000 in
  60 <= seconds ->
  exists unit secs n,
    In (unit, secs) intervals
    /\ timeAgo now (Some d) = ago n unit
    /\ 1 <= n
    /\ n * secs <= seconds < (n + 1) * secs
    /\ (secs = 60 -> n <= 59)
    /\ (secs = 3600 -> n <= 23)
    /\ (secs = 86400 -> n <= 6)
    /\ (secs = 604800 -> n <= 4)
    /\ (secs = 2592000 -> n <= 12).
Proof.
  intros seconds Hmin. unfold timeAgo. fold seconds.
  assert (Hunder : forall pre : list (jsstring * Z),
            (forall u k', In (u, k') pre -> 0 < k' /\ seconds < k') ->
            forall u k', In (u, k') pre -> seconds / k' < 1).
  { intros pre H u k' Hin. destruct (H u k' Hin).
    apply Z.div_lt_upper_bound; lia. }
  destruct (Z.le_gt_cases 31536000 seconds) as [Hy|Hy];
    [|destruct (Z.le_gt_cases 2592000 seconds) as [Hmo|Hmo];
      [|destruct (Z.le_gt_cases 604800 seconds) as [Hw|Hw];
        [|destruct (Z.le_gt_cases 86400 seconds) as [Hd|Hd];
          [|destruct (Z.le_gt_cases 3600 seconds) as [Hh|Hh]]]]].
  - exists (lit "year"), 31536000, (seconds / 31536000).
    split; [simpl; tauto|]. split.
    { apply (first_interval_pick seconds [] (lit "year") 31536000); [lia | | lia].
      intros u k []. }
    pose proof (quotient_floor seconds 31536000 _ ltac:(lia) eq_refl).
    pose proof (proj2 (quotient_at_least_one seconds 31536000 ltac:(lia)) Hy).
    repeat split; try lia.
  - exists (lit "month"), 2592000, (seconds / 2592000).
    split; [simpl; tauto|]. split.
    { apply (first_interval_pick seconds [(lit "year", 31536000)]); [lia | | lia].
      apply Hunder. intros u k [[= <- <-]|[]]. lia. }
    pose proof (quotient_floor seconds 2592000 _ ltac:(lia) eq_refl).
    pose proof (proj2 (quotient_at_least_one seconds 2592000 ltac:(lia)) Hmo).
    repeat split; try lia.
  - exists (lit "week"), 604800, (seconds / 604800).
    split; [simpl; tauto|]. split.
    { apply (first_interval_pick seconds [(lit "year", 31536000); (lit "month", 2592000)]);
        [lia | | lia].
      apply Hunder. intros u k [[= <- <-]|[[= <- <-]|[]]]; lia. }
    pose proof (quotient_floor seconds 604800 _ ltac:(lia) eq_refl).
    pose proof (proj2 (quotient_at_least_one seconds 604800 ltac:(lia)) Hw).
    repeat split; try lia.
  - exists (lit "day"), 86400, (seconds / 86400).
    split; [simpl; tauto|]. split.
    { apply (first_interval_pick seconds
               [(lit "year", 31536000); (lit "month", 2592000); (lit "week", 604800)]);
        [lia | | lia].
      apply Hunder. intros u k [[= <- <-]|[[= <- <-]|[[= <- <-]|[]]]]; lia. }
    pose proof (quotient_floor seconds 86400 _ ltac:(lia) eq_refl).
    pose proof (proj2 (quotient_at_least_one seconds 86400 ltac:(lia)) Hd).
    repeat split; try lia.
  - exists (lit "hour"), 3600, (seconds / 3600).
    split; [simpl; tauto|]. split.
    { apply (first_interval_pick seconds
               [(lit "year", 31536000); (lit "month", 2592000); (lit "week", 604800);
                (lit "day", 86400)]); [lia | | lia].
      apply Hunder.
      intros u k [[= <- <-]|[[= <- <-]|[[= <- <-]|[[= <- <-]|[]]]]]; lia. }
    pose proof (quotient_floor seconds 3600 _ ltac:(lia) eq_refl).
    pose proof (proj2 (quotient_at_least_one seconds 3600 ltac:(lia)) Hh).
    repeat split; try lia.
  - exists (lit "minute"), 60, (seconds / 60).
    split; [simpl; tauto|]. split.
    { apply (first_interval_pick seconds
               [(lit "year", 31536000); (lit "month", 2592000); (lit "week", 604800);
                (lit "day", 86400); (lit "hour", 3600)] (lit "minute") 60 []);
        [lia | | lia].
      apply Hunder.
      intros u k [[= <- <-]|[[= <- <-]|[[= <- <-]|[[= <- <-]|[[= <- <-]|[]]]]]]; lia. }
    pose proof (quotient_floor seconds 60 _ ltac:(lia) eq_refl).
    pose proof (proj2 (quotient_at_least_one seconds 60 ltac:(lia)) Hmin).
    repeat split; try lia.
Qed.

Lemma timeAgo_rounds_down_witness :
  exists unit secs n,
    In (unit, secs) intervals
    /\ timeAgo 1700007199000 (Some 1700000000000) = ago n unit
    /\ n * secs <= 7199 < (n + 1) * secs
    /\ ago n unit = lit "1 hour ago".
Proof.
  destruct (timeAgo_rounds_down 1700007199000 1700000000000)
    as (unit & secs & n & Hin & Hrun & Hn & Hfloor & _); [vm_compute; discriminate|].
  exists unit, secs, n. split; [exact Hin|]. split; [exact Hrun|].
  split; [exact Hfloor|]. rewrite <- Hrun. reflexivity.
Defined.

(** *** The order of the sorted array *)

Lemma StronglySorted_among {A} (R R' : A -> A -> Prop) (S : A -> Prop) l :
  (forall a b, S a -> S b -> R a b -> R' a b) ->
  Forall S l -> StronglySorted R l -> StronglySorted R' l.
Proof.
  intros Himp HS Hsorted. induction Hsorted as [|x l Hl IH Hx]; [constructor|].
  apply Forall_cons in HS. destruct HS as [Sx Sl].
  constructor; [apply IH, Sl|].
  rewrite Forall_forall in Hx, Sl. apply Forall_forall. intros y Hy. auto.
Qed.

Lemma StronglySorted_rev {A} (R : A -> A -> Prop) l :
  StronglySorted R l -> StronglySorted (fun a b => R b a) (rev l).
Proof.
  induction 1 as [|x l Hl IH Hx]; simpl; [constructor|].
  apply StronglySorted_app. split; [|split; [exact IH | repeat constructor]].
  intros x1 x2 H1 H2. apply list_elem_of_singleton in H2. subst x2.
  apply list_elem_of_In, in_rev, list_elem_of_In in H1.
  rewrite Forall_forall in Hx. apply Hx, H1.
Qed.

Section SortedOutput.

Context {A : Type}.
Variable comparefn : A -> A -> Z.
Variable S : A -> Prop.
Hypothesis consistent : consistent_on comparefn S.

Lemma binary_insertion_sort_sorted rest :
  Forall S rest ->
  forall run, Forall S run -> StronglySorted (not_after comparefn) run ->
  StronglySorted (not_after comparefn) (binary_insertion_sort comparefn run rest).
Proof.
  unfold binary_insertion_sort.
  induction 1 as [|x rest Hx Hrest IH]; intros run Hrun Hsorted; simpl; [exact Hsorted|].
  apply IH.
  - rewrite (insert_pivot_Permutation comparefn run x). constructor; assumption.
  - apply (insert_pivot_sorted comparefn S consistent); assumption.
Qed.

Lemma array_sort_sorted l :
  Forall S l -> StronglySorted (not_after comparefn) (array_sort comparefn l).
Proof.
  intros HS. unfold array_sort.
  destruct (count_and_make_run_stable comparefn S consistent l HS)
    as (Hrun & Hrest & Hsorted & _).
  destruct (count_and_make_run comparefn l) as [run rest]. simpl in *.
  apply binary_insertion_sort_sorted; assumption.
Qed.

Lemma run_length_of_sorted r :
  Forall S r -> forall prev, S prev ->
  StronglySorted (not_after comparefn) (prev :: r) ->
  run_length comparefn false prev r = length r.
Proof.
  induction 1 as [|x r Hx Hr IH]; intros prev Hp Hsorted; [reflexivity|].
  cbn [run_length]. cbv zeta.
  apply StronglySorted_inv in Hsorted. destruct Hsorted as [Hrest Hall].
  apply Forall_cons in Hall. destruct Hall as [Hpx _]. unfold not_after in Hpx.
  pose proof (consistent_sign _ _ consistent x prev Hx Hp) as Hsign.
  destruct (Z.leb_spec 0 (comparefn x prev)) as [_|Hlt]; [|lia].
  simpl. f_equal. apply IH; assumption.
Qed.

(** A sorted array is one ascending run: the sort leaves it as it is. *)
Lemma array_sort_of_sorted l :
  Forall S l -> StronglySorted (not_after comparefn) l -> array_sort comparefn l = l.
Proof.
  intros HS Hsorted. unfold array_sort.
  destruct l as [|a [|b r]]; [reflexivity | reflexivity|].
  rewrite (count_and_make_run_cons comparefn a b r). cbv zeta.
  apply Forall_cons in HS. destruct HS as [Ha Hr].
  pose proof Hr as Hr'. apply Forall_cons in Hr'. destruct Hr' as [Hb _].
  pose proof Hsorted as Hs'. apply StronglySorted_inv in Hs'.
  destruct Hs' as [_ Hall]. apply Forall_cons in Hall. destruct Hall as [Hab _].
  unfold not_after in Hab.
  pose proof (consistent_sign _ _ consistent b a Hb Ha) as Hsign.
  destruct (Z.ltb_spec (comparefn b a) 0) as [Hlt|_]; [lia|].
  rewrite (run_length_of_sorted (b :: r) Hr a Ha Hsorted).
  rewrite take_ge, drop_ge by lia. reflexivity.
Qed.

End SortedOutput.

Section SortByKeyOrder.

Variable IsLessThan : value -> value -> bool.

Lemma compare_by_key_desc st key order a b :
  order <> asc ->
  compare_by_key IsLessThan st key order a b
  = - compare_by_key IsLessThan st key asc a b.
Proof.
  intros Hne. unfold compare_by_key.
  rewrite (bool_decide_eq_false_2 _ Hne), (bool_decide_eq_true_2 (asc = asc) eq_refl).
  destruct (IsLessThan (get_field st a key) (get_field st b key)),
           (IsLessThan (get_field st b key) (get_field st a key)); reflexivity.
Qed.

(** X11: when the values at [key] are pairwise comparable, the array
    [sortByKey] returns is in order: with order "asc" no item has a value
    less than that of an item before it, with any other order no item has a
    value greater than that of an item before it. *)
Theorem sortByKey_in_order st array items key order :
  arrays st !! array = Some items ->
  comparable_values IsLessThan (key_values st key items) ->
  exists st' r sorted,
    sortByKey IsLessThan st array key order = Some (st', r)
    /\ arrays st' !! r = Some sorted
    /\ forall i j a b,
         (i < j)%nat -> sorted !! i = Some a -> sorted !! j = Some b ->
         if bool_decide (order = asc)
         then IsLessThan (get_field st b key) (get_field st a key) = false
         else IsLessThan (get_field st a key) (get_field st b key) = false.
Proof.
  intros Ha Hcmp. eexists _, _, _.
  split; [apply (sortByKey_result IsLessThan st array items key order Ha)|].
  split; [apply lookup_insert_eq|].
  intros i j a b Hij Hi Hj.
  pose proof (compare_by_key_consistent IsLessThan st key order items Hcmp) as Hcons.
  assert (Hitems : Forall (fun item => In item items) items)
    by (apply List.Forall_forall; auto).
  pose proof (array_sort_sorted _ _ Hcons items Hitems) as Hsorted.
  pose proof (StronglySorted_lookup_lt _ _ i j a b Hsorted Hij Hi Hj) as Hab.
  assert (Hin : forall x k, array_sort (compare_by_key IsLessThan st key order) items !! k
                            = Some x -> In x items).
  { intros x k Hk.
    apply (Permutation_in x
             (array_sort_Permutation (compare_by_key IsLessThan st key order) items)).
    apply list_elem_of_In, list_elem_of_lookup. eauto. }
  pose proof (consistent_sign _ _ Hcons a b (Hin a i Hi) (Hin b j Hj)) as Hsign.
  unfold not_after in Hab. unfold compare_by_key in Hab, Hsign.
  destruct (IsLessThan (get_field st a key) (get_field st b key)),
           (IsLessThan (get_field st b key) (get_field st a key)),
           (bool_decide (order = asc)); try reflexivity; lia.
Qed.

(** X12: sorting what [sortByKey] returned, by the same key and order,
    changes nothing: the second result holds the items in the order of the
    first. *)
Theorem sortByKey_twice st array items key order :
  arrays st !! array = Some items ->
  comparable_values IsLessThan (key_values st key items) ->
  exists st1 r1 sorted st2 r2,
    sortByKey IsLessThan st array key order = Some (st1, r1)
    /\ arrays st1 !! r1 = Some sorted
    /\ sortByKey IsLessThan st1 r1 key order = Some (st2, r2)
    /\ arrays st2 !! r2 = Some sorted.
Proof.
  intros Ha Hcmp.
  pose proof (compare_by_key_consistent IsLessThan st key order items Hcmp) as Hcons.
  assert (Hitems : Forall (fun item => In item items) items)
    by (apply List.Forall_forall; auto).
  set (sorted := array_sort (compare_by_key IsLessThan st key order) items).
  assert (Hsorted : StronglySorted (not_after (compare_by_key IsLessThan st key order)) sorted)
    by (apply (array_sort_sorted _ _ Hcons items Hitems)).
  assert (Hamong : Forall (fun item => In item items) sorted).
  { apply List.Forall_forall. intros x Hx.
    apply (Permutation_in x
             (array_sort_Permutation (compare_by_key IsLessThan st key order) items)), Hx. }
  eexists _, _, sorted, _, _.
  split; [apply (sortByKey_result IsLessThan st array items key order Ha)|].
  split; [apply lookup_insert_eq|].
  split.
  - apply sortByKey_result. apply lookup_insert_eq.
  - cbn [arrays]. rewrite lookup_insert_eq. f_equal.
    apply (array_sort_of_sorted _ _ Hcons sorted Hamong Hsorted).
Qed.

(** X13: when the values at [key] are pairwise comparable and no two
    different items have equal values, sorting in descending order gives
    the reverse of sorting in ascending order. *)
Theorem sortByKey_desc_is_reverse st array items key order :
  arrays st !! array = Some items ->
  comparable_values IsLessThan (key_values st key items) ->
  (forall a b, In a items -> In b items -> a <> b ->
     IsLessThan (get_field st a key) (get_field st b key) = true
     \/ IsLessThan (get_field st b key) (get_field st a key) = true) ->
  order <> asc ->
  exists st1 r1 ascending st2 r2 descending,
    sortByKey IsLessThan st array key asc = Some (st1, r1)
    /\ arrays st1 !! r1 = Some ascending
    /\ sortByKey IsLessThan st array key order = Some (st2, r2)
    /\ arrays st2 !! r2 = Some descending
    /\ descending = rev ascending.
Proof.
  intros Ha Hcmp Hstrict Hne.
  pose proof (compare_by_key_consistent IsLessThan st key asc items Hcmp) as Hup.
  pose proof (compare_by_key_consistent IsLessThan st key order items Hcmp) as Hdown.
  assert (Hitems : Forall (fun item => In item items) items)
    by (apply List.Forall_forall; auto).
  set (ascending := array_sort (compare_by_key IsLessThan st key asc) items).
  set (descending := array_sort (compare_by_key IsLessThan st key order) items).
  eexists _, _, ascending, _, _, descending.
  split; [apply (sortByKey_result IsLessThan st array items key asc Ha)|].
  split; [apply lookup_insert_eq|].
  split; [apply (sortByKey_result IsLessThan st array items key order Ha)|].
  split; [apply lookup_insert_eq|].
  assert (Hamong : Forall (fun item => In item items) ascending).
  { apply List.Forall_forall. intros x Hx.
    apply (Permutation_in x
             (array_sort_Permutation (compare_by_key IsLessThan st key asc) items)), Hx. }
  apply (StronglySorted_unique_strong (not_after (compare_by_key IsLessThan st key order))).
  - intros x1 x2 H1 H2 H12 H21.
    assert (I1 : In x1 items).
    { apply (Permutation_in x1
               (array_sort_Permutation (compare_by_key IsLessThan st key order) items)),
        list_elem_of_In, H1. }
    assert (I2 : In x2 items).
    { apply list_elem_of_In, in_rev in H2.
      apply (Permutation_in x2
               (array_sort_Permutation (compare_by_key IsLessThan st key asc) items)), H2. }
    destruct (decide (x1 = x2)) as [E|Hdiff]; [exact E | exfalso].
    pose proof (consistent_sign _ _ Hdown x1 x2 I1 I2) as Hsign.
    unfold not_after in H12, H21.
    assert (Hzero : compare_by_key IsLessThan st key order x1 x2 = 0).
    { pose proof (consistent_sign _ _ Hdown x2 x1 I2 I1). lia. }
    unfold compare_by_key in Hzero.
    destruct (Hstrict x1 x2 I1 I2 Hdiff) as [Hlt|Hlt]; rewrite Hlt in Hzero.
    + destruct (bool_decide (order = asc)); discriminate Hzero.
    + destruct (IsLessThan (get_field st x1 key) (get_field st x2 key));
        destruct (bool_decide (order = asc)); discriminate Hzero.
  - apply (array_sort_sorted _ _ Hdown items Hitems).
  - apply (StronglySorted_among
             (fun a b => not_after (compare_by_key IsLessThan st key asc) b a)
             _ (fun item => In item items)).
    + intros a b Ia Ib Hba. unfold not_after in *.
      rewrite (compare_by_key_desc st key order a b Hne).
      pose proof (consistent_sign _ _ Hup a b Ia Ib). lia.
    + apply List.Forall_rev, Hamong.
    + apply StronglySorted_rev, (array_sort_sorted _ _ Hup items Hitems).
  - subst descending ascending.
    rewrite <- Permutation_rev, !array_sort_Permutation. reflexivity.
Qed.

End SortByKeyOrder.

Lemma counted_store_numbers counts v :
  Forall (fun c => c <> None) counts ->
  key_values (counted_store counts) count_key (numbered 1%positive (length counts)) v ->
  exists n, v = VNum n /\ n <> NaN.
Proof.
  unfold key_values, counted_store, get_field. cbn [objects].
  generalize 1%positive as next. intros next Hall. revert next.
  induction Hall as [|c counts Hc Hall IH]; intros next (item & Hin & Hv).
  - destruct Hin.
  - simpl in Hin. destruct Hin as [<-|Hin].
    + cbn [counted_records] in Hv. rewrite lookup_total_insert_eq in Hv.
      destruct c as [z|]; [|contradiction]. cbn [counted] in Hv.
      rewrite lookup_insert_eq in Hv. simpl in Hv. subst v.
      eexists. split; [reflexivity | discriminate].
    + cbn [counted_records] in Hv.
      destruct (decide (next = item)) as [<-|Hne].
      * rewrite lookup_total_insert_eq in Hv.
        destruct c as [z|]; [|contradiction]. cbn [counted] in Hv.
        rewrite lookup_insert_eq in Hv. simpl in Hv. subst v.
        eexists. split; [reflexivity | discriminate].
      * rewrite lookup_total_insert_ne in Hv by exact Hne.
        apply (IH (Pos.succ next)). exists item. split; assumption.
Qed.

Lemma sortByKey_in_order_witness :
  exists st' r sorted,
    sortByKey (js_lt unused_StringToNumber)
      (counted_store [Some 3; Some 1; Some 2])
      (counted_array [Some 3; Some 1; Some 2]) count_key asc = Some (st', r)
    /\ arrays st' !! r = Some sorted
    /\ sorted = [2; 3; 1]%positive.
Proof.
  destruct (sortByKey_in_order (js_lt unused_StringToNumber)
              (counted_store [Some 3; Some 1; Some 2])
              (counted_array [Some 3; Some 1; Some 2])
              [1; 2; 3]%positive count_key asc eq_refl)
    as (st' & r & sorted & Hrun & Hr & _).
  - apply numbers_comparable. intros v Hv.
    apply (counted_store_numbers [Some 3; Some 1; Some 2] v);
      [repeat constructor; discriminate | exact Hv].
  - exists st', r, sorted. split; [exact Hrun|]. split; [exact Hr|].
    vm_compute in Hrun. injection Hrun as <- <-.
    vm_compute in Hr. injection Hr as <-. reflexivity.
Defined.

Lemma sortByKey_twice_witness :
  exists st1 r1 sorted st2 r2,
    sortByKey (js_lt unused_StringToNumber)
      (counted_store [Some 3; Some 1; Some 2])
      (counted_array [Some 3; Some 1; Some 2]) count_key asc = Some (st1, r1)
    /\ arrays st1 !! r1 = Some sorted
    /\ sortByKey (js_lt unused_StringToNumber) st1 r1 count_key asc = Some (st2, r2)
    /\ arrays st2 !! r2 = Some sorted.
Proof.
  apply (sortByKey_twice (js_lt unused_StringToNumber)
           (counted_store [Some 3; Some 1; Some 2])
           (counted_array [Some 3; Some 1; Some 2])
           [1; 2; 3]%positive count_key asc eq_refl).
  apply numbers_comparable. intros v Hv.
  apply (counted_store_numbers [Some 3; Some 1; Some 2] v);
    [repeat constructor; discriminate | exact Hv].
Defined.

Lemma sortByKey_desc_is_reverse_witness :
  exists st1 r1 ascending st2 r2 descending,
    sortByKey (js_lt unused_StringToNumber)
      (counted_store [Some 3; Some 1; Some 2])
      (counted_array [Some 3; Some 1; Some 2]) count_key asc = Some (st1, r1)
    /\ arrays st1 !! r1 = Some ascending
    /\ sortByKey (js_lt unused_StringToNumber)
         (counted_store [Some 3; Some 1; Some 2])
         (counted_array [Some 3; Some 1; Some 2]) count_key (lit "desc") = Some (st2, r2)
    /\ arrays st2 !! r2 = Some descending
    /\ descending = rev ascending.
Proof.
  apply (sortByKey_desc_is_reverse (js_lt unused_StringToNumber)
           (counted_store [Some 3; Some 1; Some 2])
           (counted_array [Some 3; Some 1; Some 2])
           [1; 2; 3]%positive count_key (lit "desc") eq_refl).
  - apply numbers_comparable. intros v Hv.
    apply (counted_store_numbers [Some 3; Some 1; Some 2] v);
      [repeat constructor; discriminate | exact Hv].
  - intros a b Ia Ib Hab. simpl in Ia, Ib.
    destruct Ia as [<-|[<-|[<-|[]]]], Ib as [<-|[<-|[<-|[]]]];
      try contradiction; vm_compute; auto.
  - discriminate.
Defined.
(** *** throttle *)

Section Throttle.

Variable limit : Z.
Hypothesis limit_kept : 1 <= limit <= TIMEOUT_MAX.

(** One call of the throttled function, after the event loop has come to
    the time of the call. *)
Lemma throttle_step cooldown_until timers_first t args w :
  cooling cooldown_until w -> th_clock w <= t ->
  let w' := throttle limit args (th_advance timers_first t w) in
  if match cooldown_until with
     | Some u => (t <? u) || (negb timers_first && (t =? u))
     | None => false
     end
  then th_calls w' = th_calls w /\ cooling cooldown_until w' /\ th_clock w' = t
  else th_calls w' = th_calls w ++ [(t, args)]
       /\ cooling (Some (t + limit)) w' /\ th_clock w' = t.
Proof.
  intros Hcool Hclock. destruct w as [c pend flag log]. simpl in *.
  unfold throttle, th_advance. cbn [th_clock th_pending inThrottle th_calls].
  rewrite (Z.max_r c t) by lia. rewrite (timer_delay_kept limit limit_kept).
  destruct cooldown_until as [u|]; unfold cooling in Hcool; simpl in Hcool;
    destruct Hcool as [-> ->].
  - cbn [List.filter existsb].
    destruct timers_first, (Z.ltb_spec t u), (Z.eqb_spec t u), (Z.ltb_spec u t),
      (Z.eqb_spec u t); try lia; simpl; repeat split.
  - simpl. repeat split.
Qed.

Lemma th_call_all_leading invocations :
  forall timers_first cooldown_until w,
    cooling cooldown_until w ->
    in_time_order (th_clock w) invocations ->
    th_calls (th_call_all limit timers_first invocations w)
    = th_calls w ++ leading_calls_with limit timers_first cooldown_until invocations.
Proof.
  induction invocations as [|[t args] rest IH]; intros first cd w Hcool Horder.
  - simpl. rewrite app_nil_r. reflexivity.
  - destruct Horder as [Ht Hrest]. cbn [th_call_all leading_calls_with].
    pose proof (throttle_step cd (first O) t args w Hcool Ht) as Hstep.
    cbv zeta in Hstep.
    destruct (match cd with
              | Some u => (t <? u) || (negb (first O) && (t =? u))
              | None => false
              end).
    + destruct Hstep as (Hlog & Hcool' & Hclock').
      rewrite (IH _ cd); [rewrite Hlog; reflexivity | exact Hcool' |].
      rewrite Hclock'. exact Hrest.
    + destruct Hstep as (Hlog & Hcool' & Hclock').
      rewrite (IH _ (Some (t + limit))); [| exact Hcool' |].
      * rewrite Hlog, <- List.app_assoc. reflexivity.
      * rewrite Hclock'. exact Hrest.
Qed.

Lemma th_advance_calls timers_first T w :
  th_calls (th_advance timers_first T w) = th_calls w.
Proof. reflexivity. Qed.

(** Where no call is made at the end of a cooldown window, the choice of
    the event loop does not matter. *)
Lemma leading_calls_with_clear invocations :
  forall timers_first cooldown_until,
    match cooldown_until with
    | Some u => Forall (fun call : Z * list value => call.1 <> u) invocations
    | None => True
    end ->
    Forall (fun run : Z * list value =>
              Forall (fun call : Z * list value => call.1 <> run.1 + limit) invocations)
      (leading_calls limit cooldown_until invocations) ->
    leading_calls_with limit timers_first cooldown_until invocations
    = leading_calls limit cooldown_until invocations.
Proof.
  induction invocations as [|[t args] rest IH]; intros first cd Hcd Hruns;
    [reflexivity|].
  cbn [leading_calls_with leading_calls] in *.
  assert (Htail : forall runs,
            Forall (fun run : Z * list value =>
                      Forall (fun call : Z * list value => call.1 <> run.1 + limit)
                        ((t, args) :: rest)) runs ->
            Forall (fun run : Z * list value =>
                      Forall (fun call : Z * list value => call.1 <> run.1 + limit) rest)
              runs).
  { intros runs H. apply (Forall_impl _ _ _ H). intros run Hrun.
    apply Forall_cons in Hrun. apply Hrun. }
  destruct cd as [u|].
  - apply Forall_cons in Hcd. destruct Hcd as [Htu Hcd]. cbn [fst] in Htu.
    destruct (Z.eqb_spec t u) as [|_]; [contradiction|].
    rewrite andb_false_r, orb_false_r.
    destruct (t <? u).
    + apply IH; [exact Hcd | apply Htail, Hruns].
    + apply Forall_cons in Hruns. destruct Hruns as [Hrun Hruns]. cbn [fst] in Hrun.
      apply Forall_cons in Hrun. f_equal. apply IH; [apply Hrun | apply Htail, Hruns].
  - apply Forall_cons in Hruns. destruct Hruns as [Hrun Hruns]. cbn [fst] in Hrun.
    apply Forall_cons in Hrun. f_equal. apply IH; [apply Hrun | apply Htail, Hruns].
Qed.

(** X14: for a [limit] from 1 to 2^31 - 1 milliseconds, the throttled
    function runs [func] for exactly the calls that do not fall into a
    cooldown window: the first call, and then every call that comes more
    than [limit] after the last call that ran.  Each runs at the time of
    its call and with its own arguments; the others are dropped, not
    queued: waiting longer brings no further run.  (No call is made at the
    very time a cooldown ends, where the event loop decides.) *)
Theorem throttle_runs_leading_calls timers_first start invocations later T :
  in_time_order start invocations ->
  clear_of_cooldowns limit invocations ->
  th_calls (th_advance later T
              (th_call_all limit timers_first invocations (th_initial start)))
  = leading_calls limit None invocations.
Proof.
  intros Horder Hclear. rewrite th_advance_calls.
  rewrite (th_call_all_leading invocations timers_first None (th_initial start));
    [| split; reflexivity | exact Horder].
  apply (leading_calls_with_clear invocations timers_first None I Hclear).
Qed.

Lemma leading_calls_with_after invocations :
  forall timers_first cooldown_until t0,
    in_time_order t0 invocations ->
    forall t args,
      In (t, args) (leading_calls_with limit timers_first cooldown_until invocations) ->
      t0 <= t /\ match cooldown_until with Some u => u <= t | None => True end.
Proof.
  induction invocations as [|[t' args'] rest IH]; intros first cd t0 Horder t args Hin.
  - destruct Hin.
  - destruct Horder as [Ht Hrest]. cbn [leading_calls_with] in Hin.
    destruct cd as [u|].
    + destruct (Z.ltb_spec t' u) as [Hlt|Hge]; cbn [orb] in Hin.
      * destruct (IH _ (Some u) t' Hrest t args Hin). split; [lia | assumption].
      * destruct (negb (first O) && (t' =? u)).
        -- destruct (IH _ (Some u) t' Hrest t args Hin). split; [lia | assumption].
        -- destruct Hin as [[= <- <-]|Hin]; [split; lia|].
           destruct (IH _ _ t' Hrest t args Hin). split; lia.
    + destruct Hin as [[= <- <-]|Hin]; [split; [lia | exact I]|].
      destruct (IH _ _ t' Hrest t args Hin). split; [lia | exact I].
Qed.

Lemma leading_calls_with_spaced invocations :
  forall timers_first cooldown_until t0,
    in_time_order t0 invocations ->
    forall i t1 a1 t2 a2,
      leading_calls_with limit timers_first cooldown_until invocations !! i
        = Some (t1, a1) ->
      leading_calls_with limit timers_first cooldown_until invocations !! S i
        = Some (t2, a2) ->
      t1 + limit <= t2.
Proof.
  induction invocations as [|[t' args'] rest IH];
    intros first cd t0 Horder i t1 a1 t2 a2 H1 H2.
  - discriminate H1.
  - destruct Horder as [Ht Hrest]. cbn [leading_calls_with] in H1, H2.
    destruct (match cd with
              | Some u => (t' <? u) || (negb (first O) && (t' =? u))
              | None => false
              end).
    + apply (IH _ cd t' Hrest i t1 a1 t2 a2 H1 H2).
    + destruct i as [|i].
      * simpl in H1, H2. injection H1 as <- <-.
        assert (Hin : In (t2, a2)
                        (leading_calls_with limit (fun i => first (S i))
                           (Some (t' + limit)) rest))
          by (apply list_elem_of_In, list_elem_of_lookup; eauto).
        apply (leading_calls_with_after rest _ _ t' Hrest) in Hin. apply Hin.
      * simpl in H1, H2. apply (IH _ _ t' Hrest i t1 a1 t2 a2 H1 H2).
Qed.

(** X15: for a [limit] from 1 to 2^31 - 1 milliseconds, two runs of [func]
    in a row are at least [limit] apart: at most one run in any window of
    [limit] milliseconds, whichever way the event loop decides at the end
    of a cooldown. *)
Theorem throttle_runs_are_spaced timers_first start invocations later T i t1 a1 t2 a2 :
  in_time_order start invocations ->
  th_calls (th_advance later T
              (th_call_all limit timers_first invocations (th_initial start))) !! i
    = Some (t1, a1) ->
  th_calls (th_advance later T
              (th_call_all limit timers_first invocations (th_initial start))) !! S i
    = Some (t2, a2) ->
  t1 + limit <= t2.
Proof.
  intros Horder. rewrite th_advance_calls.
  rewrite (th_call_all_leading invocations timers_first None (th_initial start));
    [| split; reflexivity | exact Horder].
  apply (leading_calls_with_spaced invocations timers_first None start Horder).
Qed.

Lemma leading_calls_with_sublist invocations :
  forall timers_first cooldown_until,
    sublist (leading_calls_with limit timers_first cooldown_until invocations)
      invocations.
Proof.
  induction invocations as [|[t args] rest IH]; intros first cd;
    cbn [leading_calls_with].
  - constructor.
  - destruct (match cd with
              | Some u => (t <? u) || (negb (first O) && (t =? u))
              | None => false
              end).
    + apply sublist_cons, IH.
    + apply sublist_skip, IH.
Qed.

Lemma in_time_order_le rest :
  forall t0 t args, in_time_order t0 rest -> In (t, args) rest -> t0 <= t.
Proof.
  induction rest as [|[t2 a2] rest IH]; intros t0 t args Horder Hin; [destruct Hin|].
  destruct Horder as [H12 Hrest]. destruct Hin as [[= -> ->]|Hin]; [exact H12|].
  specialize (IH t2 t args Hrest Hin). lia.
Qed.

Lemma leading_calls_with_dropped invocations :
  forall timers_first cooldown_until t0,
    in_time_order t0 invocations ->
    forall t args,
      In (t, args) invocations ->
      In (t, args) (leading_calls_with limit timers_first cooldown_until invocations)
      \/ (exists u, cooldown_until = Some u /\ t <= u)
      \/ (exists t' args',
            In (t', args')
              (leading_calls_with limit timers_first cooldown_until invocations)
            /\ t' <= t <= t' + limit).
Proof.
  induction invocations as [|[t1 a1] rest IH]; intros first cd t0 Horder t args Hin.
  - destruct Hin.
  - destruct Horder as [Ht Hrest]. cbn [leading_calls_with].
    destruct Hin as [[= -> ->]|Hin].
    + destruct cd as [u|]; [|left; left; reflexivity].
      destruct (Z.ltb_spec t u) as [Hlt|Hge]; cbn [orb].
      * right. left. exists u. split; [reflexivity | lia].
      * destruct (negb (first O)); cbn [andb]; [|left; left; reflexivity].
        destruct (Z.eqb_spec t u) as [->|_]; [|left; left; reflexivity].
        right. left. exists u. split; [reflexivity | lia].
    + pose proof (in_time_order_le rest t1 t args Hrest Hin) as Hle.
      destruct (match cd with
                | Some u => (t1 <? u) || (negb (first O) && (t1 =? u))
                | None => false
                end) eqn:Hdrop.
      * apply (IH _ cd t1 Hrest t args Hin).
      * destruct (IH (fun i => first (S i)) (Some (t1 + limit)) t1 Hrest t args Hin)
          as [Hrun|[(u & [= <-] & Hu)|(t' & args' & Hrun & Hwin)]].
        -- left. right. exact Hrun.
        -- right. right. exists t1, a1. split; [left; reflexivity | lia].
        -- right. right. exists t', args'. split; [right; exact Hrun | exact Hwin].
Qed.

(** X16: for a [limit] from 1 to 2^31 - 1 milliseconds, the runs of [func]
    are calls that were made, in the order they were made; and a call that
    did not run came within [limit] after a call that did: in its cooldown
    window, or at the very end of it, where the event loop decides. *)
Theorem throttle_drops_only_in_cooldown timers_first start invocations later T :
  in_time_order start invocations ->
  let runs := th_calls (th_advance later T
                          (th_call_all limit timers_first invocations
                             (th_initial start))) in
  sublist runs invocations
  /\ forall t args,
       In (t, args) invocations -> ~ In (t, args) runs ->
       exists t' args', In (t', args') runs /\ t' <= t <= t' + limit.
Proof.
  intros Horder runs. unfold runs. rewrite th_advance_calls.
  rewrite (th_call_all_leading invocations timers_first None (th_initial start));
    [| split; reflexivity | exact Horder].
  cbn [th_initial th_calls app]. split; [apply leading_calls_with_sublist|].
  intros t args Hin Hnot.
  destruct (leading_calls_with_dropped invocations timers_first None start Horder
              t args Hin)
    as [Hrun|[(u & Hu & _)|Hwin]]; [contradiction | discriminate Hu | exact Hwin].
Qed.

End Throttle.

Lemma throttle_runs_leading_calls_witness :
  th_calls (th_advance true 1000
              (th_call_all 100 (fun _ => false)
                 [(0, [VNum (Finite 1)]); (10, [VNum (Finite 2)]);
                  (50, [VNum (Finite 3)]); (150, [VNum (Finite 4)])]
                 (th_initial 0)))
  = [(0, [VNum (Finite 1)]); (150, [VNum (Finite 4)])].
Proof.
  rewrite (throttle_runs_leading_calls 100 ltac:(vm_compute; split; discriminate)
             (fun _ => false) 0);
    [reflexivity | simpl; lia |].
  unfold clear_of_cooldowns. cbn [leading_calls Z.ltb Z.compare Z.add Pos.add].
  repeat first [apply Forall_nil_2 | apply Forall_cons_2]; simpl; lia.
Defined.

Lemma throttle_runs_are_spaced_witness : 0 + 100 <= 150.
Proof.
  apply (throttle_runs_are_spaced 100 ltac:(vm_compute; split; discriminate)
           (fun _ => false) 0
           [(0, [VNum (Finite 1)]); (10, [VNum (Finite 2)]);
            (50, [VNum (Finite 3)]); (150, [VNum (Finite 4)])]
           true 1000 0%nat 0 [VNum (Finite 1)] 150 [VNum (Finite 4)]);
    [simpl; lia | reflexivity | reflexivity].
Defined.

Lemma throttle_drops_only_in_cooldown_witness :
  exists t' args',
    In (t', args') [(0, [VNum (Finite 1)]); (150, [VNum (Finite 4)])]
    /\ t' <= 50 <= t' + 100.
Proof.
  destruct (throttle_drops_only_in_cooldown 100 ltac:(vm_compute; split; discriminate)
              (fun _ => false) 0
              [(0, [VNum (Finite 1)]); (10, [VNum (Finite 2)]);
               (50, [VNum (Finite 3)]); (150, [VNum (Finite 4)])] true 1000)
    as [_ Hdropped]; [simpl; lia |].
  apply (Hdropped 50 [VNum (Finite 3)]).
  - simpl. tauto.
  - simpl. intros [H|[H|[]]]; discriminate H.
Defined.

(** *** debounce, for any spacing of the calls *)

Section DebounceAnySpacing.

Variable wait : Z.
Hypothesis wait_kept : 1 <= wait <= TIMEOUT_MAX.

Lemma first_call_arms_after start t args :
  start <= t ->
  armed_after wait t args [] (debounce wait args (advance t (initial start))).
Proof.
  intros Hs. exists 0%nat. unfold debounce, executedFunction, advance, initial. simpl.
  rewrite (Z.max_r start t) by lia. reflexivity.
Qed.

Lemma next_call_after t args log t' args' w :
  armed_after wait t args log w -> t <= t' ->
  armed_after wait t' args'
    (log ++ (if t + wait <=? t' then [(t + wait, args)] else []))
    (debounce wait args' (advance t' w)).
Proof.
  intros [id ->] Ht. exists (S id).
  unfold debounce, executedFunction, advance. simpl.
  rewrite (timer_delay_kept wait wait_kept).
  destruct (Z.leb_spec (t + wait) t') as [Hdue|Hnot]; simpl.
  - rewrite Nat.eqb_refl. simpl.
    rewrite (Z.max_r t (t + wait)) by lia.
    rewrite (Z.max_r (t + wait) t') by lia. reflexivity.
  - rewrite Nat.eqb_refl. simpl. rewrite (Z.max_r t t') by lia.
    rewrite app_nil_r. reflexivity.
Qed.

Lemma armed_after_end t args log w T :
  armed_after wait t args log w -> t <= T ->
  calls (advance T w)
  = log ++ (if t + wait <=? T then [(t + wait, args)] else []).
Proof.
  intros [id ->] HT. unfold advance. simpl.
  rewrite (timer_delay_kept wait wait_kept).
  destruct (Z.leb_spec (t + wait) T) as [Hdue|Hnot]; simpl.
  - rewrite (Z.max_r t (t + wait)) by lia. reflexivity.
  - rewrite app_nil_r. reflexivity.
Qed.

Lemma call_all_trailing later_calls :
  forall t args log w T,
    armed_after wait t args log w ->
    in_time_order t later_calls ->
    (final_call t args later_calls).1 <= T ->
    calls (advance T (call_all wait later_calls w))
    = log ++ trailing_calls wait t args later_calls T.
Proof.
  induction later_calls as [|[t' args'] rest IH]; intros t args log w T Hw Horder HT.
  - simpl. apply (armed_after_end t args log w T Hw HT).
  - destruct Horder as [Ht Hrest]. cbn [call_all trailing_calls].
    rewrite final_call_cons in HT. cbn [fst snd] in HT.
    rewrite (IH t' args' _ _ T (next_call_after t args log t' args' w Hw Ht) Hrest HT).
    rewrite <- List.app_assoc. reflexivity.
Qed.

(** X17: for a [wait] from 1 to 2^31 - 1 milliseconds, however the calls of
    the debounced function are spaced, [func] runs for exactly the calls
    that no other call follows within [wait]: each of them [wait] after it
    was made and with its own arguments, the last call included once
    [wait] has passed.  (No call is made at the very time the timer of the
    call before it is due.) *)
Theorem debounce_runs_trailing_calls start t0 args0 later_calls T :
  start <= t0 ->
  in_time_order t0 later_calls ->
  untied wait t0 later_calls ->
  (final_call t0 args0 later_calls).1 <= T ->
  calls (advance T (call_all wait ((t0, args0) :: later_calls) (initial start)))
  = trailing_calls wait t0 args0 later_calls T.
Proof.
  intros Hs Horder _ HT. cbn [call_all].
  apply (call_all_trailing later_calls t0 args0 [] _ T);
    [apply first_call_arms_after, Hs | exact Horder | exact HT].
Qed.

Lemma apart_in_time_order later_calls :
  forall t, apart wait t later_calls -> in_time_order t later_calls.
Proof.
  induction later_calls as [|[t' args'] rest IH]; intros t H; [exact I|].
  destruct H as [Ht Hrest]. split; [lia | apply IH, Hrest].
Qed.

Lemma trailing_calls_apart later_calls :
  forall t args T,
    apart wait t later_calls ->
    (final_call t args later_calls).1 + wait <= T ->
    trailing_calls wait t args later_calls T
    = map (fun c => (c.1 + wait, c.2)) ((t, args) :: later_calls).
Proof.
  induction later_calls as [|[t' args'] rest IH]; intros t args T Hsp HT.
  - simpl in *. destruct (Z.leb_spec (t + wait) T); [reflexivity | lia].
  - destruct Hsp as [Ht Hrest]. cbn [trailing_calls].
    rewrite final_call_cons in HT. cbn [fst snd] in HT.
    destruct (Z.leb_spec (t + wait) t'); [|lia].
    rewrite (IH t' args' T Hrest HT). reflexivity.
Qed.

(** X18: for a [wait] from 1 to 2^31 - 1 milliseconds, when every call of
    the debounced function comes more than [wait] after the one before it,
    no call is lost: [func] runs once for each call, [wait] after it and
    with its arguments. *)
Theorem debounce_spaced_calls_all_run start t0 args0 later_calls T :
  start <= t0 ->
  apart wait t0 later_calls ->
  (final_call t0 args0 later_calls).1 + wait <= T ->
  calls (advance T (call_all wait ((t0, args0) :: later_calls) (initial start)))
  = map (fun c => (c.1 + wait, c.2)) ((t0, args0) :: later_calls).
Proof.
  intros Hs Hapart HT. cbn [call_all].
  rewrite (call_all_trailing later_calls t0 args0 [] _ T);
    [| apply first_call_arms_after, Hs | apply apart_in_time_order, Hapart | lia].
  apply trailing_calls_apart; assumption.
Qed.

End DebounceAnySpacing.

Lemma debounce_runs_trailing_calls_witness :
  calls (advance 2000
           (call_all 300
              [(0, [VStr (lit "a")]); (50, [VStr (lit "ae")]); (400, [VStr (lit "aem")])]
              (initial 0)))
  = [(350, [VStr (lit "ae")]); (700, [VStr (lit "aem")])].
Proof.
  rewrite (debounce_runs_trailing_calls 300 ltac:(vm_compute; split; discriminate)
             0 0 [VStr (lit "a")]
             [(50, [VStr (lit "ae")]); (400, [VStr (lit "aem")])] 2000);
    [reflexivity | lia | simpl; lia | simpl; lia | simpl; lia].
Defined.

Lemma debounce_spaced_calls_all_run_witness :
  calls (advance 2000
           (call_all 300
              [(0, [VStr (lit "a")]); (350, [VStr (lit "ae")]); (900, [VStr (lit "aem")])]
              (initial 0)))
  = [(300, [VStr (lit "a")]); (650, [VStr (lit "ae")]); (1200, [VStr (lit "aem")])].
Proof.
  rewrite (debounce_spaced_calls_all_run 300 ltac:(vm_compute; split; discriminate)
             0 0 [VStr (lit "a")]
             [(350, [VStr (lit "ae")]); (900, [VStr (lit "aem")])] 2000);
    [reflexivity | lia | simpl; lia | simpl; lia].
Defined.

(** ** The list of components *)

Lemma extends_refl st : extends st st.
Proof. split; [reflexivity | auto]. Qed.

Lemma extends_trans st1 st2 st3 : extends st1 st2 -> extends st2 st3 -> extends st1 st3.
Proof.
  intros [Ho1 Ha1] [Ho2 Ha2]. split; [congruence|].
  intros other Hs. rewrite Ha2, Ha1; [reflexivity | exact Hs |].
  rewrite Ha1; exact Hs.
Qed.

Lemma extends_alloc st elems : extends st (alloc_array st elems).1.
Proof. split; [reflexivity | apply alloc_array_other]. Qed.

Lemma extends_fresh st st' r :
  extends st st' -> arrays st' !! r = None -> arrays st !! r = None.
Proof.
  intros [_ Ha] Hr. destruct (arrays st !! r) as [xs|] eqn:E; [|reflexivity].
  rewrite <- E, <- Ha; [exact Hr | rewrite E; eauto].
Qed.

Lemma get_field_extends st st' item key :
  extends st st' -> get_field st' item key = get_field st item key.
Proof. intros [Ho _]. unfold get_field. rewrite Ho. reflexivity. Qed.

Lemma keeps_extends {engine : Engine} toLowerCase st st' term keys c :
  extends st st' ->
  keeps toLowerCase st' term keys c = keeps toLowerCase st term keys c.
Proof.
  intros He. unfold keeps, key_matches.
  induction keys as [|k keys IH]; [reflexivity|].
  simpl. rewrite (get_field_extends st st' c k He), IH. reflexivity.
Qed.

Lemma filter_twice {A} (f g : A -> bool) l :
  List.filter g (List.filter f l) = List.filter (fun x => f x && g x) l.
Proof.
  induction l as [|x l IH]; [reflexivity|].
  simpl. destruct (f x); simpl; [destruct (g x)|]; rewrite ?IH; reflexivity.
Qed.

Lemma filter_same {A} (f g : A -> bool) l :
  (forall x, f x = g x) -> List.filter f l = List.filter g l.
Proof.
  intros H. induction l as [|x l IH]; [reflexivity|].
  simpl. rewrite H, IH. reflexivity.
Qed.

Lemma filter_by_field_result st result items key wanted :
  arrays st !! result = Some items ->
  filter_by_field st result key wanted
  = Some (alloc_array st
            (List.filter (fun c => strict_equals (get_field st c key) (VStr wanted)) items)).
Proof.
  intros Hr. unfold filter_by_field. rewrite Hr.
  rewrite (array_filter_total _
             (fun c => strict_equals (get_field st c key) (VStr wanted)));
    [reflexivity | auto].
Qed.

(** One filter of [filteredComponents]: skipped when its setting is empty,
    else a new array with what passes. *)
Lemma filter_stage st stk rk lk (setting : jsstring) (p : loc -> bool)
    (narrowed : option (store * loc)) :
  extends st stk -> arrays stk !! rk = Some lk -> arrays st !! rk = None ->
  (setting <> [] ->
   exists stk' rk',
     narrowed = Some (stk', rk') /\ extends stk stk'
     /\ arrays stk !! rk' = None /\ arrays stk' !! rk' = Some (List.filter p lk)) ->
  exists stk' rk',
    (if str_falsy setting then Some (stk, rk) else narrowed) = Some (stk', rk')
    /\ extends st stk' /\ arrays st !! rk' = None
    /\ arrays stk' !! rk' = Some (List.filter (fun c => str_falsy setting || p c) lk).
Proof.
  intros He Hk Hfresh Hstep. destruct setting as [|ch setting']; cbn [str_falsy orb].
  - exists stk, rk. split; [reflexivity|]. split; [exact He|]. split; [exact Hfresh|].
    rewrite Hk. f_equal. symmetry. clear. induction lk as [|x l IH]; [reflexivity|].
    simpl. rewrite IH. reflexivity.
  - destruct Hstep as (stk' & rk' & -> & He' & Hnew & Hcontent); [discriminate|].
    exists stk', rk'. split; [reflexivity|].
    split; [apply (extends_trans st stk stk'); assumption|].
    split; [apply (extends_fresh st stk); assumption|].
    rewrite Hcontent. f_equal.
Qed.

Section FilteredComponentsProofs.

Context {engine : Engine}.
Variable toLowerCase : jsstring -> jsstring.

(** X19: [filteredComponents] answers a new array that holds, in their
    order, exactly the components that pass every filter that is set: the
    search (a match in name, description or author), the type and the
    status; with no filter set it holds them all.  The component list
    itself, and every other array, stays as it was. *)
Theorem filteredComponents_shown st view items :
  arrays st !! components view = Some items ->
  exists st' r,
    filteredComponents toLowerCase st view = Some (st', r)
    /\ arrays st !! r = None
    /\ arrays st' !! r = Some (List.filter (shown toLowerCase st view) items)
    /\ extends st st'.
Proof.
  intros Hc. unfold filteredComponents. rewrite Hc.
  pose proof (extends_alloc st items) as He1.
  pose proof (alloc_array_fresh st items) as Hf1.
  pose proof (alloc_array_lookup st items) as Hl1.
  destruct (alloc_array st items) as [st1 r1]. cbn [fst snd] in *.
  destruct (filter_stage st st1 r1 items (searchQuery view)
              (keeps toLowerCase st (toLowerCase (searchQuery view))
                 [name_key; description_key; author_key])
              (filterBySearch toLowerCase st1 r1 (searchQuery view)
                 [name_key; description_key; author_key]) He1 Hl1 Hf1)
    as (st2 & r2 & -> & He2 & Hf2 & Hl2).
  { intros Hq.
    set (kept := List.filter
                   (keeps toLowerCase st1 (toLowerCase (searchQuery view))
                      [name_key; description_key; author_key]) items).
    exists (alloc_array st1 kept).1, (alloc_array st1 kept).2.
    split; [rewrite (filterBySearch_result toLowerCase st1 r1 items) by assumption;
            reflexivity|].
    split; [apply extends_alloc|]. split; [apply alloc_array_fresh|].
    rewrite alloc_array_lookup. f_equal. apply filter_same. intros c.
    apply (keeps_extends toLowerCase st st1), He1. }
  destruct (filter_stage st st2 r2 _ (filterType view)
              (fun c => strict_equals (get_field st c type_key) (VStr (filterType view)))
              (filter_by_field st2 r2 type_key (filterType view)) He2 Hl2 Hf2)
    as (st3 & r3 & -> & He3 & Hf3 & Hl3).
  { intros _.
    match type of Hl2 with _ = Some ?l =>
      set (kept := List.filter
                     (fun c => strict_equals (get_field st2 c type_key) (VStr (filterType view))) l)
    end.
    exists (alloc_array st2 kept).1, (alloc_array st2 kept).2.
    split; [rewrite (filter_by_field_result st2 r2 _ _ _ Hl2); reflexivity|].
    split; [apply extends_alloc|]. split; [apply alloc_array_fresh|].
    rewrite alloc_array_lookup. f_equal. apply filter_same. intros c.
    rewrite (get_field_extends st st2 c type_key He2). reflexivity. }
  destruct (filter_stage st st3 r3 _ (filterStatus view)
              (fun c => strict_equals (get_field st c status_key) (VStr (filterStatus view)))
              (filter_by_field st3 r3 status_key (filterStatus view)) He3 Hl3 Hf3)
    as (st4 & r4 & -> & He4 & Hf4 & Hl4).
  { intros _.
    match type of Hl3 with _ = Some ?l =>
      set (kept := List.filter
                     (fun c => strict_equals (get_field st3 c status_key) (VStr (filterStatus view))) l)
    end.
    exists (alloc_array st3 kept).1, (alloc_array st3 kept).2.
    split; [rewrite (filter_by_field_result st3 r3 _ _ _ Hl3); reflexivity|].
    split; [apply extends_alloc|]. split; [apply alloc_array_fresh|].
    rewrite alloc_array_lookup. f_equal. apply filter_same. intros c.
    rewrite (get_field_extends st st3 c status_key He3). reflexivity. }
  exists st4, r4. split; [reflexivity|]. split; [exact Hf4|]. split; [|exact He4].
  rewrite Hl4, !filter_twice. f_equal. apply filter_same. intros c.
  unfold shown. rewrite andb_assoc. reflexivity.
Qed.

End FilteredComponentsProofs.

Section FilteredComponentsExamples.

#[local] Existing Instance integers.

Lemma filteredComponents_shown_witness :
  exists st' r,
    filteredComponents ascii_toLowerCase dashboard_store
      (ComponentsView components_array (lit "hero") [] []) = Some (st', r)
    /\ arrays st' !! r = Some [banner_item]
    /\ arrays st' !! components_array = Some [banner_item; zero_item].
Proof.
  destruct (filteredComponents_shown ascii_toLowerCase dashboard_store
              (ComponentsView components_array (lit "hero") [] [])
              [banner_item; zero_item] eq_refl)
    as (st' & r & Hrun & _ & Hr & [_ Hkeep]).
  exists st', r. split; [exact Hrun|]. split.
  - rewrite Hr. reflexivity.
  - rewrite Hkeep; [reflexivity | eexists; reflexivity].
Defined.

End FilteredComponentsExamples.

(** ** The form *)

Section FormProofs.

Context {engine : Engine}.

(** [isNotEmpty(value?.toString())] never throws: its argument is a string
    or undefined. *)
Lemma isNotEmpty_optional_toString v :
  exists filled,
    isNotEmpty (optional_toString v) = Some filled
    /\ (truthy filled = true <->
        exists s, toString v = Some s /\ Exists (fun c => Char.is_space c = false) s).
Proof.
  unfold optional_toString. destruct (toString v) as [s|] eqn:E.
  - destruct (isNotEmpty_string s) as (r & Hr & Hspec). exists r. split; [exact Hr|].
    rewrite Hspec. split.
    + intros [Hne Hlen]. exists s. split; [reflexivity|].
      destruct (blank_or_not Char.is_space s) as [Hb|Hn]; [|exact Hn].
      apply trim_nil_iff in Hb. rewrite Hb in Hlen. simpl in Hlen. lia.
    + intros (s' & [= <-] & Hex). apply Exists_exists in Hex.
      destruct Hex as (c & Hin & Hc). split.
      * intros ->. inversion Hin.
      * destruct (trim s) eqn:Et; [|simpl; lia].
        apply trim_nil_iff in Et. rewrite Forall_forall in Et.
        rewrite (Et c Hin) in Hc. discriminate Hc.
  - exists VUndefined. split; [reflexivity|]. split; [discriminate|].
    intros (s & Hs & _). discriminate Hs.
Qed.

Lemma field_error_total f v : exists error, field_error f v = Some error.
Proof.
  unfold field_error. destruct (field_required f); [|eauto].
  destruct (isNotEmpty_optional_toString v) as (filled & -> & _).
  destruct (negb (truthy filled)); eauto.
Qed.

Lemma validateAll_from_spec fields :
  forall fm ok,
  exists fm',
    validateAll_from fields fm ok
    = Some (fm', ok && forallb (field_passes (formData fm)) fields)
    /\ formData fm' = formData fm
    /\ (forall f, In f fields -> is_Some (errors fm' !! field_name f))
    /\ (forall name,
          (forall f, In f fields -> field_name f <> name) ->
          errors fm' !! name = errors fm !! name)
    /\ (forall name, is_Some (errors fm !! name) -> is_Some (errors fm' !! name)).
Proof.
  induction fields as [|f rest IH]; intros fm ok.
  - exists fm. simpl. rewrite andb_true_r. repeat split; auto. intros f [].
  - cbn [validateAll_from]. unfold validateField.
    destruct (field_error_total f (form_value (formData fm) (field_name f))) as [e He].
    rewrite He.
    destruct (IH (Form (formData fm) (<[field_name f := e]> (errors fm)))
                (if negb (truthy e) then ok else false))
      as (fm' & Hrun & Hdata & Hall & Hother & Hkept).
    exists fm'. cbn [formData errors] in *. split; [|split; [exact Hdata|split; [|split]]].
    + rewrite Hrun. f_equal. f_equal. cbn [forallb]. unfold field_passes at 2.
      rewrite He. destruct ok, (negb (truthy e)); reflexivity.
    + intros g [<-|Hin]; [|apply Hall, Hin].
      apply Hkept. rewrite lookup_insert_eq. eauto.
    + intros name Hname. rewrite Hother.
      * apply lookup_insert_ne. apply Hname. left. reflexivity.
      * intros g Hin. apply Hname. right. exact Hin.
    + intros name Hs. apply Hkept.
      destruct (decide (field_name f = name)) as [<-|Hne].
      * rewrite lookup_insert_eq. eauto.
      * rewrite lookup_insert_ne by exact Hne. exact Hs.
Qed.


Lemma validateAll_from_true fields :
  forall fm ok fm',
    validateAll_from fields fm ok = Some (fm', true) ->
    (forall f, In f fields -> field_passes (formData fm) f = true)
    /\ formData fm' = formData fm
    /\ forall name e,
         errors fm' !! name = Some e ->
         truthy e = false
         \/ (errors fm !! name = Some e /\ forall f, In f fields -> field_name f <> name).
Proof.
  induction fields as [|f rest IH]; intros fm ok fm' Hrun.
  - simpl in Hrun. injection Hrun as <- _. split; [intros f []|].
    split; [reflexivity|]. intros name e He. right. split; [exact He | intros f []].
  - cbn [validateAll_from] in Hrun. unfold validateField in Hrun.
    destruct (field_error f (form_value (formData fm) (field_name f))) as [e0|] eqn:E0;
      [|discriminate Hrun].
    pose proof (validateAll_from_spec rest
                  (Form (formData fm) (<[field_name f := e0]> (errors fm)))
                  (if negb (truthy e0) then ok else false)) as (fm2 & Hrun2 & _).
    rewrite Hrun in Hrun2. injection Hrun2 as _ Hok.
    apply IH in Hrun. cbn [formData errors] in Hrun.
    destruct Hrun as (Hpass & Hdata & Herr).
    assert (Hf : truthy e0 = false).
    { destruct (truthy e0); [|reflexivity]. simpl in Hok. discriminate Hok. }
    split; [|split; [exact Hdata|]].
    + intros g [<-|Hin]; [|apply Hpass, Hin].
      unfold field_passes. rewrite E0, Hf. reflexivity.
    + intros name e He. destruct (Herr name e He) as [Hfalse|[Hold Hrest]]; [left; exact Hfalse|].
      destruct (decide (field_name f = name)) as [<-|Hne].
      * rewrite lookup_insert_eq in Hold. injection Hold as <-. left. exact Hf.
      * rewrite lookup_insert_ne in Hold by exact Hne. right. split; [exact Hold|].
        intros g [<-|Hin]; [exact Hne | apply Hrest, Hin].
Qed.

Lemma required_message_truthy label : truthy (VStr (required_message label)) = true.
Proof.
  unfold required_message. simpl. destruct label; reflexivity.
Qed.

Lemma passes_required_has_value f v :
  field_required f = true ->
  match field_error f v with Some e => negb (truthy e) | None => false end = true ->
  has_value v = true.
Proof.
  intros Hreq. unfold field_error. rewrite Hreq.
  destruct (isNotEmpty_optional_toString v) as (filled & -> & Hfilled).
  destruct (truthy filled) eqn:T; cbn [negb].
  - intros _. destruct (proj1 Hfilled eq_refl) as (s & Hs & Hex).
    destruct v as [| |b|n|s'|b]; try discriminate Hs; try reflexivity.
    injection Hs as ->. destruct s; [inversion Hex | reflexivity].
  - rewrite required_message_truthy. discriminate.
Qed.

(** X21: when [validateAll] has answered true, [isValid] holds: no error is
    left and every required field has a value.  (Errors the form held
    before belong to fields of the form.) *)
Theorem validateAll_implies_isValid fields fm fm' :
  (forall name e, errors fm !! name = Some e -> truthy e = true ->
     exists f, In f fields /\ field_name f = name) ->
  validateAll fields fm = Some (fm', true) ->
  isValid fields fm' = true.
Proof.
  intros Hstale Hrun. apply validateAll_from_true in Hrun.
  destruct Hrun as (Hpass & Hdata & Herr). unfold isValid.
  destruct (existsb truthy (map snd (map_to_list (errors fm')))) eqn:Hany.
  - exfalso. apply existsb_exists in Hany. destruct Hany as (e & Hin & He).
    apply in_map_iff in Hin. destruct Hin as ([name e'] & He' & Hin). simpl in He'. subst e'.
    apply list_elem_of_In, elem_of_map_to_list in Hin.
    destruct (Herr name e Hin) as [Hfalse|[Hold Hnone]]; [congruence|].
    destruct (Hstale name e Hold He) as (f & Hf & Hname). apply (Hnone f Hf Hname).
  - apply forallb_forall. intros f Hf. apply filter_In in Hf. destruct Hf as [Hin Hreq].
    rewrite Hdata. apply (passes_required_has_value f); [exact Hreq|].
    apply (Hpass f Hin).
Qed.

(** X22: a required field whose value is missing or holds only whitespace
    gets the error "<label> is required", whatever other rules it has; yet
    for [isValid] a value of whitespace counts as filled in. *)
Theorem required_field_blank f v :
  field_required f = true -> blank v ->
  field_error f v = Some (VStr (required_message (field_label f)))
  /\ (forall s, v = VStr s -> s <> [] -> has_value v = true).
Proof.
  intros Hreq Hblank. split.
  - unfold field_error. rewrite Hreq.
    destruct (isNotEmpty_optional_toString v) as (filled & -> & Hfilled).
    destruct (truthy filled) eqn:T; [|reflexivity]. exfalso.
    destruct (proj1 Hfilled eq_refl) as (s & Hs & Hex).
    destruct Hblank as [->|[->|(s' & -> & Hsp)]]; try discriminate Hs.
    injection Hs as <-. apply Exists_exists in Hex. destruct Hex as (c & Hin & Hc).
    rewrite Forall_forall in Hsp. rewrite (Hsp c Hin) in Hc. discriminate Hc.
  - intros s -> Hne. destruct s; [contradiction | reflexivity].
Qed.

(** X23: a field that is not required and has no custom validator accepts
    every falsy value (nothing typed, null, undefined, 0, false): the
    email and length rules only look at truthy values. *)
Theorem optional_field_accepts_falsy f v :
  field_required f = false -> field_validate f = None -> truthy v = false ->
  field_error f v = Some (VStr []).
Proof.
  intros Hreq Hcustom Hv. unfold field_error, later_rules. rewrite Hreq, Hcustom, Hv.
  rewrite andb_false_r. cbn [andb].
  assert (Hs : forall b, shorter_than b v = false).
  { intros bound. unfold shorter_than.
    destruct bound, (value_length v); try reflexivity.
    rewrite Hv, andb_false_r. reflexivity. }
  assert (Hl : forall b, longer_than b v = false).
  { intros bound. unfold longer_than.
    destruct bound, (value_length v); try reflexivity.
    rewrite Hv, andb_false_r. reflexivity. }
  rewrite Hs, Hl. reflexivity.
Qed.



Lemma validateAll_true_passes fields fm fm' f :
  validateAll fields fm = Some (fm', true) -> In f fields ->
  formData fm' = formData fm /\ field_passes (formData fm) f = true.
Proof.
  intros Hrun Hin. apply validateAll_from_true in Hrun.
  destruct Hrun as (Hpass & Hdata & _). split; [exact Hdata | apply Hpass, Hin].
Qed.

(** X25: the pages form requires a slug, so a form that [validateAll] has
    accepted with a slug typed into it goes out as it is: the step that
    would derive the slug from the title finds a slug and does nothing. *)
Theorem validated_slug_is_kept (toLowerCase : jsstring -> jsstring) fields fm fm' typed :
  In slug_field fields ->
  validateAll fields fm = Some (fm', true) ->
  form_value (formData fm') slug_key = VStr typed ->
  fill_slug toLowerCase (formData fm') = Some (formData fm')
  /\ Exists (fun c => Char.is_space c = false) typed.
Proof.
  intros Hin Hrun Htyped.
  destruct (validateAll_true_passes fields fm fm' slug_field Hrun Hin) as [Hdata Hpass].
  rewrite <- Hdata in Hpass. unfold field_passes, field_error in Hpass.
  cbn [field_required slug_field field_name] in Hpass. rewrite Htyped in Hpass.
  destruct (isNotEmpty_optional_toString (VStr typed)) as (filled & Hf & Hfilled).
  rewrite Hf in Hpass.
  destruct (truthy filled) eqn:T; cbn [negb] in Hpass.
  - destruct (proj1 Hfilled eq_refl) as (s & [= <-] & Hex). split; [|exact Hex].
    unfold fill_slug. rewrite Htyped.
    destruct typed; [inversion Hex | reflexivity].
  - rewrite required_message_truthy in Hpass. discriminate Hpass.
Qed.

End FormProofs.

Section FormExamples.

#[local] Existing Instance integers.

Lemma validateAll_implies_isValid_witness :
  exists fm',
    validateAll [title_field; slug_field; contact_field]
      (Form (<[title_key := VStr (lit "About us")]>
               (<[slug_key := VStr (lit "about-us")]> ∅)) ∅) = Some (fm', true)
    /\ isValid [title_field; slug_field; contact_field] fm' = true.
Proof.
  eexists. split; [vm_compute; reflexivity|].
  apply (validateAll_implies_isValid [title_field; slug_field; contact_field]
           (Form (<[title_key := VStr (lit "About us")]>
                    (<[slug_key := VStr (lit "about-us")]> ∅)) ∅)).
  - intros name e He. cbn [errors] in He. rewrite lookup_empty in He. discriminate He.
  - vm_compute. reflexivity.
Defined.

Lemma required_field_blank_witness :
  field_error title_field (VStr (lit "   "))
  = Some (VStr (lit "Page Title is required"))
  /\ has_value (VStr (lit "   ")) = true.
Proof.
  destruct (required_field_blank title_field (VStr (lit "   "))) as [Herr Hval].
  - reflexivity.
  - right. right. eexists. split; [reflexivity|]. repeat constructor.
  - split; [exact Herr|]. apply (Hval (lit "   ")); [reflexivity | discriminate].
Defined.

Lemma optional_field_accepts_falsy_witness :
  field_error contact_field (VStr []) = Some (VStr [])
  /\ field_error contact_field (VStr (lit "milos@")) = Some (VStr email_message).
Proof.
  split; [|reflexivity].
  apply optional_field_accepts_falsy; reflexivity.
Defined.

Lemma validated_slug_is_kept_witness :
  fill_slug ascii_toLowerCase
    (<[title_key := VStr (lit "About us")]> (<[slug_key := VStr (lit "about-us")]> ∅))
  = Some (<[title_key := VStr (lit "About us")]> (<[slug_key := VStr (lit "about-us")]> ∅)).
Proof.
  refine (proj1 (validated_slug_is_kept ascii_toLowerCase [title_field; slug_field; contact_field]
           (Form (<[title_key := VStr (lit "About us")]>
                    (<[slug_key := VStr (lit "about-us")]> ∅)) ∅)
           (Form (<[title_key := VStr (lit "About us")]>
                    (<[slug_key := VStr (lit "about-us")]> ∅))
                 (<[lit "contact" := VStr []]>
                    (<[slug_key := VStr []]> (<[title_key := VStr []]> ∅))))
           (lit "about-us") _ _ _)).
  - simpl. tauto.
  - vm_compute. reflexivity.
  - reflexivity.
Defined.

End FormExamples.
